(** * Game of Life: the simulation engine of rfpludwick/game-of-life

    A shallow embedding of [main.go] (the flag-only program) and of its
    sibling with configuration-file support, followed by the properties
    of the engine: neighbour resolution, the sparse organisms map, the
    generation transition, the Life 1.06 output and the seed input. *)

From Stdlib Require Import ZArith String Ascii Lia.
From stdpp Require Import base option list gmap sorting pretty.

Local Open Scope Z_scope.
#[local] Set Warnings "-clear-no-such-hyp".

(** ** 64-bit signed integers

    Coordinates are Go [int64] values.  They are modelled as [Z]; the two
    arithmetic operations of the engine ([coord - 1] and [coord + 1]) wrap
    around as Go's do. *)

Definition minInt64 : Z := - 2 ^ 63.
Definition maxInt64 : Z := 2 ^ 63 - 1.

Definition int64 (z : Z) : Prop := minInt64 ≤ z ≤ maxInt64.

Definition wrap64 (z : Z) : Z := (z + 2 ^ 63) mod 2 ^ 64 - 2 ^ 63.

(** ** The world

    [flagWraparound], [worldMinX], ... of [main.go]; [appWraparound],
    [appWorldMinX], ... of the configurable program. *)

Record World : Type := mkWorld {
  wraparound : bool;
  worldMinX : Z;
  worldMaxX : Z;
  worldMinY : Z;
  worldMaxY : Z
}.

(** The organisms map [map[int64]map[int64]int]: x-coordinate first, then
    y-coordinate, mapped to 1 (alive) or 0 (a stubbed dead neighbour). *)
Abbreviation Organisms := (gmap Z (gmap Z Z)).

(** [organisms[x][y]] read with the comma-ok form: a missing row reads as
    the nil map, in which every key is missing. *)
Definition lookup2 (organisms : Organisms) (c : Z * Z) : option Z :=
  match organisms !! c.1 with
  | Some coordYs => coordYs !! c.2
  | None => None
  end.

(** [organisms[x][y] = v] on a row that exists (the engine never writes
    to a missing row, where Go would panic; [alter] leaves the map as it
    is there). *)
Definition store2 (x y v : Z) (organisms : Organisms) : Organisms :=
  alter (<[y := v]>) x organisms.

Section Engine.

Variable w : World.

(** *** [getNeighborsX], [getNeighborsY] *)

Definition getNeighborsX (coordX : Z) : Z * Z * bool * bool :=
  let '(coordXLeft, coordXLeftExists) :=
    if coordX =? worldMinX w then
      if wraparound w then (worldMaxX w, true) else (0, false)
    else (wrap64 (coordX - 1), true) in
  let '(coordXRight, coordXRightExists) :=
    if coordX =? worldMaxX w then
      if wraparound w then (worldMinX w, true) else (0, false)
    else (wrap64 (coordX + 1), true) in
  (coordXLeft, coordXRight, coordXLeftExists, coordXRightExists).

Definition getNeighborsY (coordY : Z) : Z * Z * bool * bool :=
  let '(coordYBottom, coordYBottomExists) :=
    if coordY =? worldMinY w then
      if wraparound w then (worldMaxY w, true) else (0, false)
    else (wrap64 (coordY - 1), true) in
  let '(coordYTop, coordYTopExists) :=
    if coordY =? worldMaxY w then
      if wraparound w then (worldMinY w, true) else (0, false)
    else (wrap64 (coordY + 1), true) in
  (coordYBottom, coordYTop, coordYBottomExists, coordYTopExists).

(** *** [hasLife] *)

Definition hasLife (organisms : Organisms) (coordX coordY : Z) : Z :=
  match organisms !! coordX with
  | Some coordYs =>
      match coordYs !! coordY with
      | Some value => value
      | None => 0
      end
  | None => 0
  end.

(** *** [addOrganism] *)

(** The slices [coordXs] and [coordYs] built by the four [append]s. *)
Definition appendIf (exists_ : bool) (coord : Z) (coords : list Z) : list Z :=
  if exists_ then coords ++ [coord] else coords.

Definition coordXsOf (coordX : Z) : list Z :=
  let '(coordXLeft, coordXRight, coordXLeftExists, coordXRightExists) :=
    getNeighborsX coordX in
  appendIf coordXRightExists coordXRight
    (appendIf coordXLeftExists coordXLeft [coordX]).

Definition coordYsOf (coordY : Z) : list Z :=
  let '(coordYBottom, coordYTop, coordYBottomExists, coordYTopExists) :=
    getNeighborsY coordY in
  appendIf coordYTopExists coordYTop
    (appendIf coordYBottomExists coordYBottom [coordY]).

(** Body of the inner loop: stub the cell with 0 unless it has an entry. *)
Definition stubCell (tempCoordX : Z) (organisms : Organisms) (tempCoordY : Z)
  : Organisms :=
  match lookup2 organisms (tempCoordX, tempCoordY) with
  | Some _ => organisms
  | None => store2 tempCoordX tempCoordY 0 organisms
  end.

(** Body of the outer loop: make the row if it is missing, then stub it. *)
Definition stubRow (coordYs : list Z) (organisms : Organisms) (tempCoordX : Z)
  : Organisms :=
  let organisms :=
    match organisms !! tempCoordX with
    | Some _ => organisms
    | None => <[tempCoordX := ∅]> organisms
    end in
  foldl (stubCell tempCoordX) organisms coordYs.

Definition addOrganism (organisms : Organisms) (coordX coordY : Z)
  : Organisms :=
  let organisms :=
    foldl (stubRow (coordYsOf coordY)) organisms (coordXsOf coordX) in
  store2 coordX coordY 1 organisms.

(** *** The neighbour count of the tick loop (lines 62-99 of [main.go])

    [neighborsAlive] is a Go [int]; it adds up at most eight entries of
    the map, each the 0 or 1 that [addOrganism] wrote, so the sum is
    written without wrap-around. *)

Definition neighborsAlive (organisms : Organisms) (coordX coordY : Z) : Z :=
  let '(coordXLeft, coordXRight, coordXLeftExists, coordXRightExists) :=
    getNeighborsX coordX in
  let '(coordYBottom, coordYTop, coordYBottomExists, coordYTopExists) :=
    getNeighborsY coordY in
  let neighborsAlive := 0 in
  let neighborsAlive :=
    if coordXLeftExists then
      let neighborsAlive :=
        neighborsAlive + hasLife organisms coordXLeft coordY in
      let neighborsAlive :=
        if coordYBottomExists
        then neighborsAlive + hasLife organisms coordXLeft coordYBottom
        else neighborsAlive in
      if coordYTopExists
      then neighborsAlive + hasLife organisms coordXLeft coordYTop
      else neighborsAlive
    else neighborsAlive in
  let neighborsAlive :=
    if coordXRightExists then
      let neighborsAlive :=
        neighborsAlive + hasLife organisms coordXRight coordY in
      let neighborsAlive :=
        if coordYBottomExists
        then neighborsAlive + hasLife organisms coordXRight coordYBottom
        else neighborsAlive in
      if coordYTopExists
      then neighborsAlive + hasLife organisms coordXRight coordYTop
      else neighborsAlive
    else neighborsAlive in
  let neighborsAlive :=
    if coordYBottomExists
    then neighborsAlive + hasLife organisms coordX coordYBottom
    else neighborsAlive in
  if coordYTopExists
  then neighborsAlive + hasLife organisms coordX coordYTop
  else neighborsAlive.

(** The coordinates whose [hasLife] the loop adds up, in the order of the
    code; a coordinate occurs once for each time it is counted. *)
Definition neighborCoords (c : Z * Z) : list (Z * Z) :=
  let '(coordXLeft, coordXRight, coordXLeftExists, coordXRightExists) :=
    getNeighborsX c.1 in
  let '(coordYBottom, coordYTop, coordYBottomExists, coordYTopExists) :=
    getNeighborsY c.2 in
  (if coordXLeftExists then
     (coordXLeft, c.2)
       :: (if coordYBottomExists then [(coordXLeft, coordYBottom)] else [])
       ++ (if coordYTopExists then [(coordXLeft, coordYTop)] else [])
   else [])
  ++ (if coordXRightExists then
     (coordXRight, c.2)
       :: (if coordYBottomExists then [(coordXRight, coordYBottom)] else [])
       ++ (if coordYTopExists then [(coordXRight, coordYTop)] else [])
   else [])
  ++ (if coordYBottomExists then [(c.1, coordYBottom)] else [])
  ++ (if coordYTopExists then [(c.1, coordYTop)] else []).

(** *** One generation

    [entries] lists the cells the two nested [range] loops visit, with the
    value read for each.  Go leaves the order of a [range] over a map
    open, so a tick is defined for any visiting order ([tickOver]);
    [tick] takes the order in which the map enumerates itself, and every
    other order of the same entries builds the same map. *)

Definition entries (organisms : Organisms) : list (Z * Z * Z) :=
  '(coordX, coordYs) ← map_to_list organisms;
  '(coordY, alive) ← map_to_list coordYs;
  [(coordX, coordY, alive)].

Variable rule : Z → Z → bool.

Definition tickCell (organisms organismsNext : Organisms) (e : Z * Z * Z)
  : Organisms :=
  let '(coordX, coordY, alive) := e in
  if rule alive (neighborsAlive organisms coordX coordY)
  then addOrganism organismsNext coordX coordY
  else organismsNext.

Definition tickOver (visit : list (Z * Z * Z)) (organisms : Organisms)
  : Organisms :=
  foldl (tickCell organisms) ∅ visit.

Definition tick (organisms : Organisms) : Organisms :=
  tickOver (entries organisms) organisms.

End Engine.

(** ** How a run can end

    [log.Fatal] and [log.Fatalf] end the process with a message; the
    message is kept as the site that wrote it, with the values it prints.
    (The configurable program prefixes its messages with "CLI flags
    error: ", "Bootstrap error: " or "Input error: ".)  A failed index or
    slice expression, or a nil dereference, is a Go run-time panic. *)

Inductive NumError : Type := ErrSyntax | ErrRange.

Inductive Bound : Type := MinX | MaxX | MinY | MaxY.

Inductive FatalError : Type :=
  | TicksNotPositive (ticks : Z)
  | WorldDimensions (numberParts : Z)
  | WorldDirectionsX (numberPartsX : Z)
  | WorldDirectionsY (numberPartsY : Z)
  | WorldParse (b : Bound) (part : string) (err : NumError)
  | WorldBoundsX (worldMinX worldMaxX : Z)
  | WorldBoundsY (worldMinY worldMaxY : Z)
  | OutputDirectoryCreate (directory : string)
  | OutputDirectoryIsFile (directory : string)
  | ConfigurationRead
  | ConfigurationDecode
  | NeighborParse (neighborString : string) (err : NumError)
  | NeighborNotPositive (neighbor : Z)
  | LeftParenthesis (b : ascii)
  | RightParenthesis (b : ascii)
  | ParseCoordX (coordinate : string) (err : NumError)
  | ParseCoordY (coordinate : string) (err : NumError)
  | BelowWorldMinX (coordX worldMinX : Z)
  | AboveWorldMaxX (coordX worldMaxX : Z)
  | BelowWorldMinY (coordY worldMinY : Z)
  | AboveWorldMaxY (coordY worldMaxY : Z).

Inductive RuntimePanic : Type :=
  | IndexOutOfRange (index length : Z)
  | SliceOutOfRange (low high length : Z)
  | NilDereference.

Inductive Outcome (A : Type) : Type :=
  | Ok (a : A)
  | Exit0
  | Fatal (e : FatalError)
  | Panic (p : RuntimePanic).

Arguments Ok {A} a.
Arguments Exit0 {A}.
Arguments Fatal {A} e.
Arguments Panic {A} p.

#[global] Instance outcome_ret : MRet Outcome := λ A a, Ok a.

#[global] Instance outcome_bind : MBind Outcome := λ A B f m,
  match m with
  | Ok a => f a
  | Exit0 => Exit0
  | Fatal e => Fatal e
  | Panic p => Panic p
  end.

Definition isOk {A} (m : Outcome A) : bool :=
  match m with Ok _ => true | _ => false end.

(** ** The Go library functions the program calls *)

Definition byte (c : ascii) : Z := Z.of_N (N_of_ascii c).

Definition bytes (l : list nat) : string :=
  string_of_list_ascii (ascii_of_nat <$> l).

Definition len (s : string) : Z := Z.of_nat (String.length s).

(** [s[i]] *)
Definition index (s : string) (i : Z) : Outcome ascii :=
  if (0 <=? i) && (i <? len s) then
    match String.get (Z.to_nat i) s with
    | Some b => Ok b
    | None => Panic (IndexOutOfRange i (len s))
    end
  else Panic (IndexOutOfRange i (len s)).

(** [s[low:high]] *)
Definition slice (s : string) (low high : Z) : Outcome string :=
  if (0 <=? low) && (low <=? high) && (high <=? len s)
  then Ok (String.substring (Z.to_nat low) (Z.to_nat (high - low)) s)
  else Panic (SliceOutOfRange low high (len s)).

(** [l[i]] on a slice of strings *)
Definition indexList (l : list string) (i : nat) : Outcome string :=
  match l !! i with
  | Some s => Ok s
  | None => Panic (IndexOutOfRange (Z.of_nat i) (Z.of_nat (length l)))
  end.

(** [strings.Split(s, sep)] for a separator of one byte: the pieces of
    [s] between the separators, one more than there are separators. *)
Fixpoint Split (s : string) (sep : ascii) : list string :=
  match s with
  | EmptyString => [EmptyString]
  | String c s' =>
      if Ascii.eqb c sep then EmptyString :: Split s' sep
      else
        match Split s' sep with
        | piece :: pieces => String c piece :: pieces
        | [] => [String c EmptyString]
        end
  end.

(** The UTF-8 encodings of the runes for which [unicode.IsSpace] holds:
    tab, line feed, vertical tab, form feed, carriage return, space,
    U+0085, U+00A0, U+1680, U+2000 to U+200A, U+2028, U+2029, U+202F,
    U+205F and U+3000. *)
Definition spaceRunes : list string :=
  (bytes <$> [[9]; [10]; [11]; [12]; [13]; [32]; [194; 133]; [194; 160];
              [225; 154; 128]])%nat
  ++ ((λ b, bytes [226; 128; b]) <$> seq 128 11)%nat
  ++ (bytes <$> [[226; 128; 168]; [226; 128; 169]; [226; 128; 175];
                 [226; 129; 159]; [227; 128; 128]])%nat.

Definition dropBytes (n : nat) (s : string) : string :=
  String.substring n (String.length s - n) s.

(** Drop leading occurrences of the given byte sequences, one per unit of
    fuel; each step shortens the string, so its length is fuel enough. *)
Fixpoint trimLeftFuel (runes : list string) (fuel : nat) (s : string)
  : string :=
  match fuel with
  | O => s
  | S fuel =>
      match List.find (λ r, String.prefix r s) runes with
      | Some r => trimLeftFuel runes fuel (dropBytes (String.length r) s)
      | None => s
      end
  end.

Definition trimLeft (runes : list string) (s : string) : string :=
  trimLeftFuel runes (String.length s) s.

(** [strings.TrimSpace]: leading white space is dropped rune by rune from
    the front, trailing white space rune by rune from the back. *)
Definition TrimSpace (s : string) : string :=
  let s := trimLeft spaceRunes s in
  String.rev (trimLeft (String.rev <$> spaceRunes) (String.rev s)).

Definition maxUint64 : Z := 2 ^ 64 - 1.

Definition digitValue (c : ascii) : option Z :=
  if (48 <=? byte c) && (byte c <=? 57) then Some (byte c - 48) else None.

(** The digit loop of [strconv.ParseUint] in base 10 (no underscores, no
    letters): a byte that is not a digit is a syntax error, a value above
    [maxUint64] a range error, whichever comes first. *)
Fixpoint parseDigits (s : string) (n : Z) : NumError + Z :=
  match s with
  | EmptyString => inr n
  | String c s' =>
      match digitValue c with
      | None => inl ErrSyntax
      | Some d =>
          if maxUint64 <? n * 10 + d then inl ErrRange
          else parseDigits s' (n * 10 + d)
      end
  end.

Definition ParseUint (s : string) : NumError + Z :=
  match s with
  | EmptyString => inl ErrSyntax
  | _ => parseDigits s 0
  end.

(** [strconv.ParseInt(s, 10, 64)] *)
Definition ParseInt (s : string) : NumError + Z :=
  match s with
  | EmptyString => inl ErrSyntax
  | String c s' =>
      let '(neg, digits) :=
        if Ascii.eqb c "+" then (false, s')
        else if Ascii.eqb c "-" then (true, s')
        else (false, s) in
      match ParseUint digits with
      | inl ErrSyntax => inl ErrSyntax
      | inl ErrRange => inl ErrRange
      | inr un =>
          if negb neg && (2 ^ 63 <=? un) then inl ErrRange
          else if neg && (2 ^ 63 <? un) then inl ErrRange
          else inr (if neg then - un else un)
      end
  end.

(** [strconv.Atoi] on a 64-bit platform. *)
Definition Atoi (s : string) : NumError + Z := ParseInt s.

(** The line feed that [Fprintln] and the format ["%d %d\n"] write. *)
Definition newline : string := String "010"%char EmptyString.

(** [fmt.Sprintf("%d %d\n", coordX, coordY)] *)
Definition formatCoordinate (coordX coordY : Z) : string :=
  pretty coordX +:+ " " +:+ pretty coordY +:+ newline.

(** ** [seedLife]

    The scanner hands over the input line by line; [lines] are the tokens
    it yields (an empty line is the empty token).  Opening the input and
    read errors of the scanner are outside the model. *)

(** Body of the scanner loop up to the call of [addOrganism]. *)
Definition seedRecord (w : World) (line : string) : Outcome (Z * Z) :=
  let lineLength := len line - 1 in
  b ← index line 0;
  if negb (byte b =? 40) then Fatal (LeftParenthesis b) else
  b ← index line lineLength;
  if negb (byte b =? 41) then Fatal (RightParenthesis b) else
  inner ← slice line 1 lineLength;
  let coordinates := Split inner "," in
  coordinate0 ← indexList coordinates 0;
  match ParseInt (TrimSpace coordinate0) with
  | inl err => Fatal (ParseCoordX coordinate0 err)
  | inr coordX =>
      coordinate1 ← indexList coordinates 1;
      match ParseInt (TrimSpace coordinate1) with
      | inl err => Fatal (ParseCoordY coordinate1 err)
      | inr coordY =>
          if coordX <? worldMinX w
          then Fatal (BelowWorldMinX coordX (worldMinX w))
          else if coordX >? worldMaxX w
          then Fatal (AboveWorldMaxX coordX (worldMaxX w))
          else if coordY <? worldMinY w
          then Fatal (BelowWorldMinY coordY (worldMinY w))
          else if coordY >? worldMaxY w
          then Fatal (AboveWorldMaxY coordY (worldMaxY w))
          else Ok (coordX, coordY)
      end
  end.

Fixpoint seedLines (w : World) (organisms : Organisms) (lines : list string)
  : Outcome Organisms :=
  match lines with
  | [] => Ok organisms
  | line :: lines =>
      c ← seedRecord w line;
      seedLines w (addOrganism w organisms c.1 c.2) lines
  end.

Definition seedLife (w : World) (lines : list string) : Outcome Organisms :=
  seedLines w ∅ lines.

(** ** [outputOrganisms]

    [sort.Slice] with the comparison [keys[left] < keys[right]]; the keys
    of a map are pairwise distinct, so the ascending order is the same
    whether ties are taken as ordered or not. *)

Definition getSortedCoordXs (organisms : Organisms) : list Z :=
  merge_sort Z.le (map_to_list organisms).*1.

Definition getSortedCoordYs (organismsByX : gmap Z Z) : list Z :=
  merge_sort Z.le (map_to_list organismsByX).*1.

(** The coordinates for which the inner loop writes a line, in the order
    in which it writes them. *)
Definition outputCoordinates (organisms : Organisms) : list (Z * Z) :=
  coordX ← getSortedCoordXs organisms;
  coordY ← getSortedCoordYs (default ∅ (organisms !! coordX));
  if default 0 (lookup2 organisms (coordX, coordY)) =? 1
  then [(coordX, coordY)] else [].

(** What is written to [file]. *)
Definition outputOrganisms (organisms : Organisms) : string :=
  ("#Life 1.06" +:+ newline)
  +:+ String.concat ""
        ((λ c, formatCoordinate c.1 c.2) <$> outputCoordinates organisms).

(** ** The parts of start-up the two programs share *)

(** The parsing of the [-world] string ([bootstrap] in [main.go],
    [processConfigurationCli] in the configurable program). *)
Definition parseBound (b : Bound) (part : string) : Outcome Z :=
  match ParseInt (TrimSpace part) with
  | inl err => Fatal (WorldParse b part err)
  | inr v => Ok v
  end.

Definition parseWorldDimensions (flagWorldDimensions : string)
  : Outcome (Z * Z * Z * Z) :=
  let parts := Split flagWorldDimensions ";" in
  let numberParts := Z.of_nat (length parts) in
  if negb (numberParts =? 2) then Fatal (WorldDimensions numberParts) else
  parts0 ← indexList parts 0;
  let partsX := Split parts0 ":" in
  let numberPartsX := Z.of_nat (length partsX) in
  if negb (numberPartsX =? 2) then Fatal (WorldDirectionsX numberPartsX) else
  parts1 ← indexList parts 1;
  let partsY := Split parts1 ":" in
  let numberPartsY := Z.of_nat (length partsY) in
  if negb (numberPartsY =? 2) then Fatal (WorldDirectionsY numberPartsY) else
  worldMinX ← indexList partsX 0 ≫= parseBound MinX;
  worldMaxX ← indexList partsX 1 ≫= parseBound MaxX;
  worldMinY ← indexList partsY 0 ≫= parseBound MinY;
  worldMaxY ← indexList partsY 1 ≫= parseBound MaxY;
  Ok (worldMinX, worldMaxX, worldMinY, worldMaxY).

(** What [os.Stat] finds at the output directory, and whether [os.Mkdir]
    succeeds when nothing is there. *)
Inductive DirStat : Type :=
  | StatNotExist (mkdirOk : bool)
  | StatIsDir
  | StatIsFile
  | StatFails.

(** The loop [for i != 0 { i /= 10; ticksDigitsLength++ }]; a [uint64]
    has at most 20 decimal digits. *)
Fixpoint countDigits (fuel : nat) (i : Z) : Z :=
  match fuel with
  | O => 0
  | S fuel => if i =? 0 then 0 else 1 + countDigits fuel (i / 10)
  end.

(** The output-directory block of [bootstrap]; the result is
    [ticksDigitsLength], 0 when no directory is asked for. *)
Definition outputDirectorySetup (directory : string) (stat : DirStat) (ticks : Z)
  : Outcome Z :=
  if String.eqb directory "" then Ok 0 else
  match stat with
  | StatNotExist true => Ok (countDigits 20 ticks)
  | StatNotExist false => Fatal (OutputDirectoryCreate directory)
  | StatIsDir => Ok (countDigits 20 ticks)
  | StatIsFile => Fatal (OutputDirectoryIsFile directory)
  | StatFails => Panic NilDereference
  end.

(** What a run writes: the per-tick files (tick index and content, when an
    output directory is set) and the final output.  Opening the files is
    outside the model. *)
Record Written : Type := mkWritten {
  tickFiles : list (Z * string);
  finalOutput : string
}.

(** [outputOrganismsTick] appends to the files written so far. *)
Definition outputOrganismsTick (directory : string) (organisms : Organisms)
    (tick : Z) (files : list (Z * string)) : list (Z * string) :=
  if String.eqb directory "" then files
  else files ++ [(tick, outputOrganisms organisms)].

(** The simulation loop of [main] and what follows it. *)
Fixpoint simulate (w : World) (rule : Z → Z → bool) (directory : string)
    (remaining : nat) (tick_ : Z) (organisms : Organisms)
    (files : list (Z * string)) : Written :=
  match remaining with
  | O =>
      mkWritten (outputOrganismsTick directory organisms tick_ files)
                (outputOrganisms organisms)
  | S remaining =>
      simulate w rule directory remaining (tick_ + 1)
        (tick w rule organisms)
        (outputOrganismsTick directory organisms tick_ files)
  end.

(** ** [main.go] *)

Module Basic.

Record Flags : Type := mkFlags {
  flagShowHelp : bool;
  flagOutputDirectory : string;
  flagTicks : Z;
  flagWraparound : bool;
  flagWorldDimensions : string
}.

(** The defaults registered in [init]. *)
Definition defaultFlags : Flags := {|
  flagShowHelp := false;
  flagOutputDirectory := "";
  flagTicks := 10;
  flagWraparound := true;
  flagWorldDimensions :=
    pretty minInt64 +:+ ":" +:+ pretty maxInt64 +:+ ";"
    +:+ pretty minInt64 +:+ ":" +:+ pretty maxInt64
|}.

(** [bootstrap]: the world and [ticksDigitsLength]. *)
Definition bootstrap (flags : Flags) (stat : DirStat) : Outcome (World * Z) :=
  if flagShowHelp flags then Exit0 else
  if flagTicks flags <? 1 then Fatal (TicksNotPositive (flagTicks flags)) else
  '(worldMinX, worldMaxX, worldMinY, worldMaxY) ←
    parseWorldDimensions (flagWorldDimensions flags);
  ticksDigitsLength ←
    outputDirectorySetup (flagOutputDirectory flags) stat (flagTicks flags);
  Ok (mkWorld (flagWraparound flags) worldMinX worldMaxX worldMinY worldMaxY,
      ticksDigitsLength).

(** Lines 104-108: alive next with 2 or 3 live neighbours when already
    alive, with 3 when not. *)
Definition rule (alive neighborsAlive : Z) : bool :=
  (neighborsAlive >=? 2) && (neighborsAlive <=? 3)
  && ((alive =? 1) || (neighborsAlive =? 3)).

Definition main (flags : Flags) (stat : DirStat) (lines : list string)
  : Outcome Written :=
  '(w, _) ← bootstrap flags stat;
  organisms ← seedLife w lines;
  Ok (simulate w rule (flagOutputDirectory flags)
        (Z.to_nat (flagTicks flags)) 0 organisms []).

End Basic.

(** ** The configurable program *)

Module Configurable.

Record ConfigurationFileWorldDimensionsMeasurements : Type := mkMeasurements {
  Minimum : Z;
  Maximum : Z
}.

Record ConfigurationFileWorldDimensions : Type := mkDimensions {
  X : ConfigurationFileWorldDimensionsMeasurements;
  Y : ConfigurationFileWorldDimensionsMeasurements
}.

Record ConfigurationFile : Type := mkConfigurationFile {
  InputFile : string;
  OutputFile : string;
  OutputDirectory : string;
  Ticks : Z;
  DisableWraparound : bool;
  WorldDimensions : ConfigurationFileWorldDimensions;
  NewLifeSpawn : list Z;
  ExistingLifeRemain : list Z
}.

(** What [-configuration] leads to: no file asked for, a file that cannot
    be read, one that does not decode, or the decoded document. *)
Inductive ConfigurationSource : Type :=
  | NoConfigurationFile
  | Unreadable
  | Undecodable
  | Decoded (cf : ConfigurationFile).

Record Flags : Type := mkFlags {
  flagShowHelp : bool;
  flagInputFile : string;
  flagOutputFile : string;
  flagOutputDirectory : string;
  flagTicks : Z;
  flagDisableWraparound : bool;
  flagWorldDimensions : string;
  flagNewLifeSpawn : string;
  flagExistingLifeRemain : string
}.

Record App : Type := mkApp {
  appInputFile : string;
  appOutputFile : string;
  appOutputDirectory : string;
  appTicks : Z;
  appWraparound : bool;
  appWorldMinX : Z;
  appWorldMaxX : Z;
  appWorldMinY : Z;
  appWorldMaxY : Z;
  appNewLifeSpawn : list Z;
  appExistingLifeRemain : list Z
}.

(** [init]: the defaults of the application variables and of the flags. *)
Definition init : App := {|
  appInputFile := "";
  appOutputFile := "";
  appOutputDirectory := "";
  appTicks := 10;
  appWraparound := true;
  appWorldMinX := minInt64;
  appWorldMaxX := maxInt64;
  appWorldMinY := minInt64;
  appWorldMaxY := maxInt64;
  appNewLifeSpawn := [3];
  appExistingLifeRemain := [2; 3]
|}.

Definition defaultFlags : Flags := {|
  flagShowHelp := false;
  flagInputFile := "";
  flagOutputFile := "";
  flagOutputDirectory := "";
  flagTicks := 0;
  flagDisableWraparound := false;
  flagWorldDimensions := "";
  flagNewLifeSpawn := "";
  flagExistingLifeRemain := ""
|}.

Definition parseFlags (flags : Flags) : Outcome unit :=
  if flagShowHelp flags then Exit0 else Ok ().

Definition nonEmpty (s : string) : bool := negb (String.eqb s "").

Definition processConfigurationFile (source : ConfigurationSource) (app : App)
  : Outcome App :=
  match source with
  | NoConfigurationFile => Ok app
  | Unreadable => Fatal ConfigurationRead
  | Undecodable => Fatal ConfigurationDecode
  | Decoded cf =>
      let dims := WorldDimensions cf in
      let newWorld :=
        negb (Minimum (X dims) =? 0) || negb (Maximum (X dims) =? 0)
        || negb (Minimum (Y dims) =? 0) || negb (Maximum (Y dims) =? 0) in
      Ok {|
        appInputFile :=
          if nonEmpty (InputFile cf) then InputFile cf else appInputFile app;
        appOutputFile :=
          if nonEmpty (OutputFile cf) then OutputFile cf else appOutputFile app;
        appOutputDirectory :=
          if nonEmpty (OutputDirectory cf) then OutputDirectory cf
          else appOutputDirectory app;
        appTicks := if negb (Ticks cf =? 0) then Ticks cf else appTicks app;
        appWraparound := if DisableWraparound cf then false else appWraparound app;
        appWorldMinX := if newWorld then Minimum (X dims) else appWorldMinX app;
        appWorldMaxX := if newWorld then Maximum (X dims) else appWorldMaxX app;
        appWorldMinY := if newWorld then Minimum (Y dims) else appWorldMinY app;
        appWorldMaxY := if newWorld then Maximum (X dims) else appWorldMaxY app;
        appNewLifeSpawn :=
          if (0 <? Z.of_nat (length (NewLifeSpawn cf))) then NewLifeSpawn cf
          else appNewLifeSpawn app;
        appExistingLifeRemain :=
          if (0 <? Z.of_nat (length (ExistingLifeRemain cf)))
          then ExistingLifeRemain cf else appExistingLifeRemain app
      |}
  end.

(** The loop over [strings.Split(flagNewLifeSpawn, ",")] (and the same
    loop for [flagExistingLifeRemain]). *)
Fixpoint parseNeighbors (neighborStrings : list string) (parsed : list Z)
  : Outcome (list Z) :=
  match neighborStrings with
  | [] => Ok parsed
  | neighborString :: neighborStrings =>
      match Atoi (TrimSpace neighborString) with
      | inl err => Fatal (NeighborParse neighborString err)
      | inr neighbor =>
          if neighbor <? 1 then Fatal (NeighborNotPositive neighbor)
          else parseNeighbors neighborStrings (parsed ++ [neighbor])
      end
  end.

Definition processConfigurationCli (flags : Flags) (app : App) : Outcome App :=
  let appInputFile :=
    if nonEmpty (flagInputFile flags) then flagInputFile flags
    else appInputFile app in
  let appOutputFile :=
    if nonEmpty (flagOutputFile flags) then flagOutputFile flags
    else appOutputFile app in
  let appOutputDirectory :=
    if nonEmpty (flagOutputDirectory flags) then flagOutputDirectory flags
    else appOutputDirectory app in
  let appTicks :=
    if negb (flagTicks flags =? 0) then flagTicks flags else appTicks app in
  let appWraparound :=
    if negb (flagDisableWraparound flags) then false else appWraparound app in
  '(appWorldMinX, appWorldMaxX, appWorldMinY, appWorldMaxY) ←
    (if nonEmpty (flagWorldDimensions flags)
     then parseWorldDimensions (flagWorldDimensions flags)
     else Ok (appWorldMinX app, appWorldMaxX app,
              appWorldMinY app, appWorldMaxY app));
  appNewLifeSpawn ←
    (if nonEmpty (flagNewLifeSpawn flags)
     then parseNeighbors (Split (flagNewLifeSpawn flags) ",") []
     else Ok (appNewLifeSpawn app));
  appExistingLifeRemain ←
    (if nonEmpty (flagExistingLifeRemain flags)
     then parseNeighbors (Split (flagExistingLifeRemain flags) ",") []
     else Ok (appExistingLifeRemain app));
  Ok (mkApp appInputFile appOutputFile appOutputDirectory appTicks
        appWraparound appWorldMinX appWorldMaxX appWorldMinY appWorldMaxY
        appNewLifeSpawn appExistingLifeRemain).

(** [bootstrap]: the result is [ticksDigitsLength]. *)
Definition bootstrap (app : App) (stat : DirStat) : Outcome Z :=
  if appTicks app <? 1 then Fatal (TicksNotPositive (appTicks app)) else
  ticksDigitsLength ←
    outputDirectorySetup (appOutputDirectory app) stat (appTicks app);
  if appWorldMinX app >=? appWorldMaxX app
  then Fatal (WorldBoundsX (appWorldMinX app) (appWorldMaxX app)) else
  if appWorldMinY app >=? appWorldMaxY app
  then Fatal (WorldBoundsY (appWorldMinY app) (appWorldMaxY app)) else
  Ok ticksDigitsLength.

(** The world the engine functions read from the application variables. *)
Definition world (app : App) : World :=
  mkWorld (appWraparound app) (appWorldMinX app) (appWorldMaxX app)
          (appWorldMinY app) (appWorldMaxY app).

(** Lines 206-226: the list to search is chosen by [alive == 1]; the loop
    sets [add] on the first entry equal to the count. *)
Definition rule (appNewLifeSpawn appExistingLifeRemain : list Z)
    (alive neighborsAlive : Z) : bool :=
  let neighborsCheck :=
    if alive =? 1 then appExistingLifeRemain else appNewLifeSpawn in
  existsb (λ neighbors, neighborsAlive =? neighbors) neighborsCheck.

(** Everything [main] does before [seedLife]. *)
Definition setup (flags : Flags) (source : ConfigurationSource) (stat : DirStat)
  : Outcome App :=
  parseFlags flags;;
  app ← processConfigurationFile source init;
  app ← processConfigurationCli flags app;
  bootstrap app stat;;
  Ok app.

Definition main (flags : Flags) (source : ConfigurationSource) (stat : DirStat)
    (lines : list string) : Outcome Written :=
  app ← setup flags source stat;
  organisms ← seedLife (world app) lines;
  Ok (simulate (world app)
        (rule (appNewLifeSpawn app) (appExistingLifeRemain app))
        (appOutputDirectory app) (Z.to_nat (appTicks app)) 0 organisms []).

End Configurable.

(** ** Notions the properties are stated with *)

(** The bounds of a world are [int64] values. *)
Definition worldInt64 (w : World) : Prop :=
  int64 (worldMinX w) ∧ int64 (worldMaxX w)
  ∧ int64 (worldMinY w) ∧ int64 (worldMaxY w).

(** The coordinate lies within the inclusive bounds of the world. *)
Definition inWorld (w : World) (c : Z * Z) : Prop :=
  worldMinX w ≤ c.1 ≤ worldMaxX w ∧ worldMinY w ≤ c.2 ≤ worldMaxY w.

(** The coordinate is marked alive: it has the entry 1. *)
Definition aliveAt (organisms : Organisms) (c : Z * Z) : Prop :=
  lookup2 organisms c = Some 1.

(** The coordinate has an entry, alive or tracked-dead. *)
Definition tracked (organisms : Organisms) (c : Z * Z) : Prop :=
  is_Some (lookup2 organisms c).

(** The halo invariant: every neighbour that exists for an alive
    coordinate has an entry. *)
Definition haloInvariant (w : World) (organisms : Organisms) : Prop :=
  ∀ c n, aliveAt organisms c → n ∈ neighborCoords w c → tracked organisms n.

(** Every entry is 0 or 1. *)
Definition valuesOk (organisms : Organisms) : Prop :=
  ∀ c v, lookup2 organisms c = Some v → v = 0 ∨ v = 1.

(** Every entry lies in the world. *)
Definition entriesInWorld (w : World) (organisms : Organisms) : Prop :=
  ∀ c, tracked organisms c → inWorld w c.

(** The three together, as a test on the finitely many entries. *)
Definition inWorldb (w : World) (c : Z * Z) : bool :=
  (worldMinX w <=? c.1) && (c.1 <=? worldMaxX w)
  && (worldMinY w <=? c.2) && (c.2 <=? worldMaxY w).

Definition wellFormedb (w : World) (organisms : Organisms) : bool :=
  forallb (λ e : Z * Z * Z,
    let '(coordX, coordY, alive) := e in
    ((alive =? 0) || (alive =? 1))
    && inWorldb w (coordX, coordY)
    && ((alive =? 0)
        || forallb (λ n, bool_decide (is_Some (lookup2 organisms n)))
             (neighborCoords w (coordX, coordY))))
    (entries organisms).

(** The organisms map after inserting the coordinates one by one, as
    [seedLife] and the tick loop do. *)
Definition insertAll (w : World) (organisms : Organisms) (cs : list (Z * Z))
  : Organisms :=
  foldl (λ organisms c, addOrganism w organisms c.1 c.2) organisms cs.

(** The coordinates a tick inserts, in visiting order. *)
Definition selected (w : World) (rule : Z → Z → bool) (organisms : Organisms)
    (visit : list (Z * Z * Z)) : list (Z * Z) :=
  (λ e : Z * Z * Z, e.1) <$>
    filter (λ e : Z * Z * Z,
      rule e.2 (neighborsAlive w organisms e.1.1 e.1.2) = true) visit.

(** Ascending X, then ascending Y within each X. *)
Definition coordLt (a b : Z * Z) : Prop :=
  a.1 < b.1 ∨ (a.1 = b.1 ∧ a.2 < b.2).

(** The seed record of a coordinate. *)
Definition seedRecordOf (c : Z * Z) : string :=
  "(" +:+ pretty c.1 +:+ "," +:+ pretty c.2 +:+ ")".

(** [bufio.ScanLines] over a whole input: the pieces between line feeds,
    each without one trailing carriage return; no token for the empty
    rest after the last line feed. *)
Fixpoint dropCR (s : string) : string :=
  match s with
  | EmptyString => EmptyString
  | String c s' =>
      match s' with
      | EmptyString => if Ascii.eqb c "013" then EmptyString else s
      | _ => String c (dropCR s')
      end
  end.

Definition scanLines (input : string) : list string :=
  let pieces := Split input "010" in
  let pieces :=
    match reverse pieces with
    | EmptyString :: earlier => reverse earlier
    | _ => pieces
    end in
  dropCR <$> pieces.

(** ** The naive step, after the words of the specification

    Sections 4.1 and 4.3 of the specification, on mathematical integers:
    [resolveAxis], the eight Cartesian combinations that exist,
    [stateOf], the count of neighbours that report alive, and the
    next-state decision, evaluated at an arbitrary coordinate rather than
    at the entries of the map only. *)

Module Naive.

Definition resolveAxis (coord min max : Z) (wraparound : bool)
  : option Z * option Z :=
  (if coord =? min then (if wraparound then Some max else None)
   else Some (coord - 1),
   if coord =? max then (if wraparound then Some min else None)
   else Some (coord + 1)).

(** A combination exists when both of its parts do. *)
Definition combine (p : option Z * option Z) : option (Z * Z) :=
  x ← p.1; y ← p.2; Some (x, y).

Definition neighbors (w : World) (c : Z * Z) : list (Z * Z) :=
  let '(lowerX, upperX) :=
    resolveAxis c.1 (worldMinX w) (worldMaxX w) (wraparound w) in
  let '(lowerY, upperY) :=
    resolveAxis c.2 (worldMinY w) (worldMaxY w) (wraparound w) in
  omap combine
    [(lowerX, lowerY); (lowerX, Some c.2); (lowerX, upperY);
     (Some c.1, lowerY); (Some c.1, upperY);
     (upperX, lowerY); (upperX, Some c.2); (upperX, upperY)].

Definition stateOf (organisms : Organisms) (c : Z * Z) : bool :=
  bool_decide (lookup2 organisms c = Some 1).

Definition count (w : World) (organisms : Organisms) (c : Z * Z) : Z :=
  Z.of_nat (length (filter (λ n, stateOf organisms n = true) (neighbors w c))).

Definition aliveNext (w : World) (birth survive : list Z)
    (organisms : Organisms) (c : Z * Z) : bool :=
  if stateOf organisms c
  then bool_decide (count w organisms c ∈ survive)
  else bool_decide (count w organisms c ∈ birth).

End Naive.

(** The world with its axes exchanged: whatever holds of the X axis in
    every world holds of the Y axis. *)
Definition swapAxes (w : World) : World :=
  mkWorld (wraparound w) (worldMinY w) (worldMaxY w) (worldMinX w) (worldMaxX w).

(** The contract of the resolver on one axis, for the result
    [(lower, upper, lowerExists, upperExists)]. *)
Definition resolvesAxis (wrap : bool) (min max coord : Z)
    (r : Z * Z * bool * bool) : Prop :=
  let '(lower, upper, lowerExists, upperExists) := r in
  (coord = min →
     if wrap then lower = max ∧ lowerExists = true else lowerExists = false)
  ∧ (coord = max →
     if wrap then upper = min ∧ upperExists = true else upperExists = false)
  ∧ (coord ≠ min → lower = coord - 1 ∧ lowerExists = true)
  ∧ (coord ≠ max → upper = coord + 1 ∧ upperExists = true).

(** Bounds of [int64] values, for [lia]. *)
Ltac int64_lia :=
  unfold worldInt64, int64, minInt64, maxInt64, maxUint64 in *;
  simpl in *; lia.

(** The value a stubbed cell reads afterwards. *)
Definition stubValue (organisms : Organisms) (c : Z * Z) : option Z :=
  Some (default 0 (lookup2 organisms c)).

(** The cells [addOrganism] touches. *)
Definition inBlock (w : World) (coordX coordY : Z) (c : Z * Z) : Prop :=
  c.1 ∈ coordXsOf w coordX ∧ c.2 ∈ coordYsOf w coordY.

(** [coordX'] is a horizontal neighbour of [coordX] that exists. *)
Definition adjacentX (w : World) (coordX coordX' : Z) : Prop :=
  let '(coordXLeft, coordXRight, coordXLeftExists, coordXRightExists) :=
    getNeighborsX w coordX in
  (coordXLeftExists = true ∧ coordX' = coordXLeft)
  ∨ (coordXRightExists = true ∧ coordX' = coordXRight).

Definition adjacentY (w : World) (coordY coordY' : Z) : Prop :=
  let '(coordYBottom, coordYTop, coordYBottomExists, coordYTopExists) :=
    getNeighborsY w coordY in
  (coordYBottomExists = true ∧ coordY' = coordYBottom)
  ∨ (coordYTopExists = true ∧ coordY' = coordYTop).

(** The sum of [hasLife] over a list of coordinates. *)
Definition countAlive (organisms : Organisms) (ns : list (Z * Z)) : Z :=
  foldr (λ n acc, hasLife organisms n.1 n.2 + acc) 0 ns.

(** Every row of the map holds at least one cell. *)
Definition rowsInhabited (organisms : Organisms) : Prop :=
  ∀ x, is_Some (organisms !! x) → ∃ y, tracked organisms (x, y).

(** Sample inputs: a world of 5 by 5 cells that wraps around, the same
    world with hard edges, a world whose X axis has two cells, and a
    blinker in the middle of the first. *)
Definition sampleWorld : World := mkWorld true (-2) 2 (-2) 2.

Definition sampleBounded : World := mkWorld false (-2) 2 (-2) 2.

Definition sampleTwoCell : World := mkWorld true 0 1 0 5.

Definition blinker : Organisms :=
  insertAll sampleWorld ∅ [(-1, 0); (0, 0); (1, 0)].

(** The cells written for one row. *)
Definition outputRow (organisms : Organisms) (coordX : Z) : list (Z * Z) :=
  coordY ← getSortedCoordYs (default ∅ (organisms !! coordX));
  if default 0 (lookup2 organisms (coordX, coordY)) =? 1
  then [(coordX, coordY)] else [].

(** A byte of a printed integer: a decimal digit or the minus sign. *)
Definition numericByte (c : ascii) : bool :=
  ((48 <=? byte c) && (byte c <=? 57)) || (byte c =? 45).

Fixpoint numeric (s : string) : bool :=
  match s with
  | EmptyString => true
  | String c s' => numericByte c && numeric s'
  end.

(** The first byte of a string is none of the bytes white space starts or
    ends with. *)
Definition startsPlain (s : string) : Prop :=
  match s with
  | EmptyString => True
  | String c _ => 33 ≤ byte c < 128
  end.

Definition startsOutside (r : string) : Prop :=
  match r with
  | EmptyString => False
  | String c _ => byte c < 33 ∨ 128 ≤ byte c
  end.

Definition startsOutsideb (r : string) : bool :=
  match r with
  | EmptyString => false
  | String c _ => (byte c <? 33) || (128 <=? byte c)
  end.

(** The string starts with a decimal digit. *)
Definition startsDigit (s : string) : Prop :=
  match s with
  | EmptyString => False
  | String c _ => is_Some (digitValue c)
  end.

(** Sample flags for [main.go]: an output directory, one tick (or none),
    the sample world; and flags with the bounds of the X axis reversed. *)
Definition sampleFlags : Basic.Flags :=
  Basic.mkFlags false "out" 1 true "-2:2;-2:2".

Definition zeroTicksFlags : Basic.Flags :=
  Basic.mkFlags false "out" 0 true "-2:2;-2:2".

Definition reversedFlags : Basic.Flags :=
  Basic.mkFlags false "" 1 true "5:3;0:10".

(** The configurable program run with [-nowrap] and nothing else. *)
Definition nowrapFlags : Configurable.Flags :=
  Configurable.mkFlags false "" "" "" 0 true "" "" "".

(** The claim of a round trip through the output, for a run of [main.go]:
    the run over the lines of the output succeeds and its file for tick 0
    is that output again. *)
Definition roundTrips (flags : Basic.Flags) (stat : DirStat)
    (organisms : Organisms) : Prop :=
  ∃ written,
    Basic.main flags stat (scanLines (outputOrganisms organisms)) = Ok written
    ∧ tickFiles written !! 0%nat = Some (0, outputOrganisms organisms).

(** A world of 17 by 17 cells that wraps around, and a glider in it. *)
Definition sampleLarge : World := mkWorld true (-8) 8 (-8) 8.

Definition glider : Organisms :=
  insertAll sampleLarge ∅ [(1, 0); (2, 1); (0, 2); (1, 2); (2, 2)].

(** The coordinate one step or less away on each axis, other than the
    coordinate itself. *)
Definition besides (c n : Z * Z) : Prop :=
  n ≠ c ∧ c.1 - 1 ≤ n.1 ≤ c.1 + 1 ∧ c.2 - 1 ≤ n.2 ≤ c.2 + 1.

(** A byte of ASCII white space, and a string of such bytes. *)
Definition blankByte (c : ascii) : bool :=
  ((9 <=? byte c) && (byte c <=? 13)) || (byte c =? 32).

Fixpoint blank (s : string) : bool :=
  match s with
  | EmptyString => true
  | String c s' => blankByte c && blank s'
  end.

(** The string holds no byte [sep]. *)
Fixpoint freeOf (sep : ascii) (s : string) : bool :=
  match s with
  | EmptyString => true
  | String c s' => negb (Ascii.eqb c sep) && freeOf sep s'
  end.

(** A printed integer with white space before and after it. *)
Definition paddedInt (before : string) (z : Z) (after : string) : string :=
  before +:+ pretty z +:+ after.

(** The file name of a tick ([outputOrganismsTick], line 433):
    [fmt.Sprintf("%s/%0Nd.txt", directory, tick)] with [N] the value of
    [ticksDigitsLength]; [tick] is a [uint64], printed without sign and
    filled up with zeros on the left to [N] digits. *)
Fixpoint zeros (n : nat) : string :=
  match n with
  | O => EmptyString
  | S n => String "0" (zeros n)
  end.

Definition padZeros (width : nat) (digits : string) : string :=
  zeros (width - String.length digits) +:+ digits.

Definition tickFileName (directory : string) (ticksDigitsLength tick : Z)
  : string :=
  directory +:+ "/"
  +:+ padZeros (Z.to_nat ticksDigitsLength) (pretty tick) +:+ ".txt".

(** A command line that gives both rule sets, with [-nowrap] set, and the
    application variables it leads to from the defaults. *)
Definition sampleCliFlags : Configurable.Flags :=
  Configurable.mkFlags false "" "" "" 0 true "" "3, 6" "2,3".

Definition sampleCliApp : Configurable.App :=
  Configurable.mkApp "" "" "" 10 true minInt64 maxInt64 minInt64 maxInt64
    [3; 6] [2; 3].

(** A configuration file that sets the world only, with the Y bounds
    reversed, and the application variables it leads to with no flag. *)
Definition sampleFileWorld : Configurable.ConfigurationFile :=
  Configurable.mkConfigurationFile "" "" "" 0 false
    (Configurable.mkDimensions (Configurable.mkMeasurements 0 10)
                               (Configurable.mkMeasurements 7 3))
    [] [].

Definition sampleFileApp : Configurable.App :=
  Configurable.mkApp "" "" "" 10 false 0 10 7 10 [3] [2; 3].

(** A value [strconv.Atoi] can return that the rule-set loop accepts. *)
Definition neighborCount (n : Z) : Prop := 1 ≤ n ≤ maxInt64.

(** * Properties *)

(** ** Arithmetic on [int64] *)

Lemma wrap64_id z : int64 z → wrap64 z = z.
Proof.
  unfold int64, minInt64, maxInt64, wrap64. intros Hz.
  rewrite Z.mod_small; lia.
Qed.

Lemma int64_pred z lo : int64 lo → int64 z → lo ≤ z → z ≠ lo → int64 (z - 1).
Proof. unfold int64, minInt64, maxInt64. lia. Qed.

Lemma int64_succ z hi : int64 hi → int64 z → z ≤ hi → z ≠ hi → int64 (z + 1).
Proof. unfold int64, minInt64, maxInt64. lia. Qed.

(** ** Neighbour resolution *)

Lemma getNeighborsY_swap w coordY :
  getNeighborsY w coordY = getNeighborsX (swapAxes w) coordY.
Proof. reflexivity. Qed.

(** What [getNeighborsX] returns, side by side. *)
Lemma getNeighborsX_eq w coordX :
  getNeighborsX w coordX =
    (if coordX =? worldMinX w then (if wraparound w then worldMaxX w else 0)
     else wrap64 (coordX - 1),
     if coordX =? worldMaxX w then (if wraparound w then worldMinX w else 0)
     else wrap64 (coordX + 1),
     if coordX =? worldMinX w then wraparound w else true,
     if coordX =? worldMaxX w then wraparound w else true).
Proof.
  unfold getNeighborsX.
  destruct (coordX =? worldMinX w), (coordX =? worldMaxX w), (wraparound w);
    reflexivity.
Qed.

Lemma getNeighborsY_eq w coordY :
  getNeighborsY w coordY =
    (if coordY =? worldMinY w then (if wraparound w then worldMaxY w else 0)
     else wrap64 (coordY - 1),
     if coordY =? worldMaxY w then (if wraparound w then worldMinY w else 0)
     else wrap64 (coordY + 1),
     if coordY =? worldMinY w then wraparound w else true,
     if coordY =? worldMaxY w then wraparound w else true).
Proof. rewrite getNeighborsY_swap. apply getNeighborsX_eq. Qed.

Lemma getNeighborsX_resolves w coordX :
  int64 (worldMinX w) → int64 (worldMaxX w) →
  worldMinX w ≤ coordX ≤ worldMaxX w →
  resolvesAxis (wraparound w) (worldMinX w) (worldMaxX w) coordX
    (getNeighborsX w coordX).
Proof.
  intros Hmin Hmax Hc. rewrite getNeighborsX_eq. unfold resolvesAxis.
  assert (int64 coordX) as Hi by (unfold int64 in *; lia).
  split; [|split; [|split]].
  - intros ->. rewrite Z.eqb_refl. by destruct (wraparound w).
  - intros ->. rewrite Z.eqb_refl. by destruct (wraparound w).
  - intros H. pose proof H as H'. apply Z.eqb_neq in H' as ->. split; [|done].
    apply wrap64_id, (int64_pred _ (worldMinX w)); [done..|lia|done].
  - intros H. pose proof H as H'. apply Z.eqb_neq in H' as ->. split; [|done].
    apply wrap64_id, (int64_succ _ (worldMaxX w)); [done..|lia|done].
Qed.

(** ** The organisms map *)

Lemma hasLife_lookup2 organisms coordX coordY :
  hasLife organisms coordX coordY = default 0 (lookup2 organisms (coordX, coordY)).
Proof.
  unfold hasLife, lookup2; simpl.
  destruct (organisms !! coordX) as [coordYs|]; [|done].
  by destruct (coordYs !! coordY).
Qed.

Lemma lookup2_empty c : lookup2 ∅ c = None.
Proof. unfold lookup2. by rewrite lookup_empty. Qed.

Lemma lookup2_store2 x y v (organisms : Organisms) c :
  is_Some (organisms !! x) →
  lookup2 (store2 x y v organisms) c =
    if decide (c = (x, y)) then Some v else lookup2 organisms c.
Proof.
  intros [row Hrow]. destruct c as [cx cy]. unfold lookup2, store2; simpl.
  destruct (decide (x = cx)) as [->|Hx].
  - rewrite lookup_alter_eq, Hrow; simpl.
    destruct (decide (y = cy)) as [->|Hy].
    + rewrite lookup_insert_eq. by rewrite decide_True.
    + rewrite lookup_insert_ne by done. rewrite decide_False; [done|congruence].
  - rewrite lookup_alter_ne by done. rewrite decide_False; [done|congruence].
Qed.

Lemma store2_row x y v (organisms : Organisms) x' :
  is_Some (store2 x y v organisms !! x') ↔ is_Some (organisms !! x').
Proof.
  unfold store2. destruct (decide (x = x')) as [->|Hx].
  - rewrite lookup_alter_eq. by rewrite fmap_is_Some.
  - by rewrite lookup_alter_ne.
Qed.

Lemma tracked_row (organisms : Organisms) c :
  tracked organisms c → is_Some (organisms !! c.1).
Proof.
  unfold tracked, lookup2. destruct (organisms !! c.1); [eauto|].
  by intros [? ?].
Qed.

Lemma stubCell_lookup2 tempCoordX (organisms : Organisms) tempCoordY c :
  is_Some (organisms !! tempCoordX) →
  lookup2 (stubCell tempCoordX organisms tempCoordY) c =
    if decide (c = (tempCoordX, tempCoordY)) then stubValue organisms c
    else lookup2 organisms c.
Proof.
  intros Hrow. unfold stubCell, stubValue.
  destruct (lookup2 organisms (tempCoordX, tempCoordY)) as [v|] eqn:Hv.
  - case_decide as Hc; [|done]. subst c. by rewrite Hv.
  - rewrite lookup2_store2 by done. case_decide as Hc; [|done].
    subst c. by rewrite Hv.
Qed.

Lemma stubCell_row tempCoordX (organisms : Organisms) tempCoordY x :
  is_Some (stubCell tempCoordX organisms tempCoordY !! x)
  ↔ is_Some (organisms !! x).
Proof.
  unfold stubCell. destruct (lookup2 _ _); [done|]. apply store2_row.
Qed.

Lemma stubCells_row tempCoordX coordYs (organisms : Organisms) x :
  is_Some (foldl (stubCell tempCoordX) organisms coordYs !! x)
  ↔ is_Some (organisms !! x).
Proof.
  revert organisms. induction coordYs as [|y ys IH]; intros organisms; simpl.
  - done.
  - rewrite IH. apply stubCell_row.
Qed.

Lemma stubCells_lookup2 tempCoordX coordYs (organisms : Organisms) c :
  is_Some (organisms !! tempCoordX) →
  lookup2 (foldl (stubCell tempCoordX) organisms coordYs) c =
    if decide (c.1 = tempCoordX ∧ c.2 ∈ coordYs) then stubValue organisms c
    else lookup2 organisms c.
Proof.
  revert organisms. induction coordYs as [|y ys IH]; intros organisms Hrow; simpl.
  - rewrite decide_False; [done|]. intros [_ ?%elem_of_nil]. done.
  - rewrite IH by (by apply stubCell_row).
    unfold stubValue. rewrite !stubCell_lookup2 by done.
    destruct c as [cx cy]; simpl.
    repeat case_decide; simplify_eq/=; try done.
    all: exfalso; set_solver.
Qed.

Lemma stubRow_row coordYs (organisms : Organisms) tempCoordX x :
  is_Some (stubRow coordYs organisms tempCoordX !! x)
  ↔ x = tempCoordX ∨ is_Some (organisms !! x).
Proof.
  unfold stubRow. rewrite stubCells_row.
  destruct (organisms !! tempCoordX) as [row|] eqn:Hrow.
  - split; [auto|]. intros [->|?]; [by rewrite Hrow|done].
  - rewrite lookup_insert_is_Some. destruct (decide (tempCoordX = x)); naive_solver.
Qed.

Lemma stubRow_lookup2 coordYs (organisms : Organisms) tempCoordX c :
  lookup2 (stubRow coordYs organisms tempCoordX) c =
    if decide (c.1 = tempCoordX ∧ c.2 ∈ coordYs) then stubValue organisms c
    else lookup2 organisms c.
Proof.
  unfold stubRow.
  destruct (organisms !! tempCoordX) as [row|] eqn:Hrow.
  - apply stubCells_lookup2. by rewrite Hrow.
  - rewrite stubCells_lookup2 by (by rewrite lookup_insert_eq).
    assert (lookup2 (<[tempCoordX:=∅]> organisms) c = lookup2 organisms c) as Hc.
    { unfold lookup2. destruct (decide (tempCoordX = c.1)) as [<-|Hne].
      - by rewrite lookup_insert_eq, Hrow, lookup_empty.
      - by rewrite lookup_insert_ne. }
    unfold stubValue. by rewrite Hc.
Qed.

Lemma stubRows_lookup2 coordYs coordXs (organisms : Organisms) c :
  lookup2 (foldl (stubRow coordYs) organisms coordXs) c =
    if decide (c.1 ∈ coordXs ∧ c.2 ∈ coordYs) then stubValue organisms c
    else lookup2 organisms c.
Proof.
  revert organisms. induction coordXs as [|x xs IH]; intros organisms; simpl.
  - done.
  - rewrite IH. unfold stubValue. rewrite !stubRow_lookup2.
    unfold stubValue. repeat case_decide; simplify_eq/=; try done.
    all: exfalso; set_solver.
Qed.

Lemma stubRows_row coordYs coordXs (organisms : Organisms) x :
  is_Some (foldl (stubRow coordYs) organisms coordXs !! x)
  ↔ x ∈ coordXs ∨ is_Some (organisms !! x).
Proof.
  revert organisms. induction coordXs as [|x' xs IH]; intros organisms; simpl.
  - set_solver.
  - rewrite IH, stubRow_row. set_solver.
Qed.

Lemma coordXsOf_self w coordX : coordX ∈ coordXsOf w coordX.
Proof.
  unfold coordXsOf. rewrite getNeighborsX_eq. unfold appendIf.
  repeat case_match; set_solver.
Qed.

Lemma coordYsOf_self w coordY : coordY ∈ coordYsOf w coordY.
Proof. apply (coordXsOf_self (swapAxes w)). Qed.

Lemma addOrganism_lookup2 w (organisms : Organisms) coordX coordY c :
  lookup2 (addOrganism w organisms coordX coordY) c =
    if decide (c = (coordX, coordY)) then Some 1
    else if decide (inBlock w coordX coordY c) then stubValue organisms c
    else lookup2 organisms c.
Proof.
  unfold addOrganism, inBlock.
  rewrite lookup2_store2
    by (apply stubRows_row; left; apply coordXsOf_self).
  case_decide; [done|]. apply stubRows_lookup2.
Qed.

Lemma elem_of_neighborCoords w c n :
  n ∈ neighborCoords w c ↔
    (adjacentX w c.1 n.1 ∧ (n.2 = c.2 ∨ adjacentY w c.2 n.2))
    ∨ (n.1 = c.1 ∧ adjacentY w c.2 n.2).
Proof.
  unfold neighborCoords, adjacentX, adjacentY.
  destruct (getNeighborsX w c.1) as [[[l r] [|]] [|]],
           (getNeighborsY w c.2) as [[[b t] [|]] [|]];
    destruct n as [nx ny]; simpl; set_unfold; naive_solver.
Qed.

Lemma elem_of_coordXsOf w coordX x :
  x ∈ coordXsOf w coordX ↔ x = coordX ∨ adjacentX w coordX x.
Proof.
  unfold coordXsOf, adjacentX, appendIf.
  destruct (getNeighborsX w coordX) as [[[l r] [|]] [|]];
    set_unfold; naive_solver.
Qed.

Lemma elem_of_coordYsOf w coordY y :
  y ∈ coordYsOf w coordY ↔ y = coordY ∨ adjacentY w coordY y.
Proof. apply (elem_of_coordXsOf (swapAxes w)). Qed.

Lemma neighborCoords_inBlock w c n :
  n ∈ neighborCoords w c → inBlock w c.1 c.2 n.
Proof.
  rewrite elem_of_neighborCoords. unfold inBlock.
  rewrite elem_of_coordXsOf, elem_of_coordYsOf. naive_solver.
Qed.

(** Adjacency is symmetric inside the world. *)
Lemma adjacentX_sym w coordX coordX' :
  int64 (worldMinX w) → int64 (worldMaxX w) →
  worldMinX w ≤ coordX ≤ worldMaxX w →
  adjacentX w coordX coordX' →
  adjacentX w coordX' coordX ∧ worldMinX w ≤ coordX' ≤ worldMaxX w.
Proof.
  intros Hmin Hmax Hc. unfold adjacentX. rewrite !getNeighborsX_eq.
  assert (int64 coordX) as Hi by (unfold int64 in *; lia).
  destruct (wraparound w);
    destruct (Z.eqb_spec coordX (worldMinX w)) as [Hlo|Hlo],
             (Z.eqb_spec coordX (worldMaxX w)) as [Hhi|Hhi].
  all: rewrite ?(wrap64_id (coordX - 1))
         by (apply (int64_pred _ (worldMinX w)); [done..|lia|done]).
  all: rewrite ?(wrap64_id (coordX + 1))
         by (apply (int64_succ _ (worldMaxX w)); [done..|lia|done]).
  all: intros [[Hw ->]|[Hw ->]]; try done.
  all: repeat match goal with
       | |- context [Z.eqb ?a ?b] => destruct (Z.eqb_spec a b)
       end.
  all: rewrite ?wrap64_id by int64_lia.
  all: try lia.
  all: split; [|lia].
  all: first [left; split; [done|lia] | right; split; [done|lia]].
Qed.

Lemma adjacentY_sym w coordY coordY' :
  int64 (worldMinY w) → int64 (worldMaxY w) →
  worldMinY w ≤ coordY ≤ worldMaxY w →
  adjacentY w coordY coordY' →
  adjacentY w coordY' coordY ∧ worldMinY w ≤ coordY' ≤ worldMaxY w.
Proof. apply (adjacentX_sym (swapAxes w)). Qed.

Lemma neighborCoords_sym w c n :
  worldInt64 w → inWorld w c →
  n ∈ neighborCoords w c → c ∈ neighborCoords w n ∧ inWorld w n.
Proof.
  intros (Hx1 & Hx2 & Hy1 & Hy2) [Hcx Hcy]. rewrite !elem_of_neighborCoords.
  unfold inWorld.
  intros [[Hx [Hy|Hy]]|[Hx Hy]].
  - apply adjacentX_sym in Hx as [? ?]; [|done..]. rewrite Hy. naive_solver.
  - apply adjacentX_sym in Hx as [? ?]; [|done..].
    apply adjacentY_sym in Hy as [? ?]; [|done..]. naive_solver.
  - apply adjacentY_sym in Hy as [? ?]; [|done..]. rewrite Hx. naive_solver.
Qed.

Lemma elem_of_entries (organisms : Organisms) coordX coordY alive :
  (coordX, coordY, alive) ∈ entries organisms
  ↔ lookup2 organisms (coordX, coordY) = Some alive.
Proof.
  unfold entries, lookup2; simpl. rewrite list_elem_of_bind. split.
  - intros ([x ys] & Hin & Hrow). apply elem_of_map_to_list in Hrow.
    apply list_elem_of_bind in Hin as ([y v] & Hin & Hcell).
    apply elem_of_map_to_list in Hcell. apply list_elem_of_singleton in Hin.
    simplify_eq. by rewrite Hrow.
  - destruct (organisms !! coordX) as [ys|] eqn:Hrow; [|done]. intros Hcell.
    exists (coordX, ys). split; [|by apply elem_of_map_to_list].
    apply list_elem_of_bind. exists (coordY, alive).
    split; [by apply list_elem_of_singleton|by apply elem_of_map_to_list].
Qed.

(** *** One insertion *)

Lemma addOrganism_alive w (organisms : Organisms) coordX coordY c :
  aliveAt (addOrganism w organisms coordX coordY) c
  ↔ c = (coordX, coordY) ∨ aliveAt organisms c.
Proof.
  unfold aliveAt. rewrite addOrganism_lookup2. unfold stubValue.
  repeat case_decide; [naive_solver| |naive_solver].
  destruct (lookup2 organisms c); naive_solver.
Qed.

Lemma inBlock_self w coordX coordY : inBlock w coordX coordY (coordX, coordY).
Proof. split; [apply coordXsOf_self|apply coordYsOf_self]. Qed.

Lemma addOrganism_tracked w (organisms : Organisms) coordX coordY c :
  tracked (addOrganism w organisms coordX coordY) c
  ↔ inBlock w coordX coordY c ∨ tracked organisms c.
Proof.
  unfold tracked. rewrite addOrganism_lookup2. unfold stubValue.
  repeat case_decide; subst; split; eauto using inBlock_self; naive_solver.
Qed.

Lemma addOrganism_valuesOk w (organisms : Organisms) coordX coordY :
  valuesOk organisms → valuesOk (addOrganism w organisms coordX coordY).
Proof.
  intros Hok c v. rewrite addOrganism_lookup2. unfold stubValue.
  repeat case_decide; [naive_solver| |apply Hok].
  destruct (lookup2 organisms c) as [v'|] eqn:Hv; simpl; [|naive_solver].
  intros [= <-]. by apply (Hok c).
Qed.

(** An entry that is there stays, a stub never replaces it. *)
Lemma addOrganism_keeps w (organisms : Organisms) coordX coordY c v :
  lookup2 organisms c = Some v → c ≠ (coordX, coordY) →
  lookup2 (addOrganism w organisms coordX coordY) c = Some v.
Proof.
  intros Hv Hc. rewrite addOrganism_lookup2. unfold stubValue.
  rewrite decide_False by done. case_decide; by rewrite Hv.
Qed.

(** A neighbour without an entry is stubbed as tracked-dead. *)
Lemma addOrganism_stubs w (organisms : Organisms) coordX coordY n :
  n ∈ neighborCoords w (coordX, coordY) → n ≠ (coordX, coordY) →
  lookup2 organisms n = None →
  lookup2 (addOrganism w organisms coordX coordY) n = Some 0.
Proof.
  intros Hn Hne Hnone. rewrite addOrganism_lookup2. unfold stubValue.
  rewrite decide_False by done.
  rewrite decide_True by (by apply (neighborCoords_inBlock w (coordX, coordY))).
  by rewrite Hnone.
Qed.

(** *** Many insertions *)

Lemma insertAll_cons w organisms c cs :
  insertAll w organisms (c :: cs) = insertAll w (addOrganism w organisms c.1 c.2) cs.
Proof. reflexivity. Qed.

Lemma insertAll_alive w (organisms : Organisms) cs c :
  aliveAt (insertAll w organisms cs) c ↔ aliveAt organisms c ∨ c ∈ cs.
Proof.
  revert organisms. induction cs as [|[x y] cs IH]; intros organisms.
  - set_solver.
  - rewrite insertAll_cons, IH, addOrganism_alive. set_solver.
Qed.

Lemma insertAll_tracked w (organisms : Organisms) cs c :
  tracked (insertAll w organisms cs) c
  ↔ tracked organisms c ∨ ∃ a, a ∈ cs ∧ inBlock w a.1 a.2 c.
Proof.
  revert organisms. induction cs as [|[x y] cs IH]; intros organisms.
  - set_solver.
  - rewrite insertAll_cons, IH, addOrganism_tracked. set_solver.
Qed.

Lemma insertAll_valuesOk w (organisms : Organisms) cs :
  valuesOk organisms → valuesOk (insertAll w organisms cs).
Proof.
  revert organisms. induction cs as [|[x y] cs IH]; intros organisms Hok.
  - done.
  - rewrite insertAll_cons. by apply IH, addOrganism_valuesOk.
Qed.

Lemma insertAll_halo w (organisms : Organisms) cs :
  haloInvariant w organisms → haloInvariant w (insertAll w organisms cs).
Proof.
  intros Hhalo c n Hc Hn. apply insertAll_tracked.
  apply insertAll_alive in Hc as [Hc|Hc].
  - left. by apply (Hhalo c).
  - right. exists c. split; [done|]. by apply neighborCoords_inBlock.
Qed.

Lemma inBlock_inWorld w coordX coordY c :
  worldInt64 w → inWorld w (coordX, coordY) →
  inBlock w coordX coordY c → inWorld w c.
Proof.
  intros (Hx1 & Hx2 & Hy1 & Hy2) [Hx Hy]. unfold inBlock, inWorld in *.
  rewrite elem_of_coordXsOf, elem_of_coordYsOf. simpl in *.
  intros [[->|Hcx] [->|Hcy]].
  - done.
  - apply adjacentY_sym in Hcy as [_ ?]; done.
  - apply adjacentX_sym in Hcx as [_ ?]; done.
  - apply adjacentX_sym in Hcx as [_ ?]; [|done..].
    apply adjacentY_sym in Hcy as [_ ?]; done.
Qed.

Lemma insertAll_inWorld w (organisms : Organisms) cs :
  worldInt64 w → Forall (inWorld w) cs →
  entriesInWorld w organisms → entriesInWorld w (insertAll w organisms cs).
Proof.
  intros Hw Hcs Hin c. rewrite insertAll_tracked. intros [Hc|(a & Ha & Hc)].
  - by apply Hin.
  - apply (inBlock_inWorld w a.1 a.2); [done| |done].
    rewrite Forall_forall in Hcs. destruct a. by apply Hcs.
Qed.

Lemma haloInvariant_empty w : haloInvariant w ∅.
Proof. intros c n Hc. unfold aliveAt in Hc. by rewrite lookup2_empty in Hc. Qed.

Lemma valuesOk_empty : valuesOk ∅.
Proof. intros c v. by rewrite lookup2_empty. Qed.

Lemma entriesInWorld_empty w : entriesInWorld w ∅.
Proof. intros c [v Hc]. by rewrite lookup2_empty in Hc. Qed.

(** *** A tick is the insertion of the selected cells *)

Lemma tickOver_insertAll w rule visit organisms :
  tickOver w rule visit organisms
  = insertAll w ∅ (selected w rule organisms visit).
Proof.
  unfold tickOver, selected, insertAll. generalize (∅ : Organisms).
  induction visit as [|[[x y] v] visit IH]; intros next; simpl; [done|].
  rewrite IH. rewrite filter_cons. simpl.
  destruct (rule v (neighborsAlive w organisms x y)) eqn:Hr.
  - by rewrite decide_True by done.
  - by rewrite decide_False by congruence.
Qed.

Lemma elem_of_selected w rule organisms visit c :
  c ∈ selected w rule organisms visit
  ↔ ∃ alive, (c, alive) ∈ visit
             ∧ rule alive (neighborsAlive w organisms c.1 c.2) = true.
Proof.
  unfold selected. rewrite list_elem_of_fmap. split.
  - intros ([c' v] & -> & [Hr Hin]%list_elem_of_filter). eauto.
  - intros (v & Hin & Hr). exists (c, v). split; [done|].
    by apply list_elem_of_filter.
Qed.

Lemma hasLife_alive (organisms : Organisms) c :
  hasLife organisms c.1 c.2 = 1 ↔ aliveAt organisms c.
Proof.
  rewrite hasLife_lookup2. unfold aliveAt. destruct c as [x y]; simpl.
  destruct (lookup2 organisms (x, y)); naive_solver.
Qed.

(** A tick over the entries, in any order, makes alive exactly the
    entries the rule selects. *)
Lemma tickOver_alive w rule visit (organisms : Organisms) c :
  visit ≡ₚ entries organisms →
  aliveAt (tickOver w rule visit organisms) c
  ↔ ∃ alive, lookup2 organisms c = Some alive
             ∧ rule alive (neighborsAlive w organisms c.1 c.2) = true.
Proof.
  intros Hvisit. rewrite tickOver_insertAll, insertAll_alive, elem_of_selected.
  unfold aliveAt at 1. rewrite lookup2_empty.
  split.
  - intros [?|(v & Hin & Hr)]; [done|]. exists v. split; [|done].
    rewrite Hvisit in Hin. destruct c. by apply elem_of_entries.
  - intros (v & Hin & Hr). right. exists v. split; [|done].
    rewrite Hvisit. destruct c. by apply elem_of_entries.
Qed.

Lemma neighborsAlive_sum w organisms coordX coordY :
  neighborsAlive w organisms coordX coordY
  = countAlive organisms (neighborCoords w (coordX, coordY)).
Proof.
  unfold neighborsAlive, neighborCoords, countAlive; simpl.
  destruct (getNeighborsX w coordX) as [[[l r] [|]] [|]],
           (getNeighborsY w coordY) as [[[b t] [|]] [|]]; simpl; lia.
Qed.

Lemma countAlive_zero organisms ns :
  (∀ n, n ∈ ns → hasLife organisms n.1 n.2 = 0) → countAlive organisms ns = 0.
Proof.
  induction ns as [|n ns IH]; intros Hns; simpl; [done|].
  rewrite Hns, IH by set_solver. done.
Qed.

Lemma hasLife_values (organisms : Organisms) c :
  valuesOk organisms →
  hasLife organisms c.1 c.2 = 0 ∨ hasLife organisms c.1 c.2 = 1.
Proof.
  intros Hok. rewrite hasLife_lookup2. destruct c as [x y]; simpl.
  destruct (lookup2 organisms (x, y)) as [v|] eqn:Hv; [|by left].
  by apply (Hok (x, y)).
Qed.

Lemma countAlive_range organisms ns :
  valuesOk organisms →
  0 ≤ countAlive organisms ns ≤ Z.of_nat (length ns).
Proof.
  intros Hok. induction ns as [|n ns IH]; simpl; [lia|].
  destruct (hasLife_values organisms n Hok); lia.
Qed.

Lemma neighborCoords_length w c : (length (neighborCoords w c) ≤ 8)%nat.
Proof.
  unfold neighborCoords.
  destruct (getNeighborsX w c.1) as [[[l r] [|]] [|]],
           (getNeighborsY w c.2) as [[[b t] [|]] [|]]; simpl; lia.
Qed.

(** The count stays far from the bounds of a Go [int]. *)
Lemma neighborsAlive_range w organisms coordX coordY :
  valuesOk organisms → 0 ≤ neighborsAlive w organisms coordX coordY ≤ 8.
Proof.
  intros Hok. rewrite neighborsAlive_sum.
  pose proof (countAlive_range organisms (neighborCoords w (coordX, coordY)) Hok).
  pose proof (neighborCoords_length w (coordX, coordY)). lia.
Qed.

(** A coordinate of the world without an entry has no live neighbour. *)
Lemma untracked_neighborsAlive w (organisms : Organisms) c :
  worldInt64 w → valuesOk organisms → haloInvariant w organisms →
  inWorld w c → lookup2 organisms c = None →
  neighborsAlive w organisms c.1 c.2 = 0.
Proof.
  intros Hw Hok Hhalo Hc Hnone. rewrite neighborsAlive_sum.
  destruct c as [x y]; simpl.
  apply countAlive_zero. intros n Hn.
  destruct (hasLife_values organisms n Hok) as [?|Hlive]; [done|].
  apply hasLife_alive in Hlive.
  apply neighborCoords_sym in Hn as [Hsym _]; [|done..].
  destruct (Hhalo n (x, y) Hlive Hsym) as [v Hv]. congruence.
Qed.

(** *** The rules *)

Lemma Configurable_rule_true birth survive alive neighborsAlive :
  Configurable.rule birth survive alive neighborsAlive = true
  ↔ (alive = 1 ∧ neighborsAlive ∈ survive)
    ∨ (alive ≠ 1 ∧ neighborsAlive ∈ birth).
Proof.
  unfold Configurable.rule. rewrite existsb_exists.
  setoid_rewrite <- list_elem_of_In. setoid_rewrite Z.eqb_eq.
  destruct (Z.eqb_spec alive 1); naive_solver.
Qed.

Lemma Basic_rule_default alive neighborsAlive :
  Basic.rule alive neighborsAlive
  = Configurable.rule (Configurable.appNewLifeSpawn Configurable.init)
      (Configurable.appExistingLifeRemain Configurable.init)
      alive neighborsAlive.
Proof.
  unfold Basic.rule, Configurable.rule; simpl.
  destruct (Z.eqb_spec alive 1), (Z.eqb_spec neighborsAlive 2),
    (Z.eqb_spec neighborsAlive 3), (Z.geb_spec neighborsAlive 2),
    (Z.leb_spec neighborsAlive 3); simpl; lia.
Qed.

Lemma tickOver_ext w rule1 rule2 visit organisms :
  (∀ alive neighborsAlive, rule1 alive neighborsAlive = rule2 alive neighborsAlive) →
  tickOver w rule1 visit organisms = tickOver w rule2 visit organisms.
Proof.
  intros Hrule. unfold tickOver. generalize (∅ : Organisms).
  induction visit as [|[[x y] v] visit IH]; intros next; simpl; [done|].
  by rewrite Hrule, IH.
Qed.

(** *** The naive step against the engine *)

Lemma hasLife_stateOf (organisms : Organisms) coordX coordY :
  valuesOk organisms →
  hasLife organisms coordX coordY
  = if Naive.stateOf organisms (coordX, coordY) then 1 else 0.
Proof.
  intros Hok. unfold Naive.stateOf. case_bool_decide as Hc.
  - by apply (hasLife_alive organisms (coordX, coordY)).
  - destruct (hasLife_values organisms (coordX, coordY) Hok) as [?|Hlive];
      [done|].
    by apply (hasLife_alive organisms (coordX, coordY)) in Hlive.
Qed.

Lemma length_filter_stateOf (organisms : Organisms) ns :
  Z.of_nat (length (filter (λ n, Naive.stateOf organisms n = true) ns))
  = foldr (λ n acc, (if Naive.stateOf organisms n then 1 else 0) + acc) 0 ns.
Proof.
  induction ns as [|n ns IH]; [done|]. rewrite filter_cons. simpl.
  case_decide as Hn.
  - rewrite Hn. simpl. lia.
  - apply not_true_is_false in Hn. rewrite Hn. lia.
Qed.

Lemma Naive_count_neighborsAlive w (organisms : Organisms) c :
  worldInt64 w → valuesOk organisms → inWorld w c →
  Naive.count w organisms c = neighborsAlive w organisms c.1 c.2.
Proof.
  intros (Hx1 & Hx2 & Hy1 & Hy2) Hok [Hx Hy].
  unfold Naive.count. rewrite length_filter_stateOf.
  unfold neighborsAlive, Naive.neighbors, Naive.resolveAxis.
  rewrite getNeighborsX_eq, getNeighborsY_eq.
  assert (int64 c.1 ∧ int64 c.2) as [Hi1 Hi2] by (unfold int64 in *; lia).
  destruct (Z.eqb_spec c.1 (worldMinX w)), (Z.eqb_spec c.1 (worldMaxX w)),
    (Z.eqb_spec c.2 (worldMinY w)), (Z.eqb_spec c.2 (worldMaxY w)).
  all: rewrite ?(wrap64_id (c.1 - 1))
         by (apply (int64_pred _ (worldMinX w)); [done..|lia|done]).
  all: rewrite ?(wrap64_id (c.1 + 1))
         by (apply (int64_succ _ (worldMaxX w)); [done..|lia|done]).
  all: rewrite ?(wrap64_id (c.2 - 1))
         by (apply (int64_pred _ (worldMinY w)); [done..|lia|done]).
  all: rewrite ?(wrap64_id (c.2 + 1))
         by (apply (int64_succ _ (worldMaxY w)); [done..|lia|done]).
  all: destruct (wraparound w); simpl.
  all: rewrite ?hasLife_stateOf by done.
  all: lia.
Qed.

(** ** The invariants of the organisms map *)

Lemma inWorldb_true w c : inWorldb w c = true ↔ inWorld w c.
Proof.
  unfold inWorldb, inWorld. rewrite !andb_true_iff, !Z.leb_le. tauto.
Qed.

(** The test on the entries decides the three invariants. *)
Lemma wellFormedb_true w (organisms : Organisms) :
  wellFormedb w organisms = true →
  valuesOk organisms ∧ haloInvariant w organisms ∧ entriesInWorld w organisms.
Proof.
  unfold wellFormedb. rewrite forallb_forall. intros Hall.
  assert (∀ c v, lookup2 organisms c = Some v →
    (v = 0 ∨ v = 1) ∧ inWorld w c
    ∧ (v = 0 ∨ ∀ n, n ∈ neighborCoords w c → tracked organisms n)) as Hent.
  { intros [x y] v Hv. apply elem_of_entries, list_elem_of_In, Hall in Hv.
    rewrite !andb_true_iff, !orb_true_iff, !Z.eqb_eq, inWorldb_true in Hv.
    destruct Hv as [[Hv Hin] Hhalo]. split; [done|]. split; [done|].
    destruct Hhalo as [?|Hhalo]; [by left|right].
    rewrite forallb_forall in Hhalo. intros n Hn.
    apply list_elem_of_In, Hhalo in Hn. by apply bool_decide_eq_true in Hn. }
  split; [|split].
  - intros c v Hv. by apply Hent in Hv as [? _].
  - intros c n Hc Hn. apply Hent in Hc as (_ & _ & [?|Hc]); [done|]. by apply Hc.
  - intros c [v Hv]. by apply Hent in Hv as (_ & ? & _).
Qed.

Lemma seedRecord_inWorld w line c : seedRecord w line = Ok c → inWorld w c.
Proof.
  unfold seedRecord, inWorld.
  destruct (index line 0) as [b0| | |]; simpl; [|done..].
  destruct (negb (byte b0 =? 40)); [done|].
  destruct (index line (len line - 1)) as [b1| | |]; simpl; [|done..].
  destruct (negb (byte b1 =? 41)); [done|].
  destruct (slice line 1 (len line - 1)) as [inner| | |]; simpl; [|done..].
  destruct (indexList _ 0) as [c0| | |]; simpl; [|done..].
  destruct (ParseInt (TrimSpace c0)) as [?|coordX]; [done|].
  destruct (indexList _ 1) as [c1| | |]; simpl; [|done..].
  destruct (ParseInt (TrimSpace c1)) as [?|coordY]; [done|].
  destruct (Z.ltb_spec coordX (worldMinX w)); [done|].
  destruct (Z.gtb_spec coordX (worldMaxX w)); [done|].
  destruct (Z.ltb_spec coordY (worldMinY w)); [done|].
  destruct (Z.gtb_spec coordY (worldMaxY w)); [done|].
  intros [= <-]. simpl. lia.
Qed.

(** A successful seeding is the insertion of the parsed coordinates, all
    of them inside the world. *)
Lemma seedLines_insertAll w organisms lines organisms' :
  seedLines w organisms lines = Ok organisms' →
  ∃ cs, Forall (inWorld w) cs ∧ organisms' = insertAll w organisms cs
        ∧ Forall2 (λ line c, seedRecord w line = Ok c) lines cs.
Proof.
  revert organisms. induction lines as [|line lines IH]; intros organisms; simpl.
  - intros [= <-]. by exists [].
  - destruct (seedRecord w line) as [c| | |] eqn:Hrec; simpl; [|done..].
    intros (cs & Hcs & -> & Hall)%IH. exists (c :: cs). split; [|split].
    + constructor; [|done]. by apply (seedRecord_inWorld w line).
    + done.
    + by constructor.
Qed.

Lemma seedLife_wellFormed w lines organisms :
  worldInt64 w → seedLife w lines = Ok organisms →
  valuesOk organisms ∧ haloInvariant w organisms ∧ entriesInWorld w organisms.
Proof.
  intros Hw (cs & Hcs & -> & _)%seedLines_insertAll. split; [|split].
  - apply insertAll_valuesOk, valuesOk_empty.
  - apply insertAll_halo, haloInvariant_empty.
  - apply insertAll_inWorld; [done..|apply entriesInWorld_empty].
Qed.

Lemma tickOver_wellFormed w rule visit (organisms : Organisms) :
  worldInt64 w → entriesInWorld w organisms → visit ≡ₚ entries organisms →
  valuesOk (tickOver w rule visit organisms)
  ∧ haloInvariant w (tickOver w rule visit organisms)
  ∧ entriesInWorld w (tickOver w rule visit organisms).
Proof.
  intros Hw Hin Hvisit. rewrite tickOver_insertAll. split; [|split].
  - apply insertAll_valuesOk, valuesOk_empty.
  - apply insertAll_halo, haloInvariant_empty.
  - apply insertAll_inWorld; [done| |apply entriesInWorld_empty].
    apply Forall_forall. intros c (v & Hc & _)%elem_of_selected.
    apply Hin. exists v. rewrite Hvisit in Hc. destruct c.
    by apply elem_of_entries.
Qed.

(** ** The order of a [range] does not matter *)

Lemma addOrganism_row w (organisms : Organisms) coordX coordY x :
  is_Some (addOrganism w organisms coordX coordY !! x)
  ↔ x ∈ coordXsOf w coordX ∨ is_Some (organisms !! x).
Proof. unfold addOrganism. by rewrite store2_row, stubRows_row. Qed.

Lemma addOrganism_rowsInhabited w (organisms : Organisms) coordX coordY :
  rowsInhabited organisms →
  rowsInhabited (addOrganism w organisms coordX coordY).
Proof.
  intros Hrows x [Hx|Hx]%addOrganism_row.
  - exists coordY. apply addOrganism_tracked. left.
    split; [done|apply coordYsOf_self].
  - destruct (Hrows x Hx) as [y Hy]. exists y.
    apply addOrganism_tracked. by right.
Qed.

Lemma insertAll_rowsInhabited w (organisms : Organisms) cs :
  rowsInhabited organisms → rowsInhabited (insertAll w organisms cs).
Proof.
  revert organisms. induction cs as [|[x y] cs IH]; intros organisms Hrows.
  - done.
  - rewrite insertAll_cons. by apply IH, addOrganism_rowsInhabited.
Qed.

Lemma rowsInhabited_empty : rowsInhabited ∅.
Proof. intros x [row Hrow]. by rewrite lookup_empty in Hrow. Qed.

(** Two maps without empty rows that read the same at every coordinate
    are the same map. *)
Lemma organisms_ext (organisms1 organisms2 : Organisms) :
  rowsInhabited organisms1 → rowsInhabited organisms2 →
  (∀ c, lookup2 organisms1 c = lookup2 organisms2 c) →
  organisms1 = organisms2.
Proof.
  intros Hrows1 Hrows2 Hsame. apply map_eq. intros x.
  destruct (organisms1 !! x) as [row1|] eqn:H1,
           (organisms2 !! x) as [row2|] eqn:H2; [| | |done].
  - f_equal. apply map_eq. intros y. specialize (Hsame (x, y)).
    unfold lookup2 in Hsame; simpl in Hsame. by rewrite H1, H2 in Hsame.
  - exfalso. destruct (Hrows1 x) as [y [v Hy]]; [by rewrite H1|].
    rewrite Hsame in Hy. unfold lookup2 in Hy; simpl in Hy.
    by rewrite H2 in Hy.
  - exfalso. destruct (Hrows2 x) as [y [v Hy]]; [by rewrite H2|].
    rewrite <- Hsame in Hy. unfold lookup2 in Hy; simpl in Hy.
    by rewrite H1 in Hy.
Qed.

(** Alive, tracked-dead or absent: nothing else can be read. *)
Lemma lookup2_determined (organisms1 organisms2 : Organisms) c :
  valuesOk organisms1 → valuesOk organisms2 →
  (aliveAt organisms1 c ↔ aliveAt organisms2 c) →
  (tracked organisms1 c ↔ tracked organisms2 c) →
  lookup2 organisms1 c = lookup2 organisms2 c.
Proof.
  unfold aliveAt, tracked. intros Hok1 Hok2 Halive Htracked.
  destruct (lookup2 organisms1 c) as [v1|] eqn:Hv1,
           (lookup2 organisms2 c) as [v2|] eqn:Hv2.
  - destruct (Hok1 c v1 Hv1) as [->| ->], (Hok2 c v2 Hv2) as [->| ->];
      naive_solver.
  - destruct Htracked as [Htracked _]. by destruct Htracked.
  - destruct Htracked as [_ Htracked]. by destruct Htracked.
  - done.
Qed.

Lemma insertAll_perm w cs1 cs2 :
  cs1 ≡ₚ cs2 → insertAll w ∅ cs1 = insertAll w ∅ cs2.
Proof.
  intros Hperm.
  apply organisms_ext;
    [apply insertAll_rowsInhabited, rowsInhabited_empty..|].
  intros c.
  apply lookup2_determined;
    [apply insertAll_valuesOk, valuesOk_empty..| |].
  - rewrite !insertAll_alive. by rewrite Hperm.
  - rewrite !insertAll_tracked. by setoid_rewrite Hperm.
Qed.

(** Whatever order the nested [range] loops take, the tick builds the
    same map. *)
Lemma tickOver_order w rule visit (organisms : Organisms) :
  visit ≡ₚ entries organisms →
  tickOver w rule visit organisms = tick w rule organisms.
Proof.
  intros Hvisit. unfold tick. rewrite !tickOver_insertAll.
  apply insertAll_perm. unfold selected. by rewrite Hvisit.
Qed.

(** ** The generation transition *)

(** C1. A coordinate of the candidate set is alive in the next generation
    exactly when it is alive now and its live-neighbour count is in the
    survive set, or it is not alive now and the count is in the birth
    set; this holds for every order in which the tick visits the entries.
    The configurable program starts from birth = {3} and survive = {2, 3},
    and the rule written out in [main.go] is that default rule. *)
Theorem next_state_rule w visit (organisms : Organisms) c alive :
  visit ≡ₚ entries organisms →
  lookup2 organisms c = Some alive →
  (∀ birth survive,
     hasLife (tickOver w (Configurable.rule birth survive) visit organisms)
       c.1 c.2 = 1
     ↔ (alive = 1 ∧ neighborsAlive w organisms c.1 c.2 ∈ survive)
       ∨ (alive ≠ 1 ∧ neighborsAlive w organisms c.1 c.2 ∈ birth))
  ∧ Configurable.appNewLifeSpawn Configurable.init = [3]
  ∧ Configurable.appExistingLifeRemain Configurable.init = [2; 3]
  ∧ (hasLife (tickOver w Basic.rule visit organisms) c.1 c.2 = 1
     ↔ (alive = 1 ∧ neighborsAlive w organisms c.1 c.2 ∈ [2; 3])
       ∨ (alive ≠ 1 ∧ neighborsAlive w organisms c.1 c.2 ∈ [3])).
Proof.
  intros Hvisit Hc.
  assert (∀ birth survive,
     hasLife (tickOver w (Configurable.rule birth survive) visit organisms)
       c.1 c.2 = 1
     ↔ (alive = 1 ∧ neighborsAlive w organisms c.1 c.2 ∈ survive)
       ∨ (alive ≠ 1 ∧ neighborsAlive w organisms c.1 c.2 ∈ birth)) as Hrule.
  { intros birth survive.
    rewrite hasLife_alive, tickOver_alive by done.
    rewrite <- Configurable_rule_true. split.
    - intros (v & Hv & Hr). congruence.
    - intros Hr. by exists alive. }
  split; [done|]. split; [done|]. split; [done|].
  rewrite (tickOver_ext w Basic.rule _ _ _ Basic_rule_default).
  apply Hrule.
Qed.

Lemma next_state_rule_witness :
  hasLife (tickOver sampleWorld Basic.rule (entries blinker) blinker) 0 0 = 1
  ↔ (1 = 1 ∧ neighborsAlive sampleWorld blinker 0 0 ∈ [2; 3])
    ∨ (1 ≠ 1 ∧ neighborsAlive sampleWorld blinker 0 0 ∈ [3]).
Proof.
  apply (next_state_rule sampleWorld (entries blinker) blinker (0, 0) 1).
  - reflexivity.
  - vm_compute. reflexivity.
Defined.

(** ** Neighbour resolution *)

Lemma neighborCoords_hard_edge w coordY n :
  wraparound w = false → int64 (worldMinX w) → int64 (worldMaxX w) →
  worldMinX w ≤ worldMaxX w →
  n ∈ neighborCoords w (worldMinX w, coordY) → worldMinX w ≤ n.1.
Proof.
  intros Hwrap Hmin Hmax Hle. rewrite elem_of_neighborCoords. simpl.
  unfold adjacentX. rewrite getNeighborsX_eq, Hwrap, Z.eqb_refl.
  destruct (Z.eqb_spec (worldMinX w) (worldMaxX w)) as [He|Hne].
  - intros [[[[? _]|[? _]] _]|[Hn _]]; [done..|lia].
  - rewrite wrap64_id by int64_lia.
    intros [[[[? _]|[_ Hn]] _]|[Hn _]]; [done|lia..].
Qed.

Lemma neighborCoords_corner w :
  wraparound w = false →
  (length (neighborCoords w (worldMinX w, worldMinY w)) ≤ 3)%nat.
Proof.
  intros Hwrap. unfold neighborCoords; simpl.
  rewrite getNeighborsX_eq, getNeighborsY_eq, Hwrap, !Z.eqb_refl.
  destruct (worldMinX w =? worldMaxX w), (worldMinY w =? worldMaxY w);
    simpl; lia.
Qed.

(** C2. On each axis, for a coordinate within the bounds: at the minimum
    the lower neighbour is the maximum and exists under wraparound, and
    does not exist otherwise; at the maximum the same holds of the upper
    neighbour and the minimum; away from the minimum the lower neighbour
    is [coord - 1], away from the maximum the upper one is [coord + 1],
    and they exist.  Hence, without wraparound, the coordinates counted
    for a cell at [(minX, y)] all have x at least [minX], and the corner
    [(minX, minY)] has at most 3 of them. *)
Theorem neighbor_resolution w :
  worldInt64 w →
  (∀ coordX, worldMinX w ≤ coordX ≤ worldMaxX w →
     resolvesAxis (wraparound w) (worldMinX w) (worldMaxX w) coordX
       (getNeighborsX w coordX))
  ∧ (∀ coordY, worldMinY w ≤ coordY ≤ worldMaxY w →
     resolvesAxis (wraparound w) (worldMinY w) (worldMaxY w) coordY
       (getNeighborsY w coordY))
  ∧ (wraparound w = false →
     (∀ coordY n, worldMinX w ≤ worldMaxX w →
        n ∈ neighborCoords w (worldMinX w, coordY) → worldMinX w ≤ n.1)
     ∧ (length (neighborCoords w (worldMinX w, worldMinY w)) ≤ 3)%nat).
Proof.
  intros (Hx1 & Hx2 & Hy1 & Hy2). split; [|split].
  - intros coordX Hc. by apply getNeighborsX_resolves.
  - intros coordY Hc. rewrite getNeighborsY_swap.
    by apply (getNeighborsX_resolves (swapAxes w)).
  - intros Hwrap. split.
    + intros coordY n Hle Hn. by apply (neighborCoords_hard_edge w coordY).
    + by apply neighborCoords_corner.
Qed.

Lemma neighbor_resolution_witness :
  getNeighborsX sampleBounded (-2) = (0, -1, false, true)
  ∧ (length (neighborCoords sampleBounded (-2, -2)%Z) ≤ 3)%nat.
Proof.
  split; [reflexivity|].
  apply (neighbor_resolution sampleBounded).
  - unfold worldInt64, int64, minInt64, maxInt64; simpl. lia.
  - reflexivity.
Defined.

(** ** The candidate set is enough *)

Lemma Naive_aliveNext_true w birth survive (organisms : Organisms) c :
  Naive.aliveNext w birth survive organisms c = true
  ↔ (aliveAt organisms c ∧ Naive.count w organisms c ∈ survive)
    ∨ (¬ aliveAt organisms c ∧ Naive.count w organisms c ∈ birth).
Proof.
  unfold Naive.aliveNext, Naive.stateOf, aliveAt.
  case_bool_decide; rewrite bool_decide_eq_true; naive_solver.
Qed.

Lemma naive_rule_refined w birth survive visit (organisms : Organisms) c :
  worldInt64 w → valuesOk organisms → haloInvariant w organisms →
  entriesInWorld w organisms → Forall (λ b, 0 < b) birth →
  visit ≡ₚ entries organisms →
  hasLife (tickOver w (Configurable.rule birth survive) visit organisms)
    c.1 c.2 = 1
  ↔ inWorld w c ∧ Naive.aliveNext w birth survive organisms c = true.
Proof.
  intros Hw Hok Hhalo Hin Hbirth Hvisit.
  rewrite hasLife_alive, tickOver_alive by done.
  rewrite Naive_aliveNext_true. setoid_rewrite Configurable_rule_true.
  unfold aliveAt. split.
  - intros (v & Hv & Hr).
    assert (inWorld w c) as Hc by (apply Hin; by exists v).
    split; [done|]. rewrite Naive_count_neighborsAlive by done.
    rewrite Hv. naive_solver.
  - intros [Hc Hr]. rewrite Naive_count_neighborsAlive in Hr by done.
    destruct (lookup2 organisms c) as [v|] eqn:Hv.
    + exists v. split; [done|]. naive_solver.
    + exfalso. destruct Hr as [[? _]|[_ Hr]]; [done|].
      rewrite untracked_neighborsAlive in Hr by done.
      rewrite Forall_forall in Hbirth. apply Hbirth in Hr. lia.
Qed.

(** C3. Under the halo invariant, with entries that are 0 or 1 and lie in
    the world, and with positive birth counts, the tick over the entries
    of the map (in any order) makes alive exactly the coordinates of the
    world that the naive step makes alive, which evaluates the rule at
    every coordinate of the world; so no coordinate outside the candidate
    set changes state.  The same holds of the rule of [main.go] against
    the naive step with birth = {3} and survive = {2, 3}. *)
Theorem tick_refines_naive w visit (organisms : Organisms) c :
  worldInt64 w → valuesOk organisms → haloInvariant w organisms →
  entriesInWorld w organisms → visit ≡ₚ entries organisms →
  (∀ birth survive, Forall (λ b, 0 < b) birth →
     hasLife (tickOver w (Configurable.rule birth survive) visit organisms)
       c.1 c.2 = 1
     ↔ inWorld w c ∧ Naive.aliveNext w birth survive organisms c = true)
  ∧ (hasLife (tickOver w Basic.rule visit organisms) c.1 c.2 = 1
     ↔ inWorld w c ∧ Naive.aliveNext w [3] [2; 3] organisms c = true).
Proof.
  intros Hw Hok Hhalo Hin Hvisit. split.
  - intros birth survive Hbirth. by apply naive_rule_refined.
  - rewrite (tickOver_ext w Basic.rule _ _ _ Basic_rule_default).
    apply naive_rule_refined; [done..| |done].
    repeat constructor.
Qed.

Lemma tick_refines_naive_witness :
  hasLife (tickOver sampleWorld Basic.rule (entries blinker) blinker) 0 1 = 1
  ↔ inWorld sampleWorld (0, 1)
    ∧ Naive.aliveNext sampleWorld [3] [2; 3] blinker (0, 1) = true.
Proof.
  assert (wellFormedb sampleWorld blinker = true) as Hwf
    by (vm_compute; reflexivity).
  apply wellFormedb_true in Hwf as (Hok & Hhalo & Hin).
  apply (tick_refines_naive sampleWorld (entries blinker) blinker (0, 1)).
  - unfold worldInt64, int64, minInt64, maxInt64; simpl. lia.
  - exact Hok.
  - exact Hhalo.
  - exact Hin.
  - reflexivity.
Defined.

(** ** The halo invariant *)

(** C4. The map that [seedLife] returns and the map that a tick builds
    (from any map, with any rule, over any list of cells) satisfy the
    halo invariant.  [addOrganism] marks the coordinate alive, gives each
    resolved neighbour without an entry the entry 0, and leaves every
    other entry as it is. *)
Theorem halo_invariant w :
  (∀ lines organisms,
     seedLife w lines = Ok organisms → haloInvariant w organisms)
  ∧ (∀ rule visit organisms,
       haloInvariant w (tickOver w rule visit organisms))
  ∧ (∀ (organisms : Organisms) coordX coordY,
       aliveAt (addOrganism w organisms coordX coordY) (coordX, coordY)
       ∧ (∀ n, n ∈ neighborCoords w (coordX, coordY) → n ≠ (coordX, coordY) →
            lookup2 organisms n = None →
            lookup2 (addOrganism w organisms coordX coordY) n = Some 0)
       ∧ (∀ c v, c ≠ (coordX, coordY) → lookup2 organisms c = Some v →
            lookup2 (addOrganism w organisms coordX coordY) c = Some v)).
Proof.
  split; [|split].
  - intros lines organisms (cs & _ & -> & _)%seedLines_insertAll.
    apply insertAll_halo, haloInvariant_empty.
  - intros rule visit organisms. rewrite tickOver_insertAll.
    apply insertAll_halo, haloInvariant_empty.
  - intros organisms coordX coordY. split; [|split].
    + apply addOrganism_alive. by left.
    + intros n Hn Hne Hnone. by apply addOrganism_stubs.
    + intros c v Hne Hv. by apply addOrganism_keeps.
Qed.

Lemma halo_invariant_witness :
  haloInvariant sampleWorld (insertAll sampleWorld ∅ [(0, 0); (1, 0)]).
Proof.
  apply (proj1 (halo_invariant sampleWorld) ["(0,0)"; "(1, 0)"]).
  vm_compute. reflexivity.
Defined.

(** ** An axis of two cells *)

Lemma two_cell_getNeighborsX w coordX :
  worldInt64 w → wraparound w = true → worldMaxX w = worldMinX w + 1 →
  worldMinX w ≤ coordX ≤ worldMaxX w →
  ∃ other, other ≠ coordX ∧ worldMinX w ≤ other ≤ worldMaxX w
           ∧ getNeighborsX w coordX = (other, other, true, true).
Proof.
  intros (Hx1 & Hx2 & _) Hwrap Htwo Hc. rewrite getNeighborsX_eq, Hwrap.
  destruct (Z.eqb_spec coordX (worldMinX w)) as [Hlo|Hlo],
           (Z.eqb_spec coordX (worldMaxX w)) as [Hhi|Hhi]; try lia.
  - exists (worldMaxX w).
    rewrite wrap64_id by int64_lia.
    split; [lia|]. split; [lia|]. do 3 f_equal. lia.
  - exists (worldMinX w).
    rewrite wrap64_id by int64_lia.
    split; [lia|]. split; [lia|]. do 3 f_equal. lia.
Qed.

Lemma getNeighborsY_distinct w coordY b t be te :
  worldInt64 w → worldMinY w < worldMaxY w →
  worldMinY w ≤ coordY ≤ worldMaxY w →
  getNeighborsY w coordY = (b, t, be, te) →
  (be = true → b ≠ coordY) ∧ (te = true → t ≠ coordY).
Proof.
  intros (_ & _ & Hy1 & Hy2) Hlt Hc. rewrite getNeighborsY_eq.
  destruct (Z.eqb_spec coordY (worldMinY w)) as [Hlo|Hlo],
           (Z.eqb_spec coordY (worldMaxY w)) as [Hhi|Hhi]; try lia.
  all: rewrite ?wrap64_id by int64_lia.
  all: destruct (wraparound w).
  all: intros [= <- <- <- <-]; split; intros ?; try done; lia.
Qed.

Lemma getNeighborsX_distinct w coordX l r le re :
  worldInt64 w → worldMinX w < worldMaxX w →
  worldMinX w ≤ coordX ≤ worldMaxX w →
  getNeighborsX w coordX = (l, r, le, re) →
  (le = true → l ≠ coordX) ∧ (re = true → r ≠ coordX).
Proof.
  intros (Hx1 & Hx2 & Hy1 & Hy2).
  by apply (getNeighborsY_distinct (swapAxes w)).
Qed.

Lemma two_cell_getNeighborsY w coordY :
  worldInt64 w → wraparound w = true → worldMaxY w = worldMinY w + 1 →
  worldMinY w ≤ coordY ≤ worldMaxY w →
  ∃ other, other ≠ coordY ∧ worldMinY w ≤ other ≤ worldMaxY w
           ∧ getNeighborsY w coordY = (other, other, true, true).
Proof.
  intros (Hx1 & Hx2 & Hy1 & Hy2).
  by apply (two_cell_getNeighborsX (swapAxes w)).
Qed.

Lemma two_cell_X_counts_twice w coordX :
  worldInt64 w → wraparound w = true → worldMaxX w = worldMinX w + 1 →
  worldMinX w ≤ coordX ≤ worldMaxX w →
  ∃ other,
    other ≠ coordX
    ∧ getNeighborsX w coordX = (other, other, true, true)
    ∧ (∀ organisms coordY b t be te,
         getNeighborsY w coordY = (b, t, be, te) →
         neighborsAlive w organisms coordX coordY
         = 2 * (hasLife organisms other coordY
                + (if be then hasLife organisms other b else 0)
                + (if te then hasLife organisms other t else 0))
           + (if be then hasLife organisms coordX b else 0)
           + (if te then hasLife organisms coordX t else 0))
    ∧ (∀ organisms coordY,
         worldMinY w < worldMaxY w → worldMinY w ≤ coordY ≤ worldMaxY w →
         hasLife organisms other coordY = 1 →
         (∀ c, c ≠ (other, coordY) → hasLife organisms c.1 c.2 = 0) →
         neighborsAlive w organisms coordX coordY = 2).
Proof.
  intros Hw Hwrap Htwo Hc.
  destruct (two_cell_getNeighborsX w coordX Hw Hwrap Htwo Hc)
    as (other & Hne & _ & Hx).
  exists other. split; [done|]. split; [done|].
  assert (∀ organisms coordY b t be te,
         getNeighborsY w coordY = (b, t, be, te) →
         neighborsAlive w organisms coordX coordY
         = 2 * (hasLife organisms other coordY
                + (if be then hasLife organisms other b else 0)
                + (if te then hasLife organisms other t else 0))
           + (if be then hasLife organisms coordX b else 0)
           + (if te then hasLife organisms coordX t else 0)) as Hcount.
  { intros organisms coordY b t be te Hy. unfold neighborsAlive.
    rewrite Hx, Hy. destruct be, te; lia. }
  split; [done|].
  intros organisms coordY Hlt Hy Hlive Hothers.
  destruct (getNeighborsY w coordY) as [[[b t] be] te] eqn:HnY.
  rewrite (Hcount organisms coordY b t be te HnY), Hlive.
  destruct (getNeighborsY_distinct w coordY b t be te Hw Hlt Hy HnY)
    as [Hb Ht].
  assert (∀ y, y ≠ coordY → hasLife organisms other y = 0) as Hcol.
  { intros y Hy'. apply (Hothers (other, y)). congruence. }
  assert (∀ y, hasLife organisms coordX y = 0) as Hown.
  { intros y. apply (Hothers (coordX, y)). congruence. }
  rewrite !Hown. destruct be, te; rewrite ?Hcol by auto; lia.
Qed.

Lemma two_cell_Y_counts_twice w coordY :
  worldInt64 w → wraparound w = true → worldMaxY w = worldMinY w + 1 →
  worldMinY w ≤ coordY ≤ worldMaxY w →
  ∃ other,
    other ≠ coordY
    ∧ getNeighborsY w coordY = (other, other, true, true)
    ∧ (∀ organisms coordX l r le re,
         getNeighborsX w coordX = (l, r, le, re) →
         neighborsAlive w organisms coordX coordY
         = 2 * (hasLife organisms coordX other
                + (if le then hasLife organisms l other else 0)
                + (if re then hasLife organisms r other else 0))
           + (if le then hasLife organisms l coordY else 0)
           + (if re then hasLife organisms r coordY else 0))
    ∧ (∀ organisms coordX,
         worldMinX w < worldMaxX w → worldMinX w ≤ coordX ≤ worldMaxX w →
         hasLife organisms coordX other = 1 →
         (∀ c, c ≠ (coordX, other) → hasLife organisms c.1 c.2 = 0) →
         neighborsAlive w organisms coordX coordY = 2).
Proof.
  intros Hw Hwrap Htwo Hc.
  destruct (two_cell_getNeighborsY w coordY Hw Hwrap Htwo Hc)
    as (other & Hne & _ & Hy).
  exists other. split; [done|]. split; [done|].
  assert (∀ organisms coordX l r le re,
         getNeighborsX w coordX = (l, r, le, re) →
         neighborsAlive w organisms coordX coordY
         = 2 * (hasLife organisms coordX other
                + (if le then hasLife organisms l other else 0)
                + (if re then hasLife organisms r other else 0))
           + (if le then hasLife organisms l coordY else 0)
           + (if re then hasLife organisms r coordY else 0)) as Hcount.
  { intros organisms coordX l r le re Hx. unfold neighborsAlive.
    rewrite Hx, Hy. destruct le, re; lia. }
  split; [done|].
  intros organisms coordX Hlt Hx Hlive Hothers.
  destruct (getNeighborsX w coordX) as [[[l r] le] re] eqn:HnX.
  rewrite (Hcount organisms coordX l r le re HnX), Hlive.
  destruct (getNeighborsX_distinct w coordX l r le re Hw Hlt Hx HnX)
    as [Hl Hr].
  assert (∀ x, x ≠ coordX → hasLife organisms x other = 0) as Hrow.
  { intros x Hx'. apply (Hothers (x, other)). congruence. }
  assert (∀ x, hasLife organisms x coordY = 0) as Hown.
  { intros x. apply (Hothers (x, coordY)). congruence. }
  rewrite !Hown. destruct le, re; rewrite ?Hrow by auto; lia.
Qed.

(** C10. In a wraparound world with an axis of two cells, the lower and
    the upper neighbour of a coordinate on that axis are the same
    coordinate, the other cell of the axis, and the count of the tick loop
    adds every cell on that side twice: a single live cell beside the
    coordinate gives the count 2.  This holds of the X axis and of the Y
    axis. *)
Theorem two_cell_axis_counts_twice w :
  worldInt64 w → wraparound w = true →
  (worldMaxX w = worldMinX w + 1 →
   ∀ coordX, worldMinX w ≤ coordX ≤ worldMaxX w →
   ∃ other,
     other ≠ coordX
     ∧ getNeighborsX w coordX = (other, other, true, true)
     ∧ (∀ organisms coordY b t be te,
          getNeighborsY w coordY = (b, t, be, te) →
          neighborsAlive w organisms coordX coordY
          = 2 * (hasLife organisms other coordY
                 + (if be then hasLife organisms other b else 0)
                 + (if te then hasLife organisms other t else 0))
            + (if be then hasLife organisms coordX b else 0)
            + (if te then hasLife organisms coordX t else 0))
     ∧ (∀ organisms coordY,
          worldMinY w < worldMaxY w → worldMinY w ≤ coordY ≤ worldMaxY w →
          hasLife organisms other coordY = 1 →
          (∀ c, c ≠ (other, coordY) → hasLife organisms c.1 c.2 = 0) →
          neighborsAlive w organisms coordX coordY = 2))
  ∧ (worldMaxY w = worldMinY w + 1 →
     ∀ coordY, worldMinY w ≤ coordY ≤ worldMaxY w →
     ∃ other,
       other ≠ coordY
       ∧ getNeighborsY w coordY = (other, other, true, true)
       ∧ (∀ organisms coordX l r le re,
            getNeighborsX w coordX = (l, r, le, re) →
            neighborsAlive w organisms coordX coordY
            = 2 * (hasLife organisms coordX other
                   + (if le then hasLife organisms l other else 0)
                   + (if re then hasLife organisms r other else 0))
              + (if le then hasLife organisms l coordY else 0)
              + (if re then hasLife organisms r coordY else 0))
       ∧ (∀ organisms coordX,
            worldMinX w < worldMaxX w → worldMinX w ≤ coordX ≤ worldMaxX w →
            hasLife organisms coordX other = 1 →
            (∀ c, c ≠ (coordX, other) → hasLife organisms c.1 c.2 = 0) →
            neighborsAlive w organisms coordX coordY = 2)).
Proof.
  intros Hw Hwrap. split.
  - intros Htwo coordX Hc. by apply two_cell_X_counts_twice.
  - intros Htwo coordY Hc. by apply two_cell_Y_counts_twice.
Qed.

Lemma two_cell_axis_counts_twice_witness :
  ∃ other,
    other ≠ 0
    ∧ getNeighborsX sampleTwoCell 0 = (other, other, true, true)
    ∧ neighborsAlive sampleTwoCell (insertAll sampleTwoCell ∅ [(1, 2)]) 0 2 = 2.
Proof.
  destruct (two_cell_axis_counts_twice sampleTwoCell) as [HX _].
  - unfold worldInt64, int64, minInt64, maxInt64; simpl. lia.
  - reflexivity.
  - destruct (HX eq_refl 0) as (other & Hne & Hx & _ & _).
    + simpl. lia.
    + exists other. split; [done|]. split; [done|]. vm_compute. reflexivity.
Defined.

(** ** The output *)

Lemma StronglySorted_lt_of_le (l : list Z) :
  NoDup l → StronglySorted Z.le l → StronglySorted Z.lt l.
Proof.
  induction 2 as [|x l Hl IH Hx]; constructor.
  - apply IH. by eapply NoDup_cons_1_2.
  - apply NoDup_cons in H as [Hnotin _].
    rewrite Forall_forall in Hx |- *. intros y Hy.
    assert (x ≠ y) by (intros ->; done). specialize (Hx y Hy). lia.
Qed.

(** The sorted keys of a map: ascending without repetition, and exactly
    the keys. *)
Lemma sorted_keys_spec {A} (m : gmap Z A) :
  StronglySorted Z.lt (merge_sort Z.le (map_to_list m).*1)
  ∧ ∀ k, k ∈ merge_sort Z.le (map_to_list m).*1 ↔ is_Some (m !! k).
Proof.
  split.
  - apply StronglySorted_lt_of_le.
    + rewrite merge_sort_Permutation. apply NoDup_fst_map_to_list.
    + apply StronglySorted_merge_sort; apply _.
  - intros k. rewrite merge_sort_Permutation, list_elem_of_fmap. split.
    + intros ([k' v] & -> & Hin). apply elem_of_map_to_list in Hin. eauto.
    + intros [v Hv]. exists (k, v). split; [done|].
      by apply elem_of_map_to_list.
Qed.

Lemma outputCoordinates_rows organisms :
  outputCoordinates organisms
  = getSortedCoordXs organisms ≫= outputRow organisms.
Proof. reflexivity. Qed.

Lemma elem_of_outputRow (organisms : Organisms) coordX c :
  c ∈ outputRow organisms coordX ↔ c.1 = coordX ∧ aliveAt organisms c.
Proof.
  unfold outputRow, getSortedCoordYs, aliveAt. rewrite list_elem_of_bind.
  destruct c as [x y]; simpl. split.
  - intros (y' & Hin & _).
    destruct (Z.eqb_spec (default 0 (lookup2 organisms (coordX, y'))) 1)
      as [Hv|Hv]; [|by apply elem_of_nil in Hin].
    apply list_elem_of_singleton in Hin as [= -> ->]. split; [done|].
    destruct (lookup2 organisms (coordX, y')); naive_solver.
  - intros [<- Hv]. exists y. rewrite Hv; simpl. split; [set_solver|].
    apply (sorted_keys_spec (default ∅ (organisms !! x))).
    unfold lookup2 in Hv; simpl in Hv.
    destruct (organisms !! x) as [row|]; [|done]. simpl. eauto.
Qed.

Lemma outputRow_sorted (organisms : Organisms) coordX :
  StronglySorted coordLt (outputRow organisms coordX).
Proof.
  unfold outputRow, getSortedCoordYs.
  destruct (sorted_keys_spec (default ∅ (organisms !! coordX))) as [Hs _].
  induction Hs as [|y ys Hys IH Hy]; simpl; [constructor|].
  destruct (default 0 (lookup2 organisms (coordX, y)) =? 1); simpl; [|done].
  constructor; [done|].
  apply Forall_forall. intros [x' y'] Hin.
  apply list_elem_of_bind in Hin as (y'' & Hin & Hy'').
  rewrite Forall_forall in Hy. specialize (Hy y'' Hy'').
  destruct (default 0 (lookup2 organisms (coordX, y'')) =? 1);
    [|by apply elem_of_nil in Hin].
  apply list_elem_of_singleton in Hin as [= -> ->]. right. simpl. lia.
Qed.

Lemma elem_of_outputCoordinates (organisms : Organisms) c :
  c ∈ outputCoordinates organisms ↔ aliveAt organisms c.
Proof.
  rewrite outputCoordinates_rows, list_elem_of_bind.
  setoid_rewrite elem_of_outputRow. unfold getSortedCoordXs. split.
  - by intros (x & [_ Hc] & _).
  - intros Hc. exists c.1. split; [done|].
    apply sorted_keys_spec. apply tracked_row. by exists 1.
Qed.

Lemma outputCoordinates_sorted (organisms : Organisms) :
  StronglySorted coordLt (outputCoordinates organisms).
Proof.
  rewrite outputCoordinates_rows. unfold getSortedCoordXs.
  destruct (sorted_keys_spec organisms) as [Hs _].
  induction Hs as [|x xs Hxs IH Hx]; simpl; [constructor|].
  apply StronglySorted_app. split; [|split; [apply outputRow_sorted|done]].
  intros c1 c2 [Hc1 _]%elem_of_outputRow Hc2.
  apply list_elem_of_bind in Hc2 as (x' & [Hc2 _]%elem_of_outputRow & Hx').
  rewrite Forall_forall in Hx. specialize (Hx x' Hx'). left. lia.
Qed.

Lemma coordLt_irrefl c : ¬ coordLt c c.
Proof. unfold coordLt. lia. Qed.

Lemma coordLt_asym a b : coordLt a b → coordLt b a → a = b.
Proof. unfold coordLt. lia. Qed.

Lemma StronglySorted_coordLt_NoDup l : StronglySorted coordLt l → NoDup l.
Proof.
  induction 1 as [|c l Hl IH Hc]; constructor; [|done].
  intros Hin. rewrite Forall_forall in Hc. by apply (coordLt_irrefl c), Hc.
Qed.

(** The output is a function of the set of alive coordinates. *)
Lemma outputOrganisms_alive (organisms1 organisms2 : Organisms) :
  (∀ c, aliveAt organisms1 c ↔ aliveAt organisms2 c) →
  outputOrganisms organisms1 = outputOrganisms organisms2.
Proof.
  intros Hsame. unfold outputOrganisms. do 3 f_equal.
  apply (StronglySorted_unique_strong coordLt).
  - intros ?? _ _. apply coordLt_asym.
  - apply outputCoordinates_sorted.
  - apply outputCoordinates_sorted.
  - apply NoDup_Permutation.
    + apply StronglySorted_coordLt_NoDup, outputCoordinates_sorted.
    + apply StronglySorted_coordLt_NoDup, outputCoordinates_sorted.
    + intros c. by rewrite !elem_of_outputCoordinates.
Qed.

(** C5. The output is the header line followed by one line [x y] for
    each coordinate of [outputCoordinates]; that list is strictly
    ascending by X and then by Y, has no repetition, and holds exactly
    the alive coordinates, so a tracked-dead coordinate gets no line; two
    maps built by inserting the same coordinates in different orders have
    the same output. *)
Theorem output_sorted_alive (organisms : Organisms) :
  outputOrganisms organisms
  = "#Life 1.06" +:+ newline
    +:+ String.concat ""
          ((λ c, pretty c.1 +:+ " " +:+ pretty c.2 +:+ newline)
             <$> outputCoordinates organisms)
  ∧ StronglySorted coordLt (outputCoordinates organisms)
  ∧ NoDup (outputCoordinates organisms)
  ∧ (∀ c, c ∈ outputCoordinates organisms ↔ lookup2 organisms c = Some 1)
  ∧ (∀ w cs1 cs2, cs1 ≡ₚ cs2 →
       outputOrganisms (insertAll w ∅ cs1) = outputOrganisms (insertAll w ∅ cs2)).
Proof.
  split; [reflexivity|]. split; [apply outputCoordinates_sorted|].
  split; [apply StronglySorted_coordLt_NoDup, outputCoordinates_sorted|].
  split; [apply elem_of_outputCoordinates|].
  intros w cs1 cs2 Hperm. apply outputOrganisms_alive. intros c.
  rewrite !insertAll_alive. by rewrite Hperm.
Qed.

Lemma output_sorted_alive_witness :
  outputOrganisms (insertAll sampleWorld ∅ [(1, 0); (0, 1); (0, 0)])
  = outputOrganisms (insertAll sampleWorld ∅ [(0, 1); (1, 0); (0, 0)]).
Proof.
  apply (output_sorted_alive ∅). apply perm_swap.
Defined.

(** ** Strings *)

Lemma append_cons c (s t : string) : String c s +:+ t = String c (s +:+ t).
Proof. reflexivity. Qed.

Lemma append_nil_l (t : string) : "" +:+ t = t.
Proof. reflexivity. Qed.

Lemma append_nil_r (s : string) : s +:+ "" = s.
Proof.
  induction s as [|c s IH]; [done|]. by rewrite append_cons, IH.
Qed.

Lemma append_assoc (s1 s2 s3 : string) :
  (s1 +:+ s2) +:+ s3 = s1 +:+ (s2 +:+ s3).
Proof.
  induction s1 as [|c s1 IH]; [done|]. by rewrite !append_cons, IH.
Qed.

Lemma length_append (s1 s2 : string) :
  String.length (s1 +:+ s2) = (String.length s1 + String.length s2)%nat.
Proof.
  induction s1 as [|c s1 IH]; [done|]. rewrite append_cons. simpl.
  by rewrite IH.
Qed.

Lemma get_append_end (s : string) c t :
  String.get (String.length s) (s +:+ String c t) = Some c.
Proof.
  induction s as [|c' s IH]; [done|]. rewrite append_cons. simpl. done.
Qed.

Lemma substring_append_start (s t : string) :
  String.substring 0 (String.length s) (s +:+ t) = s.
Proof.
  induction s as [|c s IH].
  - rewrite append_nil_l. by destruct t.
  - rewrite append_cons. simpl. by rewrite IH.
Qed.

Lemma rev_app_rev_app (s t u : string) :
  String.rev_app (String.rev_app s t) u = String.rev_app t (s +:+ u).
Proof.
  revert t u. induction s as [|c s IH]; intros t u; simpl; [done|].
  by rewrite IH, append_cons.
Qed.

Lemma rev_rev (s : string) : String.rev (String.rev s) = s.
Proof.
  unfold String.rev. rewrite rev_app_rev_app. simpl. apply append_nil_r.
Qed.

Lemma numeric_rev_app (s t : string) :
  numeric s = true → numeric t = true → numeric (String.rev_app s t) = true.
Proof.
  revert t. induction s as [|c s IH]; intros t; simpl; [done|].
  intros [Hc Hs]%andb_true_iff Ht. apply IH; [done|]. simpl.
  by rewrite Hc, Ht.
Qed.

Lemma numericByte_plain c : numericByte c = true → 33 ≤ byte c < 128.
Proof. unfold numericByte. lia. Qed.

Lemma numeric_startsPlain s : numeric s = true → startsPlain s.
Proof.
  destruct s as [|c s]; simpl; [done|].
  intros [Hc _]%andb_true_iff. by apply numericByte_plain.
Qed.

(** ** [strings.TrimSpace] *)

(** A rune that starts with a byte other than [c] is no prefix. *)
Lemma prefix_other_start r c s :
  match r with
  | EmptyString => False
  | String c' _ => byte c' ≠ byte c
  end →
  String.prefix r (String c s) = false.
Proof.
  destruct r as [|c' r]; simpl; [done|]. intros Hne.
  destruct (ascii_dec c' c) as [->|]; done.
Qed.

Lemma find_prefix_plain (runes : list string) s :
  Forall startsOutside runes → s ≠ "" → startsPlain s →
  List.find (λ r, String.prefix r s) runes = None.
Proof.
  intros Hrunes Hs Hplain. destruct s as [|c s]; [done|]. simpl in Hplain.
  induction Hrunes as [|r runes Hr _ IH]; [done|]. cbn [List.find].
  rewrite prefix_other_start; [done|].
  destruct r as [|c' r]; simpl in *; [done|]. lia.
Qed.

Lemma trimLeft_plain (runes : list string) s :
  Forall startsOutside runes → startsPlain s → trimLeft runes s = s.
Proof.
  intros Hrunes Hplain. unfold trimLeft.
  destruct s as [|c s]; [done|].
  change (String.length (String c s)) with (S (String.length s)).
  cbn [trimLeftFuel]. by rewrite find_prefix_plain.
Qed.

Lemma startsOutsideb_all (runes : list string) :
  forallb startsOutsideb runes = true → Forall startsOutside runes.
Proof.
  rewrite forallb_forall. intros Hall. apply Forall_forall.
  intros r Hr%list_elem_of_In%Hall. destruct r as [|c r]; [done|].
  unfold startsOutsideb in Hr. simpl. lia.
Qed.

Lemma spaceRunes_outside : Forall startsOutside spaceRunes.
Proof. apply startsOutsideb_all. vm_compute. reflexivity. Qed.

Lemma spaceRunes_rev_outside : Forall startsOutside (String.rev <$> spaceRunes).
Proof. apply startsOutsideb_all. vm_compute. reflexivity. Qed.

Lemma TrimSpace_numeric s : numeric s = true → TrimSpace s = s.
Proof.
  intros Hs. unfold TrimSpace.
  rewrite (trimLeft_plain spaceRunes s)
    by auto using spaceRunes_outside, numeric_startsPlain.
  rewrite trimLeft_plain; [apply rev_rev|apply spaceRunes_rev_outside|].
  apply numeric_startsPlain. by apply numeric_rev_app.
Qed.

(** ** [strings.Split] *)

Lemma Split_nonempty s sep : Split s sep ≠ [].
Proof.
  induction s as [|c s IH]; simpl; [done|].
  destruct (Ascii.eqb c sep); [done|]. by destruct (Split s sep).
Qed.

Lemma numericByte_not_comma c : numericByte c = true → Ascii.eqb c "," = false.
Proof.
  intros Hc. apply Ascii.eqb_neq. intros ->. by vm_compute in Hc.
Qed.

Lemma Split_numeric s : numeric s = true → Split s "," = [s].
Proof.
  induction s as [|c s IH]; simpl; [done|].
  intros [Hc Hs]%andb_true_iff. rewrite numericByte_not_comma by done.
  by rewrite IH.
Qed.

Lemma Split_numeric_comma s t :
  numeric s = true → Split (s +:+ String "," t) "," = s :: Split t ",".
Proof.
  induction s as [|c s IH]; [done|]. rewrite append_cons. simpl.
  intros [Hc Hs]%andb_true_iff. rewrite numericByte_not_comma by done.
  by rewrite IH.
Qed.

(** ** Printing and parsing integers *)

Lemma pretty_N_char_digit (d : N) :
  (d < 10)%N → digitValue (pretty_N_char d) = Some (Z.of_N d).
Proof.
  intros Hd.
  assert (d ∈ [0; 1; 2; 3; 4; 5; 6; 7; 8; 9]%N) as Hcases.
  { rewrite !elem_of_cons. lia. }
  rewrite !elem_of_cons in Hcases.
  destruct Hcases as [->|[->|[->|[->|[->|[->|[->|[->|[->|[->|[]%elem_of_nil]]]]]]]]]];
    reflexivity.
Qed.

Lemma pretty_N_char_numeric (d : N) :
  (d < 10)%N → numericByte (pretty_N_char d) = true.
Proof.
  intros Hd. pose proof (pretty_N_char_digit d Hd) as Hv.
  unfold digitValue in Hv. unfold numericByte.
  destruct ((48 <=? byte (pretty_N_char d)) && (byte (pretty_N_char d) <=? 57));
    done.
Qed.

Lemma pretty_N_go_numeric (x : N) s :
  numeric s = true → numeric (pretty_N_go x s) = true.
Proof.
  revert s. induction (N.lt_wf_0 x) as [x _ IH]; intros s Hs.
  destruct (decide (x = 0)%N) as [->|Hx]; [by rewrite pretty_N_go_0|].
  rewrite pretty_N_go_step by lia. apply IH.
  - apply N.div_lt; lia.
  - simpl. rewrite Hs, pretty_N_char_numeric; [done|].
    apply N.mod_lt. lia.
Qed.

Lemma pretty_N_go_startsDigit (x : N) s :
  startsDigit s ∨ (0 < x)%N → startsDigit (pretty_N_go x s).
Proof.
  revert s. induction (N.lt_wf_0 x) as [x _ IH]; intros s Hs.
  destruct (decide (x = 0)%N) as [->|Hx].
  - rewrite pretty_N_go_0. destruct Hs; [done|lia].
  - rewrite pretty_N_go_step by lia. apply IH.
    + apply N.div_lt; lia.
    + left. simpl. rewrite pretty_N_char_digit; [eauto|]. apply N.mod_lt. lia.
Qed.

Lemma parseDigits_pretty_N_go (x : N) s :
  Z.of_N x ≤ maxUint64 →
  parseDigits (pretty_N_go x s) 0 = parseDigits s (Z.of_N x).
Proof.
  revert s. induction (N.lt_wf_0 x) as [x _ IH]; intros s Hx.
  destruct (decide (x = 0)%N) as [->|Hpos]; [by rewrite pretty_N_go_0|].
  rewrite pretty_N_go_step by lia.
  pose proof (N.div_mod x 10 ltac:(lia)) as Hdiv.
  pose proof (N.mod_lt x 10 ltac:(lia)) as Hmod.
  assert (x `div` 10 < x)%N as Hlt by (apply N.div_lt; lia).
  rewrite IH; [|done|lia].
  simpl. rewrite pretty_N_char_digit by done.
  replace (Z.of_N (x `div` 10) * 10 + Z.of_N (x `mod` 10)) with (Z.of_N x)
    by lia.
  destruct (Z.ltb_spec maxUint64 (Z.of_N x)); [lia|done].
Qed.

Lemma pretty_pos (p : positive) : pretty (Z.pos p) = pretty_N_go (N.pos p) "".
Proof. reflexivity. Qed.

Lemma pretty_neg (p : positive) :
  pretty (Z.neg p) = String "-" (pretty_N_go (N.pos p) "").
Proof. reflexivity. Qed.

Lemma pretty_numeric (z : Z) : numeric (pretty z) = true.
Proof.
  destruct z as [|p|p].
  - reflexivity.
  - rewrite pretty_pos. by apply pretty_N_go_numeric.
  - rewrite pretty_neg. simpl. by apply pretty_N_go_numeric.
Qed.

Lemma ParseUint_pretty_N_go (p : positive) :
  Z.pos p ≤ maxUint64 →
  ParseUint (pretty_N_go (N.pos p) "") = inr (Z.pos p).
Proof.
  intros Hp. unfold ParseUint.
  pose proof (pretty_N_go_startsDigit (N.pos p) "" ltac:(right; lia)) as Hs.
  pose proof (parseDigits_pretty_N_go (N.pos p) "" Hp) as Hparse.
  destruct (pretty_N_go (N.pos p) "") as [|c s]; [done|]. by rewrite Hparse.
Qed.

Lemma digit_not_sign c :
  is_Some (digitValue c) → Ascii.eqb c "+" = false ∧ Ascii.eqb c "-" = false.
Proof.
  intros Hc. split; apply Ascii.eqb_neq; intros ->; by destruct Hc.
Qed.

(** What [%d] prints of an [int64], [ParseInt] reads back. *)
Lemma ParseInt_pretty (z : Z) : int64 z → ParseInt (pretty z) = inr z.
Proof.
  unfold int64, minInt64, maxInt64. intros Hz. destruct z as [|p|p].
  - reflexivity.
  - rewrite pretty_pos.
    pose proof (pretty_N_go_startsDigit (N.pos p) "" ltac:(right; lia)) as Hs.
    pose proof (ParseUint_pretty_N_go p) as Hparse.
    destruct (pretty_N_go (N.pos p) "") as [|c s]; [done|].
    unfold ParseInt. destruct (digit_not_sign c Hs) as [-> ->].
    rewrite Hparse by int64_lia. simpl.
    destruct (Z.leb_spec (2 ^ 63) (Z.pos p)); [lia|done].
  - rewrite pretty_neg. unfold ParseInt.
    change (Ascii.eqb "-" "+") with false. change (Ascii.eqb "-" "-") with true.
    cbv iota beta. rewrite ParseUint_pretty_N_go by int64_lia.
    simpl. destruct (Z.ltb_spec (2 ^ 63) (Z.pos p)); [lia|done].
Qed.

Lemma ParseInt_int64 s z : ParseInt s = inr z → int64 z.
Proof.
  unfold ParseInt. destruct s as [|c s]; [done|].
  destruct (if Ascii.eqb c "+" then _ else _) as [neg digits].
  assert (∀ t n v, 0 ≤ n → parseDigits t n = inr v → 0 ≤ v) as Hnonneg.
  { induction t as [|c' t IH]; intros n v Hn; simpl.
    - by intros [= <-].
    - unfold digitValue.
      destruct ((48 <=? byte c') && (byte c' <=? 57)) eqn:Hd; [|done].
      destruct (maxUint64 <? n * 10 + (byte c' - 48)); [done|].
      apply IH. lia. }
  destruct (ParseUint digits) as [[]|un] eqn:Hun; [done..|].
  assert (0 ≤ un).
  { unfold ParseUint in Hun. destruct digits; [done|].
    by apply (Hnonneg _ 0 un) in Hun. }
  unfold int64, minInt64, maxInt64.
  destruct neg; simpl.
  - destruct (Z.ltb_spec (2 ^ 63) un); [done|]. intros [= <-]. lia.
  - destruct (Z.leb_spec (2 ^ 63) un); [done|]. intros [= <-]. lia.
Qed.

(** ** Start-up *)

(** What [processConfigurationCli] does to [appWraparound]: it stays on
    only when [-nowrap] is given. *)
Lemma processConfigurationCli_wraparound flags app app' :
  Configurable.processConfigurationCli flags app = Ok app' →
  Configurable.appWraparound app'
  = Configurable.flagDisableWraparound flags && Configurable.appWraparound app.
Proof.
  unfold Configurable.processConfigurationCli.
  destruct (if Configurable.nonEmpty _ then parseWorldDimensions _ else _)
    as [[[[x1 x2] y1] y2]| | |]; simpl; [|done..].
  destruct (if Configurable.nonEmpty (Configurable.flagNewLifeSpawn flags)
            then _ else _) as [birth| | |]; simpl; [|done..].
  destruct (if Configurable.nonEmpty (Configurable.flagExistingLifeRemain flags)
            then _ else _) as [survive| | |]; simpl; [|done..].
  intros [= <-]. simpl.
  by destruct (Configurable.flagDisableWraparound flags).
Qed.

(** C6. With no flag supplied, [main.go] runs with wraparound on, but the
    configurable program runs with wraparound off: [processConfigurationCli]
    clears [appWraparound] when [-nowrap] is absent, so at the minimum of
    the X axis the left neighbour does not exist; with [-nowrap] given,
    wraparound stays on. *)
Theorem default_wraparound :
  (∃ w ticksDigitsLength,
     Basic.bootstrap Basic.defaultFlags StatIsDir = Ok (w, ticksDigitsLength)
     ∧ wraparound w = true)
  ∧ (∃ app,
       Configurable.setup Configurable.defaultFlags
         Configurable.NoConfigurationFile StatIsDir = Ok app
       ∧ Configurable.appWraparound app = false
       ∧ getNeighborsX (Configurable.world app) (Configurable.appWorldMinX app)
         = (0, minInt64 + 1, false, true))
  ∧ (∃ app,
       Configurable.setup nowrapFlags
         Configurable.NoConfigurationFile StatIsDir = Ok app
       ∧ Configurable.appWraparound app = true).
Proof.
  split; [|split].
  - eexists _, _. split; [vm_compute; reflexivity|reflexivity].
  - eexists. split; [vm_compute; reflexivity|]. split; reflexivity.
  - eexists. split; [vm_compute; reflexivity|reflexivity].
Qed.

(** The bounds check of the configurable program: [bootstrap] succeeds
    only on a world with [minX < maxX] and [minY < maxY]. *)
Lemma Configurable_bootstrap_bounds app stat ticksDigitsLength :
  Configurable.bootstrap app stat = Ok ticksDigitsLength →
  Configurable.appWorldMinX app < Configurable.appWorldMaxX app
  ∧ Configurable.appWorldMinY app < Configurable.appWorldMaxY app.
Proof.
  unfold Configurable.bootstrap.
  destruct (Configurable.appTicks app <? 1); [done|].
  destruct (outputDirectorySetup _ _ _); simpl; [|done..].
  destruct (Z.geb_spec (Configurable.appWorldMinX app)
              (Configurable.appWorldMaxX app)); [done|].
  destruct (Z.geb_spec (Configurable.appWorldMinY app)
              (Configurable.appWorldMaxY app)); [done|].
  intros _. lia.
Qed.

(** C7. [main.go] accepts a world whose X bounds are reversed:
    [bootstrap] returns it and the run goes on to the end, where the
    configurable program stops with the bounds error. *)
Theorem reversed_bounds_accepted :
  Basic.bootstrap reversedFlags StatIsDir = Ok (mkWorld true 5 3 0 10, 0)
  ∧ isOk (Basic.main reversedFlags StatIsDir []) = true
  ∧ Configurable.bootstrap
      (Configurable.mkApp "" "" "" 1 true 5 3 0 10 [3] [2; 3]) StatIsDir
    = Fatal (WorldBoundsX 5 3).
Proof. split; [|split]; vm_compute; reflexivity. Qed.

(** ** Seed records *)

(** C8. An empty line and a record without a comma end [seedLife] with an
    index out of range, not with a fatal message: [line[0]] is read
    before the length of the line is looked at, and [coordinates[1]]
    without a look at the number of pieces. *)
Theorem seed_record_panics w :
  seedRecord w "" = Panic (IndexOutOfRange 0 0)
  ∧ seedRecord w "(5)" = Panic (IndexOutOfRange 1 1)
  ∧ seedLife w ["(5)"] = Panic (IndexOutOfRange 1 1)
  ∧ Basic.main sampleFlags StatIsDir [""] = Panic (IndexOutOfRange 0 0).
Proof. split; [|split; [|split]]; reflexivity. Qed.

(** C9, as stated: the output of a generation is no seed input.  A run
    with 0 ticks stops in [bootstrap], and with 1 tick the header line of
    the output fails the left-parenthesis check. *)
Lemma round_trip_counterexample :
  Basic.main zeroTicksFlags StatIsDir (scanLines (outputOrganisms blinker))
  = Fatal (TicksNotPositive 0)
  ∧ Basic.main sampleFlags StatIsDir (scanLines (outputOrganisms blinker))
    = Fatal (LeftParenthesis "#")
  ∧ ¬ roundTrips zeroTicksFlags StatIsDir blinker
  ∧ ¬ roundTrips sampleFlags StatIsDir blinker.
Proof.
  assert (Basic.main zeroTicksFlags StatIsDir
            (scanLines (outputOrganisms blinker))
          = Fatal (TicksNotPositive 0)) as H0 by (vm_compute; reflexivity).
  assert (Basic.main sampleFlags StatIsDir
            (scanLines (outputOrganisms blinker))
          = Fatal (LeftParenthesis "#")) as H1 by (vm_compute; reflexivity).
  split; [done|]. split; [done|]. split.
  - intros (written & Hrun & _). congruence.
  - intros (written & Hrun & _). congruence.
Qed.

(** ** Seeding from written coordinates *)

Lemma seedRecordOf_eq c :
  seedRecordOf c
  = String "(" ((pretty c.1 +:+ String "," (pretty c.2)) +:+ ")").
Proof.
  unfold seedRecordOf. rewrite append_assoc. reflexivity.
Qed.

Lemma index_first c s : index (String c s) 0 = Ok c.
Proof.
  unfold index, len. simpl String.length.
  destruct (Z.ltb_spec 0 (Z.of_nat (S (String.length s)))); [done|lia].
Qed.

Lemma index_last c inner :
  index (String c (inner +:+ ")")) (len (String c (inner +:+ ")")) - 1)
  = Ok ")"%char.
Proof.
  unfold index, len. simpl String.length. rewrite length_append. simpl.
  replace (Z.of_nat (S (String.length inner + 1)) - 1)
    with (Z.of_nat (S (String.length inner))) by lia.
  rewrite Nat2Z.id.
  destruct (Z.leb_spec 0 (Z.of_nat (S (String.length inner)))); [|lia].
  destruct (Z.ltb_spec (Z.of_nat (S (String.length inner)))
              (Z.of_nat (S (String.length inner + 1)))); [|lia].
  simpl. by rewrite get_append_end.
Qed.

Lemma slice_inner c inner :
  slice (String c (inner +:+ ")")) 1 (len (String c (inner +:+ ")")) - 1)
  = Ok inner.
Proof.
  unfold slice, len. simpl String.length. rewrite length_append. simpl.
  replace (Z.of_nat (S (String.length inner + 1)) - 1)
    with (Z.of_nat (S (String.length inner))) by lia.
  replace (Z.of_nat (S (String.length inner)) - 1)
    with (Z.of_nat (String.length inner)) by lia.
  rewrite Nat2Z.id.
  destruct (Z.leb_spec 1 (Z.of_nat (S (String.length inner)))); [|lia].
  destruct (Z.leb_spec (Z.of_nat (S (String.length inner)))
              (Z.of_nat (S (String.length inner + 1)))); [|lia].
  simpl. change (Pos.to_nat 1) with 1%nat. simpl.
  by rewrite substring_append_start.
Qed.

(** The seed record of a coordinate of the world is read back as that
    coordinate. *)
Lemma seedRecord_seedRecordOf w c :
  worldInt64 w → inWorld w c → seedRecord w (seedRecordOf c) = Ok c.
Proof.
  intros (Hx1 & Hx2 & Hy1 & Hy2) [Hx Hy].
  assert (int64 c.1 ∧ int64 c.2) as [Hi1 Hi2] by (unfold int64 in *; lia).
  rewrite seedRecordOf_eq. unfold seedRecord.
  rewrite index_first. simpl. rewrite index_last. simpl.
  rewrite slice_inner. simpl.
  rewrite Split_numeric_comma by apply pretty_numeric.
  rewrite Split_numeric by apply pretty_numeric. simpl.
  rewrite !TrimSpace_numeric by apply pretty_numeric.
  rewrite !ParseInt_pretty by done. simpl.
  destruct (Z.ltb_spec c.1 (worldMinX w)); [lia|].
  destruct (Z.gtb_spec c.1 (worldMaxX w)); [lia|].
  destruct (Z.ltb_spec c.2 (worldMinY w)); [lia|].
  destruct (Z.gtb_spec c.2 (worldMaxY w)); [lia|].
  by destruct c.
Qed.

Lemma seedLines_seedRecordOf w organisms cs :
  worldInt64 w → Forall (inWorld w) cs →
  seedLines w organisms (seedRecordOf <$> cs) = Ok (insertAll w organisms cs).
Proof.
  intros Hw Hcs. revert organisms.
  induction Hcs as [|c cs Hc _ IH]; intros organisms; simpl; [done|].
  rewrite seedRecord_seedRecordOf by done. simpl. apply IH.
Qed.

(** Seeding from the coordinates of the output gives a map with the same
    output. *)
Lemma seedLife_outputCoordinates w (organisms : Organisms) :
  worldInt64 w → (∀ c, aliveAt organisms c → inWorld w c) →
  ∃ seeded,
    seedLife w (seedRecordOf <$> outputCoordinates organisms) = Ok seeded
    ∧ outputOrganisms seeded = outputOrganisms organisms.
Proof.
  intros Hw Hin. eexists. split.
  - apply seedLines_seedRecordOf; [done|]. apply Forall_forall.
    intros c Hc. by apply Hin, elem_of_outputCoordinates.
  - apply outputOrganisms_alive. intros c.
    rewrite insertAll_alive, elem_of_outputCoordinates.
    unfold aliveAt at 1. rewrite lookup2_empty. naive_solver.
Qed.

(** ** The run *)

Lemma simulate_files w rule directory remaining tick_ organisms files :
  ∃ more,
    tickFiles (simulate w rule directory remaining tick_ organisms files)
    = files ++ more.
Proof.
  revert tick_ organisms files.
  induction remaining as [|remaining IH]; intros tick_ organisms files; simpl.
  - unfold outputOrganismsTick. destruct (String.eqb directory "").
    + exists []. by rewrite app_nil_r.
    + by eexists.
  - destruct (IH (tick_ + 1) (tick w rule organisms)
                (outputOrganismsTick directory organisms tick_ files))
      as [more ->].
    unfold outputOrganismsTick. destruct (String.eqb directory "").
    + by eexists.
    + rewrite <- app_assoc. by eexists.
Qed.

(** With an output directory and at least one tick, the first file a run
    writes is the output of the seed generation. *)
Lemma simulate_first w rule directory ticks organisms :
  directory ≠ "" → 1 ≤ ticks →
  tickFiles (simulate w rule directory (Z.to_nat ticks) 0 organisms [])
    !! 0%nat
  = Some (0, outputOrganisms organisms).
Proof.
  intros Hdir Hticks.
  destruct (Z.to_nat ticks) as [|remaining] eqn:Hn; [lia|]. simpl.
  destruct (simulate_files w rule directory remaining (0 + 1)
              (tick w rule organisms)
              (outputOrganismsTick directory organisms 0 [])) as [more ->].
  unfold outputOrganismsTick.
  apply String.eqb_neq in Hdir. by rewrite Hdir.
Qed.

Lemma parseBound_int64 b part v : parseBound b part = Ok v → int64 v.
Proof.
  unfold parseBound.
  destruct (ParseInt (TrimSpace part)) as [|v'] eqn:Hv; [done|].
  intros [= <-]. by apply (ParseInt_int64 (TrimSpace part)).
Qed.

Lemma parseWorldDimensions_int64 s worldMinX worldMaxX worldMinY worldMaxY :
  parseWorldDimensions s = Ok (worldMinX, worldMaxX, worldMinY, worldMaxY) →
  int64 worldMinX ∧ int64 worldMaxX ∧ int64 worldMinY ∧ int64 worldMaxY.
Proof.
  unfold parseWorldDimensions.
  destruct (negb (Z.of_nat (length (Split s ";")) =? 2)); [done|].
  destruct (indexList (Split s ";") 0) as [parts0| | |]; simpl; [|done..].
  destruct (negb (Z.of_nat (length (Split parts0 ":")) =? 2)); [done|].
  destruct (indexList (Split s ";") 1) as [parts1| | |]; simpl; [|done..].
  destruct (negb (Z.of_nat (length (Split parts1 ":")) =? 2)); [done|].
  destruct (indexList (Split parts0 ":") 0) as [p| | |]; simpl; [|done..].
  destruct (parseBound MinX p) as [v1| | |] eqn:H1; simpl; [|done..].
  destruct (indexList (Split parts0 ":") 1) as [p'| | |]; simpl; [|done..].
  destruct (parseBound MaxX p') as [v2| | |] eqn:H2; simpl; [|done..].
  destruct (indexList (Split parts1 ":") 0) as [q| | |]; simpl; [|done..].
  destruct (parseBound MinY q) as [v3| | |] eqn:H3; simpl; [|done..].
  destruct (indexList (Split parts1 ":") 1) as [q'| | |]; simpl; [|done..].
  destruct (parseBound MaxY q') as [v4| | |] eqn:H4; simpl; [|done..].
  intros [= <- <- <- <-].
  repeat split; eapply parseBound_int64; eassumption.
Qed.

Lemma Basic_bootstrap_ok flags stat w ticksDigitsLength :
  Basic.bootstrap flags stat = Ok (w, ticksDigitsLength) →
  1 ≤ Basic.flagTicks flags ∧ worldInt64 w
  ∧ wraparound w = Basic.flagWraparound flags.
Proof.
  unfold Basic.bootstrap.
  destruct (Basic.flagShowHelp flags); [done|].
  destruct (Z.ltb_spec (Basic.flagTicks flags) 1); [done|].
  destruct (parseWorldDimensions _) as [[[[x1 x2] y1] y2]| | |] eqn:Hdims;
    simpl; [|done..].
  destruct (outputDirectorySetup _ _ _); simpl; [|done..].
  intros [= <- <-]. split; [done|]. split; [|done].
  by apply parseWorldDimensions_int64 in Hdims.
Qed.

(** C9, amended. A run of [main.go] with an output directory, seeded with
    the coordinates that the output of a generation lists, each written
    as the seed record [(x,y)], writes that same output as its file for
    tick 0, provided the alive coordinates of the generation lie in the
    world of the run. *)
Theorem round_trip_seed_records flags stat w ticksDigitsLength
    (organisms : Organisms) :
  Basic.bootstrap flags stat = Ok (w, ticksDigitsLength) →
  Basic.flagOutputDirectory flags ≠ "" →
  (∀ c, aliveAt organisms c → inWorld w c) →
  ∃ written,
    Basic.main flags stat (seedRecordOf <$> outputCoordinates organisms)
    = Ok written
    ∧ tickFiles written !! 0%nat = Some (0, outputOrganisms organisms).
Proof.
  intros Hboot Hdir Hin.
  destruct (Basic_bootstrap_ok _ _ _ _ Hboot) as (Hticks & Hw & _).
  destruct (seedLife_outputCoordinates w organisms Hw Hin)
    as (seeded & Hseed & Hout).
  unfold Basic.main. rewrite Hboot. simpl. rewrite Hseed. simpl.
  eexists. split; [done|]. rewrite simulate_first by done. by rewrite Hout.
Qed.

Lemma round_trip_seed_records_witness :
  ∃ written,
    Basic.main sampleFlags StatIsDir (seedRecordOf <$> outputCoordinates blinker)
    = Ok written
    ∧ tickFiles written !! 0%nat = Some (0, outputOrganisms blinker).
Proof.
  assert (wellFormedb sampleWorld blinker = true) as Hwf
    by (vm_compute; reflexivity).
  apply wellFormedb_true in Hwf as (_ & _ & Hin).
  apply (round_trip_seed_records sampleFlags StatIsDir sampleWorld 1 blinker).
  - vm_compute. reflexivity.
  - discriminate.
  - intros c Hc. apply Hin. by exists 1.
Defined.

(** ** Where [seedLife] can panic *)

Lemma get_in_range (s : string) (n : nat) :
  (n < String.length s)%nat → is_Some (String.get n s).
Proof.
  revert n. induction s as [|c s IH]; intros n; simpl; [lia|].
  destruct n as [|n]; [eauto|]. intros Hn. apply IH. lia.
Qed.

Lemma index_in_range (s : string) (i : Z) :
  0 ≤ i < len s → ∃ b, index s i = Ok b.
Proof.
  intros Hi. unfold index.
  destruct (Z.leb_spec 0 i); [|lia]. destruct (Z.ltb_spec i (len s)); [|lia].
  simpl. destruct (get_in_range s (Z.to_nat i)) as [b ->]; [|by exists b].
  unfold len in *. lia.
Qed.

Lemma slice_in_range (s : string) (low high : Z) :
  0 ≤ low ≤ high → high ≤ len s → ∃ t, slice s low high = Ok t.
Proof.
  intros Hlow Hhigh. unfold slice.
  destruct (Z.leb_spec 0 low); [|lia]. destruct (Z.leb_spec low high); [|lia].
  destruct (Z.leb_spec high (len s)); [|lia]. simpl. by eexists.
Qed.

(** [seedRecord] panics on the empty line and on a record whose first
    field parses and that has no second field; every other line ends in
    a coordinate of the world or in a fatal error. *)
Lemma seedRecord_panic w line p :
  seedRecord w line = Panic p →
  (line = "" ∧ p = IndexOutOfRange 0 0) ∨ p = IndexOutOfRange 1 1.
Proof.
  unfold seedRecord. destruct line as [|c s].
  { intros [= <-]. by left. }
  rewrite index_first. simpl.
  destruct (Z.eqb_spec (byte c) 40) as [Hc|Hc]; simpl; [|done].
  assert (∃ b, index (String c s) (len (String c s) - 1) = Ok b
               ∧ (byte b = 41 → 1 ≤ len (String c s) - 1)) as (b & -> & Hb).
  { destruct s as [|c' s].
    - exists c. split; [done|]. lia.
    - destruct (index_in_range (String c (String c' s))
                  (len (String c (String c' s)) - 1)) as [b Hb].
      + unfold len. simpl. lia.
      + exists b. split; [done|]. unfold len. simpl. lia. }
  simpl. destruct (Z.eqb_spec (byte b) 41) as [Hb'|Hb']; simpl; [|done].
  destruct (slice_in_range (String c s) 1 (len (String c s) - 1))
    as [inner ->]; [lia..|]. simpl.
  destruct (Split inner ",") as [|c0 [|c1 rest]] eqn:Hsplit.
  - by apply Split_nonempty in Hsplit.
  - simpl. destruct (ParseInt (TrimSpace c0)); [done|].
    simpl. intros [= <-]. by right.
  - simpl. destruct (ParseInt (TrimSpace c0)); [done|]. simpl.
    destruct (ParseInt (TrimSpace c1)); [done|].
    by repeat case_match.
Qed.

(** ** Sample runs *)

(** A single live cell dies in one tick. *)
Example isolation_death :
  outputCoordinates
    (tick sampleWorld Basic.rule (insertAll sampleWorld ∅ [(0, 0)]))
  = [].
Proof. vm_compute. reflexivity. Qed.

(** A block of 2 by 2 cells stays as it is. *)
Example block_stable :
  outputCoordinates
    (Nat.iter 3 (tick sampleWorld Basic.rule)
       (insertAll sampleWorld ∅ [(0, 0); (1, 0); (0, 1); (1, 1)]))
  = [(0, 0); (0, 1); (1, 0); (1, 1)].
Proof. vm_compute. reflexivity. Qed.

(** The blinker turns by a quarter in one tick, and back in the next. *)
Example blinker_period :
  outputCoordinates (tick sampleWorld Basic.rule blinker)
  = [(0, -1); (0, 0); (0, 1)]
  ∧ outputCoordinates (Nat.iter 2 (tick sampleWorld Basic.rule) blinker)
    = outputCoordinates blinker.
Proof. split; vm_compute; reflexivity. Qed.

(** After four ticks the glider is the same shape, moved by (+1, +1). *)
Example glider_moves :
  outputCoordinates (Nat.iter 4 (tick sampleLarge Basic.rule) glider)
  = (λ c : Z * Z, (c.1 + 1, c.2 + 1)) <$> outputCoordinates glider.
Proof. vm_compute. reflexivity. Qed.

(** ** More on the neighbourhood *)

(** X1. Inside the world the neighbourhood is symmetric and closed: a
    coordinate counted for a cell of the world lies in the world and
    counts that cell in turn, with or without wraparound. *)
Theorem neighbors_symmetric w c n :
  worldInt64 w → inWorld w c → n ∈ neighborCoords w c →
  c ∈ neighborCoords w n ∧ inWorld w n.
Proof. apply neighborCoords_sym. Qed.

Lemma neighbors_symmetric_witness :
  (2, 0) ∈ neighborCoords sampleWorld (-2, 0) ∧ inWorld sampleWorld (-2, 0).
Proof.
  apply (neighbors_symmetric sampleWorld (2, 0) (-2, 0)).
  - unfold worldInt64, int64, minInt64, maxInt64; simpl. lia.
  - unfold inWorld; simpl. lia.
  - apply (bool_decide_unpack _). vm_compute. exact I.
Defined.

Lemma adjacentX_hard_edge w coordX x :
  int64 (worldMinX w) → int64 (worldMaxX w) → wraparound w = false →
  worldMinX w ≤ coordX ≤ worldMaxX w →
  adjacentX w coordX x
  ↔ worldMinX w ≤ x ≤ worldMaxX w ∧ (x = coordX - 1 ∨ x = coordX + 1).
Proof.
  intros Hmin Hmax Hwrap Hc. unfold adjacentX.
  rewrite getNeighborsX_eq, Hwrap.
  assert (int64 coordX) as Hi by int64_lia.
  destruct (Z.eqb_spec coordX (worldMinX w)) as [Hlo|Hlo],
           (Z.eqb_spec coordX (worldMaxX w)) as [Hhi|Hhi].
  all: rewrite ?(wrap64_id (coordX - 1))
         by (apply (int64_pred _ (worldMinX w)); [done..|lia|done]).
  all: rewrite ?(wrap64_id (coordX + 1))
         by (apply (int64_succ _ (worldMaxX w)); [done..|lia|done]).
  all: split; [intros [[? ?]|[? ?]]; try done; lia|].
  all: intros [Hx [-> | ->]]; try lia; auto.
Qed.

Lemma adjacentY_hard_edge w coordY y :
  int64 (worldMinY w) → int64 (worldMaxY w) → wraparound w = false →
  worldMinY w ≤ coordY ≤ worldMaxY w →
  adjacentY w coordY y
  ↔ worldMinY w ≤ y ≤ worldMaxY w ∧ (y = coordY - 1 ∨ y = coordY + 1).
Proof. apply (adjacentX_hard_edge (swapAxes w)). Qed.

(** X2. Without wraparound the coordinates counted for a cell of the
    world are exactly the coordinates of the world one step or less away
    on each axis, the cell itself left out: the neighbourhood of eight,
    cut off at the edges of the world. *)
Theorem hard_edge_neighbors w c n :
  worldInt64 w → wraparound w = false → inWorld w c →
  n ∈ neighborCoords w c ↔ inWorld w n ∧ besides c n.
Proof.
  intros (Hx1 & Hx2 & Hy1 & Hy2) Hwrap [Hcx Hcy].
  rewrite elem_of_neighborCoords.
  rewrite adjacentX_hard_edge, adjacentY_hard_edge by done.
  unfold inWorld, besides. destruct c as [x y], n as [nx ny]; simpl in *.
  split.
  - intros H. split; [lia|]. split; [intros [= ? ?]; lia|lia].
  - intros [Hin [Hne Hd]].
    assert (nx ≠ x ∨ ny ≠ y) as Hdiff.
    { destruct (decide (nx = x)) as [->|]; [|by left].
      right. intros ->. done. }
    lia.
Qed.

Lemma hard_edge_neighbors_witness :
  (-1, -2) ∈ neighborCoords sampleBounded (-2, -2)
  ↔ inWorld sampleBounded (-1, -2) ∧ besides (-2, -2) (-1, -2).
Proof.
  apply (hard_edge_neighbors sampleBounded).
  - unfold worldInt64, int64, minInt64, maxInt64; simpl. lia.
  - reflexivity.
  - unfold inWorld; simpl. lia.
Defined.

(** X3. With wraparound and at least three cells on each axis, and for an
    inner cell of any world, the loop counts eight coordinates, no two of
    them the same and none the cell itself. *)
Theorem eight_distinct_neighbors w c :
  worldInt64 w → inWorld w c →
  (wraparound w = true ∧ worldMinX w + 2 ≤ worldMaxX w
   ∧ worldMinY w + 2 ≤ worldMaxY w)
  ∨ (worldMinX w < c.1 < worldMaxX w ∧ worldMinY w < c.2 < worldMaxY w) →
  length (neighborCoords w c) = 8%nat
  ∧ NoDup (neighborCoords w c)
  ∧ c ∉ neighborCoords w c.
Proof.
  intros (Hx1 & Hx2 & Hy1 & Hy2) [Hcx Hcy] Hcase.
  unfold neighborCoords. rewrite getNeighborsX_eq, getNeighborsY_eq.
  destruct c as [x y]; simpl in *.
  assert (int64 x ∧ int64 y) as [Hi1 Hi2] by int64_lia.
  destruct (Z.eqb_spec x (worldMinX w)), (Z.eqb_spec x (worldMaxX w)),
    (Z.eqb_spec y (worldMinY w)), (Z.eqb_spec y (worldMaxY w)).
  all: try lia.
  all: rewrite ?(wrap64_id (x - 1))
         by (apply (int64_pred _ (worldMinX w)); [done..|lia|done]).
  all: rewrite ?(wrap64_id (x + 1))
         by (apply (int64_succ _ (worldMaxX w)); [done..|lia|done]).
  all: rewrite ?(wrap64_id (y - 1))
         by (apply (int64_pred _ (worldMinY w)); [done..|lia|done]).
  all: rewrite ?(wrap64_id (y + 1))
         by (apply (int64_succ _ (worldMaxY w)); [done..|lia|done]).
  all: destruct (wraparound w); try lia; simpl.
  all: split; [done|].
  all: rewrite !NoDup_cons, !not_elem_of_cons.
  all: repeat split; try apply NoDup_nil_2; try apply not_elem_of_nil.
  all: intros [=]; lia.
Qed.

Lemma eight_distinct_neighbors_witness :
  length (neighborCoords sampleWorld (-2, 2)) = 8%nat
  ∧ NoDup (neighborCoords sampleWorld (-2, 2))
  ∧ (-2, 2) ∉ neighborCoords sampleWorld (-2, 2).
Proof.
  apply (eight_distinct_neighbors sampleWorld (-2, 2)).
  - unfold worldInt64, int64, minInt64, maxInt64; simpl. lia.
  - unfold inWorld; simpl. lia.
  - left. simpl. split; [reflexivity|lia].
Defined.

(** X4. On every map the program builds, by seeding or by a tick, the
    count of live neighbours lies between 0 and 8, far from the bounds of
    a Go [int]. *)
Theorem neighbor_count_bounds w :
  (∀ cs coordX coordY,
     0 ≤ neighborsAlive w (insertAll w ∅ cs) coordX coordY ≤ 8)
  ∧ (∀ rule visit organisms coordX coordY,
       0 ≤ neighborsAlive w (tickOver w rule visit organisms) coordX coordY ≤ 8).
Proof.
  split.
  - intros cs coordX coordY.
    apply neighborsAlive_range, insertAll_valuesOk, valuesOk_empty.
  - intros rule visit organisms coordX coordY. rewrite tickOver_insertAll.
    apply neighborsAlive_range, insertAll_valuesOk, valuesOk_empty.
Qed.

(** ** More on ticks and seeding *)

(** The map after inserting a list depends on the coordinates that occur
    in the list only, not on their order or number. *)
Lemma insertAll_same_set w cs1 cs2 :
  (∀ c, c ∈ cs1 ↔ c ∈ cs2) → insertAll w ∅ cs1 = insertAll w ∅ cs2.
Proof.
  intros Hsame.
  apply organisms_ext;
    [apply insertAll_rowsInhabited, rowsInhabited_empty..|].
  intros c.
  apply lookup2_determined;
    [apply insertAll_valuesOk, valuesOk_empty..| |].
  - rewrite !insertAll_alive. by rewrite Hsame.
  - rewrite !insertAll_tracked. by setoid_rewrite Hsame.
Qed.

(** X5. The map a tick builds does not depend on the order in which the
    cells are visited: two visits of the same cells, in any two orders,
    give the same next generation, entry for entry. *)
Theorem tick_order_irrelevant w rule visit1 visit2 organisms :
  visit1 ≡ₚ visit2 →
  tickOver w rule visit1 organisms = tickOver w rule visit2 organisms.
Proof.
  intros Hvisit. rewrite !tickOver_insertAll. apply insertAll_same_set.
  intros c. unfold selected. by rewrite Hvisit.
Qed.

Lemma tick_order_irrelevant_witness :
  tickOver sampleWorld Basic.rule (reverse (entries blinker)) blinker
  = tickOver sampleWorld Basic.rule (entries blinker) blinker.
Proof.
  apply (tick_order_irrelevant sampleWorld Basic.rule).
  apply reverse_Permutation.
Defined.

(** X6. A tick over the entries of a map whose entries lie in the world
    builds a map whose entries are 0 or 1 and lie in the world again, and
    it makes no coordinate alive that had no entry before. *)
Theorem tick_stays_in_world w rule visit (organisms : Organisms) :
  worldInt64 w → entriesInWorld w organisms → visit ≡ₚ entries organisms →
  valuesOk (tickOver w rule visit organisms)
  ∧ entriesInWorld w (tickOver w rule visit organisms)
  ∧ (∀ c, aliveAt (tickOver w rule visit organisms) c → tracked organisms c).
Proof.
  intros Hw Hin Hvisit.
  destruct (tickOver_wellFormed w rule visit organisms Hw Hin Hvisit)
    as (Hok & _ & Hin').
  split; [done|]. split; [done|].
  intros c (alive & Hc & _)%tickOver_alive; [|done]. by exists alive.
Qed.

Lemma tick_stays_in_world_witness :
  valuesOk (tickOver sampleWorld Basic.rule (entries blinker) blinker)
  ∧ entriesInWorld sampleWorld
      (tickOver sampleWorld Basic.rule (entries blinker) blinker)
  ∧ (∀ c, aliveAt (tickOver sampleWorld Basic.rule (entries blinker) blinker) c
          → tracked blinker c).
Proof.
  assert (wellFormedb sampleWorld blinker = true) as Hwf
    by (vm_compute; reflexivity).
  apply wellFormedb_true in Hwf as (_ & _ & Hin).
  apply (tick_stays_in_world sampleWorld Basic.rule (entries blinker) blinker).
  - unfold worldInt64, int64, minInt64, maxInt64; simpl. lia.
  - exact Hin.
  - reflexivity.
Defined.

Lemma seedLines_ok w organisms lines cs :
  Forall2 (λ line c, seedRecord w line = Ok c) lines cs →
  seedLines w organisms lines = Ok (insertAll w organisms cs).
Proof.
  intros Hall. revert organisms.
  induction Hall as [|line c lines cs Hline _ IH]; intros organisms; simpl.
  - done.
  - rewrite Hline. simpl. apply IH.
Qed.

(** X7. When [seedLife] succeeds, every line is a record of a coordinate
    inside the world, the alive coordinates of the map are exactly the
    coordinates of the records, and every entry of the map is 0 or 1 and
    lies in the world. *)
Theorem seedLife_alive_records w lines organisms :
  worldInt64 w → seedLife w lines = Ok organisms →
  ∃ cs,
    Forall2 (λ line c, seedRecord w line = Ok c) lines cs
    ∧ Forall (inWorld w) cs
    ∧ (∀ c, aliveAt organisms c ↔ c ∈ cs)
    ∧ valuesOk organisms
    ∧ entriesInWorld w organisms.
Proof.
  intros Hw Hseed.
  destruct (seedLife_wellFormed w lines organisms Hw Hseed) as (Hok & _ & Hin).
  apply seedLines_insertAll in Hseed as (cs & Hcs & -> & Hall).
  exists cs. split; [done|]. split; [done|]. split; [|done].
  intros c. rewrite insertAll_alive. unfold aliveAt at 1.
  rewrite lookup2_empty. naive_solver.
Qed.

Lemma seedLife_alive_records_witness :
  ∃ cs,
    Forall2 (λ line c, seedRecord sampleWorld line = Ok c)
      ["(0,0)"; "(1, 0)"] cs
    ∧ Forall (inWorld sampleWorld) cs
    ∧ (∀ c, aliveAt (insertAll sampleWorld ∅ [(0, 0); (1, 0)]) c ↔ c ∈ cs)
    ∧ valuesOk (insertAll sampleWorld ∅ [(0, 0); (1, 0)])
    ∧ entriesInWorld sampleWorld (insertAll sampleWorld ∅ [(0, 0); (1, 0)]).
Proof.
  apply (seedLife_alive_records sampleWorld ["(0,0)"; "(1, 0)"]).
  - unfold worldInt64, int64, minInt64, maxInt64; simpl. lia.
  - vm_compute. reflexivity.
Defined.

Lemma Forall2_seedRecord_elem w lines cs :
  Forall2 (λ line c, seedRecord w line = Ok c) lines cs →
  ∀ c, c ∈ cs ↔ ∃ line, line ∈ lines ∧ seedRecord w line = Ok c.
Proof.
  induction 1 as [|line c' lines cs Hline _ IH]; intros c.
  - split; [by intros ?%elem_of_nil|]. by intros (? & ?%elem_of_nil & _).
  - rewrite elem_of_cons, IH. split.
    + intros [->|(l & Hl & Hc)].
      * exists line. split; [left|done].
      * exists l. split; [by right|done].
    + intros (l & [->|Hl]%elem_of_cons & Hc).
      * left. congruence.
      * right. eauto.
Qed.

Lemma Forall2_seedRecord_ok w lines cs line :
  Forall2 (λ line c, seedRecord w line = Ok c) lines cs →
  line ∈ lines → ∃ c, seedRecord w line = Ok c.
Proof.
  induction 1 as [|line' c lines cs Hline _ IH].
  - by intros ?%elem_of_nil.
  - intros [->|Hin]%elem_of_cons; [by exists c|by apply IH].
Qed.

Lemma seedRecord_all_ok w lines :
  (∀ line, line ∈ lines → ∃ c, seedRecord w line = Ok c) →
  ∃ cs, Forall2 (λ line c, seedRecord w line = Ok c) lines cs.
Proof.
  induction lines as [|line lines IH]; intros Hall.
  - by exists [].
  - destruct (Hall line) as [c Hc]; [left|].
    destruct IH as [cs Hcs]; [intros l Hl; apply Hall; by right|].
    exists (c :: cs). by constructor.
Qed.

(** X8. The seeded map depends on the set of input lines only: an input
    with the same lines in another order, or with lines repeated, is
    accepted as well and gives the same map. *)
Theorem seedLife_same_lines w lines1 lines2 organisms :
  seedLife w lines1 = Ok organisms →
  (∀ line, line ∈ lines2 ↔ line ∈ lines1) →
  seedLife w lines2 = Ok organisms.
Proof.
  intros (cs1 & _ & -> & Hall1)%seedLines_insertAll Hsame.
  pose proof (Forall2_seedRecord_elem w lines1 cs1 Hall1) as Hcs1.
  destruct (seedRecord_all_ok w lines2) as [cs2 Hall2].
  { intros line Hline%Hsame.
    by apply (Forall2_seedRecord_ok w lines1 cs1). }
  pose proof (Forall2_seedRecord_elem w lines2 cs2 Hall2) as Hcs2.
  unfold seedLife. rewrite (seedLines_ok w ∅ lines2 cs2 Hall2). f_equal.
  apply insertAll_same_set. intros c. rewrite Hcs1, Hcs2.
  by setoid_rewrite Hsame.
Qed.

Lemma seedLife_same_lines_witness :
  seedLife sampleWorld ["(1, 0)"; "(0,0)"; "(1, 0)"]
  = Ok (insertAll sampleWorld ∅ [(0, 0); (1, 0)]).
Proof.
  apply (seedLife_same_lines sampleWorld ["(0,0)"; "(1, 0)"]).
  - vm_compute. reflexivity.
  - intros line. rewrite !elem_of_cons, !elem_of_nil. tauto.
Defined.

Lemma seedLines_app w organisms lines1 cs lines2 :
  Forall2 (λ line c, seedRecord w line = Ok c) lines1 cs →
  seedLines w organisms (lines1 ++ lines2)
  = seedLines w (insertAll w organisms cs) lines2.
Proof.
  intros Hall. revert organisms.
  induction Hall as [|line c lines cs Hline _ IH]; intros organisms; simpl.
  - done.
  - rewrite Hline. simpl. apply IH.
Qed.

(** X9. [seedLife] stops at the first line that is no record of a
    coordinate inside the world: the run ends with the fatal error or the
    panic of that line, whatever lines follow it. *)
Theorem seedLife_first_failure w good cs bad rest :
  Forall2 (λ line c, seedRecord w line = Ok c) good cs →
  (∀ e, seedRecord w bad = Fatal e → seedLife w (good ++ bad :: rest) = Fatal e)
  ∧ (∀ p, seedRecord w bad = Panic p →
          seedLife w (good ++ bad :: rest) = Panic p).
Proof.
  intros Hall. unfold seedLife. rewrite (seedLines_app w ∅ good cs) by done.
  split; intros ? Hbad; simpl; by rewrite Hbad.
Qed.

Lemma seedLife_first_failure_witness :
  (∀ e, seedRecord sampleWorld "(9,0)" = Fatal e →
        seedLife sampleWorld (["(0,0)"] ++ "(9,0)" :: ["(1,0)"]) = Fatal e)
  ∧ (∀ p, seedRecord sampleWorld "(9,0)" = Panic p →
          seedLife sampleWorld (["(0,0)"] ++ "(9,0)" :: ["(1,0)"]) = Panic p).
Proof.
  apply (seedLife_first_failure sampleWorld ["(0,0)"] [(0, 0)]).
  repeat constructor.
Defined.

Lemma seedRecord_not_exit w line : seedRecord w line ≠ Exit0.
Proof.
  unfold seedRecord.
  destruct (index line 0) as [b0| | |] eqn:H0; simpl; [| |done..].
  2:{ unfold index in H0. by repeat case_match. }
  destruct (negb (byte b0 =? 40)); [done|].
  destruct (index line (len line - 1)) as [b1| | |] eqn:H1; simpl; [| |done..].
  2:{ unfold index in H1. by repeat case_match. }
  destruct (negb (byte b1 =? 41)); [done|].
  destruct (slice line 1 (len line - 1)) as [inner| | |] eqn:H2; simpl;
    [| |done..].
  2:{ unfold slice in H2. by repeat case_match. }
  destruct (indexList _ 0) as [c0| | |] eqn:H3; simpl; [| |done..].
  2:{ unfold indexList in H3. by repeat case_match. }
  destruct (ParseInt (TrimSpace c0)); [done|].
  destruct (indexList _ 1) as [c1| | |] eqn:H4; simpl; [| |done..].
  2:{ unfold indexList in H4. by repeat case_match. }
  destruct (ParseInt (TrimSpace c1)); [done|]. by repeat case_match.
Qed.

(** X10. What one input line can lead to: a coordinate inside the world,
    a fatal error, or an index out of range, and the last only on the
    empty line ([line[0]]) and on a record with a single field
    ([coordinates[1]]); the slice [line[1:lineLength]] and
    [coordinates[0]] never fail. *)
Theorem seedRecord_outcomes w line :
  match seedRecord w line with
  | Ok c => inWorld w c
  | Exit0 => False
  | Fatal _ => True
  | Panic p =>
      (line = "" ∧ p = IndexOutOfRange 0 0)
      ∨ (line ≠ "" ∧ p = IndexOutOfRange 1 1)
  end.
Proof.
  destruct (seedRecord w line) as [c| |e|p] eqn:Hline.
  - by apply (seedRecord_inWorld w line).
  - by apply seedRecord_not_exit in Hline.
  - done.
  - destruct line as [|b s]; [left|right].
    + split; [done|].
      change (seedRecord w "")
        with (Panic (IndexOutOfRange 0 0) : Outcome (Z * Z)) in Hline.
      congruence.
    + split; [done|].
      by apply seedRecord_panic in Hline as [[? _]|?].
Qed.

(** ** White space around integers *)

Lemma substring_full (s : string) :
  String.substring 0 (String.length s) s = s.
Proof.
  rewrite <- (append_nil_r s) at 2. apply substring_append_start.
Qed.

Lemma dropBytes_one c (s : string) : dropBytes 1 (String c s) = s.
Proof.
  unfold dropBytes. simpl.
  rewrite Nat.sub_0_r. apply substring_full.
Qed.

Lemma blankByte_cases c :
  blankByte c = true →
  c ∈ ["009"; "010"; "011"; "012"; "013"; " "]%char.
Proof.
  destruct c as [[] [] [] [] [] [] [] []]; intros Hc;
    try (by vm_compute in Hc); set_solver.
Qed.

Lemma prefix_single c (s : string) :
  String.prefix (String c "") (String c s) = true.
Proof.
  simpl. destruct (ascii_dec c c); [|done]. by destruct s.
Qed.

Lemma find_blank_from (runes : list string) c (s : string) :
  blankByte c = true →
  take 6 runes = (λ b, String b "") <$> ["009"; "010"; "011"; "012"; "013"; " "]%char →
  List.find (λ r, String.prefix r (String c s)) runes = Some (String c "").
Proof.
  intros Hc%blankByte_cases Hrunes.
  rewrite <- (take_drop 6 runes), Hrunes.
  rewrite !elem_of_cons, elem_of_nil in Hc.
  destruct Hc as [->|[->|[->|[->|[->|[->|[]]]]]]]; simpl fmap;
    cbn [app List.find];
    repeat (first
      [ rewrite prefix_single
      | rewrite prefix_other_start by (vm_compute; discriminate) ];
      cbn [List.find]);
    reflexivity.
Qed.

Lemma find_blank_front c (s : string) :
  blankByte c = true →
  List.find (λ r, String.prefix r (String c s)) spaceRunes
  = Some (String c "").
Proof. intros Hc. by apply find_blank_from. Qed.

Lemma find_blank_back c (s : string) :
  blankByte c = true →
  List.find (λ r, String.prefix r (String c s)) (String.rev <$> spaceRunes)
  = Some (String c "").
Proof. intros Hc. by apply find_blank_from. Qed.

Lemma find_prefix_empty (runes : list string) :
  Forall startsOutside runes →
  List.find (λ r, String.prefix r "") runes = None.
Proof.
  induction 1 as [|r runes Hr _ IH]; [done|]. cbn [List.find].
  destruct r as [|c r]; [done|]. simpl String.prefix. cbv iota. done.
Qed.

Lemma trimLeftFuel_blank (runes : list string) pad s fuel :
  (∀ c t, blankByte c = true →
          List.find (λ r, String.prefix r (String c t)) runes
          = Some (String c "")) →
  Forall startsOutside runes →
  blank pad = true → startsPlain s → (String.length pad ≤ fuel)%nat →
  trimLeftFuel runes fuel (pad +:+ s) = s.
Proof.
  intros Hfind Hrunes. revert fuel.
  induction pad as [|c pad IH]; intros fuel Hpad Hs Hfuel.
  - rewrite append_nil_l. destruct fuel as [|fuel]; [done|].
    cbn [trimLeftFuel]. destruct s as [|c s].
    + by rewrite find_prefix_empty.
    + by rewrite find_prefix_plain.
  - simpl in Hpad, Hfuel. apply andb_true_iff in Hpad as [Hc Hpad].
    destruct fuel as [|fuel]; [lia|]. rewrite append_cons.
    cbn [trimLeftFuel]. rewrite Hfind by done.
    change (String.length (String c "")) with 1%nat.
    rewrite dropBytes_one. apply IH; [done..|lia].
Qed.

Lemma trimLeft_blank (runes : list string) pad s :
  (∀ c t, blankByte c = true →
          List.find (λ r, String.prefix r (String c t)) runes
          = Some (String c "")) →
  Forall startsOutside runes →
  blank pad = true → startsPlain s →
  trimLeft runes (pad +:+ s) = s.
Proof.
  intros Hfind Hrunes Hpad Hs. unfold trimLeft.
  apply trimLeftFuel_blank; [done..|]. rewrite length_append. lia.
Qed.

Lemma rev_app_append (s t : string) :
  String.rev_app s t = String.rev s +:+ t.
Proof.
  unfold String.rev. revert t.
  induction s as [|c s IH]; intros t; simpl; [done|].
  rewrite IH, (IH (String c "")), append_assoc. done.
Qed.

Lemma rev_append (s t : string) :
  String.rev (s +:+ t) = String.rev t +:+ String.rev s.
Proof.
  induction s as [|c s IH].
  - by rewrite append_nil_l, append_nil_r.
  - rewrite append_cons. unfold String.rev at 1 3. simpl.
    rewrite !rev_app_append, IH, append_assoc. done.
Qed.

Lemma blank_append (s t : string) : blank (s +:+ t) = blank s && blank t.
Proof.
  induction s as [|c s IH]; [done|]. rewrite append_cons. simpl.
  by rewrite IH, andb_assoc.
Qed.

Lemma blank_rev (s : string) : blank s = true → blank (String.rev s) = true.
Proof.
  induction s as [|c s IH]; [done|]. simpl.
  intros [Hc Hs]%andb_true_iff. unfold String.rev. simpl.
  rewrite rev_app_append, blank_append, IH by done. simpl. by rewrite Hc.
Qed.

Lemma numeric_rev (s : string) :
  numeric s = true → numeric (String.rev s) = true.
Proof. intros Hs. by apply numeric_rev_app. Qed.

Lemma rev_nonempty (s : string) : s ≠ "" → String.rev s ≠ "".
Proof. intros Hs Hrev. apply Hs. by rewrite <- (rev_rev s), Hrev. Qed.

Lemma startsPlain_append (s t : string) :
  s ≠ "" → startsPlain s → startsPlain (s +:+ t).
Proof. by destruct s. Qed.

(** [TrimSpace] strips the white space around a printed number. *)
Lemma TrimSpace_padded before (s after : string) :
  blank before = true → blank after = true → numeric s = true → s ≠ "" →
  TrimSpace (before +:+ s +:+ after) = s.
Proof.
  intros Hb Ha Hs Hne.
  assert (trimLeft spaceRunes (before +:+ s +:+ after) = s +:+ after) as H1.
  { apply trimLeft_blank; [|apply spaceRunes_outside|done|].
    - apply find_blank_front.
    - apply startsPlain_append; [done|]. by apply numeric_startsPlain. }
  assert (trimLeft (String.rev <$> spaceRunes)
            (String.rev after +:+ String.rev s) = String.rev s) as H2.
  { apply trimLeft_blank; [|apply spaceRunes_rev_outside|by apply blank_rev|].
    - apply find_blank_back.
    - by apply numeric_startsPlain, numeric_rev. }
  unfold TrimSpace. cbv zeta. rewrite H1, rev_append, H2. apply rev_rev.
Qed.

Lemma pretty_nonempty (z : Z) : pretty z ≠ "".
Proof.
  destruct z as [|p|p]; [done| |done]. rewrite pretty_pos.
  pose proof (pretty_N_go_startsDigit (N.pos p) "" ltac:(right; lia)) as Hs.
  by destruct (pretty_N_go (N.pos p) "").
Qed.

Lemma TrimSpace_paddedInt before z after :
  blank before = true → blank after = true →
  TrimSpace (paddedInt before z after) = pretty z.
Proof.
  intros Hb Ha. unfold paddedInt.
  apply TrimSpace_padded; auto using pretty_numeric, pretty_nonempty.
Qed.

(** ** Splitting at a byte that does not occur *)

Lemma Split_free sep (s : string) : freeOf sep s = true → Split s sep = [s].
Proof.
  induction s as [|c s IH]; simpl; [done|].
  intros [Hc Hs]%andb_true_iff. apply negb_true_iff in Hc. rewrite Hc.
  by rewrite IH.
Qed.

Lemma Split_free_sep sep (s t : string) :
  freeOf sep s = true → Split (s +:+ String sep t) sep = s :: Split t sep.
Proof.
  induction s as [|c s IH].
  - intros _. rewrite append_nil_l. simpl. by rewrite Ascii.eqb_refl.
  - rewrite append_cons. simpl.
    intros [Hc Hs]%andb_true_iff. apply negb_true_iff in Hc. rewrite Hc.
    by rewrite IH.
Qed.

Lemma freeOf_append sep (s t : string) :
  freeOf sep (s +:+ t) = freeOf sep s && freeOf sep t.
Proof.
  induction s as [|c s IH]; [done|]. rewrite append_cons. simpl.
  by rewrite IH, andb_assoc.
Qed.

Lemma freeOf_numeric sep (s : string) :
  numericByte sep = false → numeric s = true → freeOf sep s = true.
Proof.
  intros Hsep. induction s as [|c s IH]; simpl; [done|].
  intros [Hc Hs]%andb_true_iff. rewrite IH by done.
  rewrite andb_true_r. apply negb_true_iff, Ascii.eqb_neq. intros ->.
  congruence.
Qed.

Lemma freeOf_blank sep (s : string) :
  blankByte sep = false → blank s = true → freeOf sep s = true.
Proof.
  intros Hsep. induction s as [|c s IH]; simpl; [done|].
  intros [Hc Hs]%andb_true_iff. rewrite IH by done.
  rewrite andb_true_r. apply negb_true_iff, Ascii.eqb_neq. intros ->.
  congruence.
Qed.

(** A padded integer holds none of the separators of the input formats. *)
Lemma freeOf_paddedInt sep before z after :
  numericByte sep = false → blankByte sep = false →
  blank before = true → blank after = true →
  freeOf sep (paddedInt before z after) = true.
Proof.
  intros Hn Hb Hbefore Hafter. unfold paddedInt.
  rewrite !freeOf_append.
  rewrite (freeOf_blank sep before), (freeOf_blank sep after) by done.
  by rewrite (freeOf_numeric sep (pretty z)) by auto using pretty_numeric.
Qed.

(** Bring nested appends of strings to one shape. *)
Ltac normalize_append :=
  repeat (rewrite append_assoc || rewrite append_cons || rewrite append_nil_l).

(** ** Records and world strings that are accepted *)

(** A line [(field1,field2)] or [(field1,field2,...)] whose first two
    fields trim to printed coordinates of the world. *)
Lemma seedRecord_fields w c (field1 field2 more : string) :
  worldInt64 w → inWorld w c →
  freeOf "," field1 = true → freeOf "," field2 = true →
  TrimSpace field1 = pretty c.1 → TrimSpace field2 = pretty c.2 →
  more = "" ∨ (∃ rest, more = String "," rest) →
  seedRecord w (String "(" ((field1 +:+ String "," (field2 +:+ more)) +:+ ")"))
  = Ok c.
Proof.
  intros (Hx1 & Hx2 & Hy1 & Hy2) [Hx Hy] Hf1 Hf2 Ht1 Ht2 Hmore.
  assert (int64 c.1 ∧ int64 c.2) as [Hi1 Hi2] by int64_lia.
  unfold seedRecord.
  rewrite index_first. simpl. rewrite index_last. simpl.
  rewrite slice_inner. simpl.
  rewrite Split_free_sep by done.
  assert (∃ pieces, Split (field2 +:+ more) "," = field2 :: pieces)
    as [pieces ->].
  { destruct Hmore as [->|[rest ->]].
    - rewrite append_nil_r, Split_free by done. by eexists.
    - rewrite Split_free_sep by done. by eexists. }
  simpl. rewrite Ht1, Ht2, !ParseInt_pretty by done. simpl.
  destruct (Z.ltb_spec c.1 (worldMinX w)); [lia|].
  destruct (Z.gtb_spec c.1 (worldMaxX w)); [lia|].
  destruct (Z.ltb_spec c.2 (worldMinY w)); [lia|].
  destruct (Z.gtb_spec c.2 (worldMaxY w)); [lia|].
  by destruct c.
Qed.

(** X11. A record may carry white space around each of its two integers,
    and fields after the second are ignored: for a coordinate of the
    world, [(x,y)] with blanks before and after [x] and [y] is read as
    that coordinate, and so is the same line with a comma and any text
    put before the closing parenthesis. *)
Theorem seedRecord_lenient w c before1 after1 before2 after2 :
  worldInt64 w → inWorld w c →
  Forall (λ pad, blank pad = true) [before1; after1; before2; after2] →
  seedRecord w
    ("(" +:+ paddedInt before1 c.1 after1 +:+ ","
     +:+ paddedInt before2 c.2 after2 +:+ ")") = Ok c
  ∧ (∀ rest,
       seedRecord w
         ("(" +:+ paddedInt before1 c.1 after1 +:+ ","
          +:+ paddedInt before2 c.2 after2 +:+ "," +:+ rest +:+ ")") = Ok c).
Proof.
  intros Hw Hc Hpads.
  apply Forall_cons in Hpads as [Hb1 Hpads].
  apply Forall_cons in Hpads as [Ha1 Hpads].
  apply Forall_cons in Hpads as [Hb2 Hpads].
  apply Forall_cons in Hpads as [Ha2 _].
  assert (∀ more, more = "" ∨ (∃ rest, more = String "," rest) →
    seedRecord w
      (String "(" ((paddedInt before1 c.1 after1
                    +:+ String "," (paddedInt before2 c.2 after2 +:+ more))
                   +:+ ")")) = Ok c) as Hfields.
  { intros more Hmore.
    apply seedRecord_fields;
      auto using freeOf_paddedInt, TrimSpace_paddedInt. }
  split.
  - rewrite <- (Hfields "") by auto. f_equal. by normalize_append.
  - intros rest. rewrite <- (Hfields (String "," rest)) by eauto.
    f_equal. by normalize_append.
Qed.

Lemma seedRecord_lenient_witness :
  seedRecord sampleWorld
    ("(" +:+ paddedInt " " 1 "" +:+ "," +:+ paddedInt "  " (-2) " " +:+ ")")
  = Ok (1, -2)
  ∧ (∀ rest,
       seedRecord sampleWorld
         ("(" +:+ paddedInt " " 1 "" +:+ ","
          +:+ paddedInt "  " (-2) " " +:+ "," +:+ rest +:+ ")") = Ok (1, -2)).
Proof.
  apply (seedRecord_lenient sampleWorld (1, -2) " " "" "  " " ").
  - unfold worldInt64, int64, minInt64, maxInt64; simpl. lia.
  - unfold inWorld; simpl. lia.
  - repeat constructor.
Defined.

(** A list of two elements, from its length as the code tests it. *)
Lemma length_two (l : list string) :
  (Z.of_nat (length l) =? 2) = true → ∃ a b, l = [a; b].
Proof.
  intros Hl%Z.eqb_eq. destruct l as [|a [|b [|c l]]]; simpl in Hl; try lia.
  by exists a, b.
Qed.

(** X12. Parsing the world string never panics: each index into the
    pieces of the string is guarded by a check of their number.  The
    result is four [int64] bounds or a fatal error. *)
Theorem parseWorldDimensions_outcomes flagWorldDimensions :
  match parseWorldDimensions flagWorldDimensions with
  | Ok (worldMinX, worldMaxX, worldMinY, worldMaxY) =>
      int64 worldMinX ∧ int64 worldMaxX ∧ int64 worldMinY ∧ int64 worldMaxY
  | Fatal _ => True
  | Exit0 | Panic _ => False
  end.
Proof.
  destruct (parseWorldDimensions flagWorldDimensions)
    as [[[[x1 x2] y1] y2]| |e|panic] eqn:Hparse.
  - by apply parseWorldDimensions_int64 in Hparse.
  - revert Hparse. unfold parseWorldDimensions.
    destruct (Z.of_nat (length (Split flagWorldDimensions ";")) =? 2) eqn:H0;
      simpl; [|done].
    apply length_two in H0 as (parts0 & parts1 & ->). simpl.
    destruct (Z.of_nat (length (Split parts0 ":")) =? 2) eqn:H1;
      simpl; [|done].
    apply length_two in H1 as (p & p' & ->). simpl.
    destruct (Z.of_nat (length (Split parts1 ":")) =? 2) eqn:H2;
      simpl; [|done].
    apply length_two in H2 as (q & q' & ->). simpl.
    unfold parseBound. by repeat (case_match; simpl; try done).
  - done.
  - revert Hparse. unfold parseWorldDimensions.
    destruct (Z.of_nat (length (Split flagWorldDimensions ";")) =? 2) eqn:H0;
      simpl; [|done].
    apply length_two in H0 as (parts0 & parts1 & ->). simpl.
    destruct (Z.of_nat (length (Split parts0 ":")) =? 2) eqn:H1;
      simpl; [|done].
    apply length_two in H1 as (p & p' & ->). simpl.
    destruct (Z.of_nat (length (Split parts1 ":")) =? 2) eqn:H2;
      simpl; [|done].
    apply length_two in H2 as (q & q' & ->). simpl.
    unfold parseBound. by repeat (case_match; simpl; try done).
Qed.

Lemma parseBound_paddedInt b before z after :
  int64 z → blank before = true → blank after = true →
  parseBound b (paddedInt before z after) = Ok z.
Proof.
  intros Hz Hb Ha. unfold parseBound.
  by rewrite TrimSpace_paddedInt, ParseInt_pretty.
Qed.

(** X13. The world string is read back as the bounds it was written
    from: four [int64] values printed in the form [minX:maxX;minY:maxY],
    each with any white space around it, parse to those four values. *)
Theorem parseWorldDimensions_printed minX maxX minY maxY
    p1 q1 p2 q2 p3 q3 p4 q4 :
  int64 minX ∧ int64 maxX ∧ int64 minY ∧ int64 maxY →
  Forall (λ pad, blank pad = true) [p1; q1; p2; q2; p3; q3; p4; q4] →
  parseWorldDimensions
    (paddedInt p1 minX q1 +:+ ":" +:+ paddedInt p2 maxX q2 +:+ ";"
     +:+ paddedInt p3 minY q3 +:+ ":" +:+ paddedInt p4 maxY q4)
  = Ok (minX, maxX, minY, maxY).
Proof.
  intros (H1 & H2 & H3 & H4) Hpads.
  repeat match goal with
         | H : Forall _ (_ :: _) |- _ => apply Forall_cons in H as [? H]
         end.
  set (partX := paddedInt p1 minX q1 +:+ String ":" (paddedInt p2 maxX q2)).
  set (partY := paddedInt p3 minY q3 +:+ String ":" (paddedInt p4 maxY q4)).
  assert (paddedInt p1 minX q1 +:+ ":" +:+ paddedInt p2 maxX q2 +:+ ";"
          +:+ paddedInt p3 minY q3 +:+ ":" +:+ paddedInt p4 maxY q4
          = partX +:+ String ";" partY) as ->.
  { unfold partX, partY. by normalize_append. }
  assert (freeOf ";" partX = true) as HfreeX.
  { unfold partX. rewrite freeOf_append. cbn [freeOf].
    rewrite !freeOf_paddedInt by done. reflexivity. }
  assert (freeOf ";" partY = true) as HfreeY.
  { unfold partY. rewrite freeOf_append. cbn [freeOf].
    rewrite !freeOf_paddedInt by done. reflexivity. }
  unfold parseWorldDimensions.
  rewrite Split_free_sep, Split_free by done. simpl.
  subst partX partY.
  rewrite !Split_free_sep, !Split_free by by apply freeOf_paddedInt.
  simpl. by rewrite !parseBound_paddedInt.
Qed.

Lemma parseWorldDimensions_printed_witness :
  parseWorldDimensions
    (paddedInt " " (-5) "" +:+ ":" +:+ paddedInt "" 5 " " +:+ ";"
     +:+ paddedInt "" minInt64 "" +:+ ":" +:+ paddedInt " " maxInt64 "")
  = Ok (-5, 5, minInt64, maxInt64).
Proof.
  apply (parseWorldDimensions_printed (-5) 5 minInt64 maxInt64
           " " "" "" " " "" "" " " "").
  - unfold int64, minInt64, maxInt64. lia.
  - repeat constructor.
Defined.

(** ** The padding of the file names *)

Lemma countDigits_zero fuel : countDigits fuel 0 = 0.
Proof. by destruct fuel. Qed.

Lemma countDigits_spec fuel n :
  0 < n < 10 ^ Z.of_nat fuel →
  1 ≤ countDigits fuel n
  ∧ 10 ^ (countDigits fuel n - 1) ≤ n < 10 ^ countDigits fuel n.
Proof.
  revert n. induction fuel as [|fuel IH]; intros n Hn.
  - simpl in Hn. lia.
  - cbn [countDigits]. destruct (Z.eqb_spec n 0) as [|_]; [lia|].
    rewrite Nat2Z.inj_succ, Z.pow_succ_r in Hn by lia.
    pose proof (Z.div_mod n 10 ltac:(lia)) as Hdiv.
    pose proof (Z.mod_pos_bound n 10 ltac:(lia)) as Hmod.
    destruct (decide (n / 10 = 0)) as [Hsmall|Hbig].
    + rewrite Hsmall, countDigits_zero. simpl. lia.
    + destruct (IH (n / 10)) as (Hd & Hlo & Hhi); [lia|].
      split; [lia|].
      replace (1 + countDigits fuel (n / 10) - 1)
        with (Z.succ (countDigits fuel (n / 10) - 1)) by lia.
      replace (1 + countDigits fuel (n / 10))
        with (Z.succ (countDigits fuel (n / 10))) by lia.
      rewrite !Z.pow_succ_r by lia. lia.
Qed.

Lemma length_pretty_N_go fuel (x : N) s :
  Z.of_N x < 10 ^ Z.of_nat fuel →
  Z.of_nat (String.length (pretty_N_go x s))
  = countDigits fuel (Z.of_N x) + Z.of_nat (String.length s).
Proof.
  revert x s. induction fuel as [|fuel IH]; intros x s Hx.
  - simpl in Hx. assert (x = 0%N) as -> by lia. by rewrite pretty_N_go_0.
  - destruct (decide (x = 0)%N) as [->|Hpos].
    { by rewrite pretty_N_go_0. }
    rewrite pretty_N_go_step by lia. cbn [countDigits].
    destruct (Z.eqb_spec (Z.of_N x) 0) as [|_]; [lia|].
    rewrite Nat2Z.inj_succ, Z.pow_succ_r in Hx by lia.
    rewrite IH.
    + rewrite N2Z.inj_div. change (Z.of_N 10) with 10.
      simpl String.length. lia.
    + rewrite N2Z.inj_div. change (Z.of_N 10) with 10.
      apply Z.div_lt_upper_bound; lia.
Qed.

Lemma uint64_below : maxUint64 < 10 ^ Z.of_nat 20.
Proof. reflexivity. Qed.

(** The digits of a tick index, as [%d] prints them. *)
Lemma length_pretty_tick tick :
  0 < tick ≤ maxUint64 →
  Z.of_nat (String.length (pretty tick)) = countDigits 20 tick.
Proof.
  intros Htick. pose proof uint64_below.
  destruct tick as [|p|p]; [lia| |lia]. rewrite pretty_pos.
  rewrite (length_pretty_N_go 20) by (simpl; lia). simpl String.length.
  simpl Z.of_N. lia.
Qed.

(** X14. For a tick count from 1 to the largest [uint64], the loop of
    [bootstrap] that sets [ticksDigitsLength] counts the decimal digits
    of the tick count: the count [d] satisfies
    [10^(d-1) <= ticks < 10^d], and it is the length of the tick count as
    [%d] prints it. *)
Theorem ticksDigitsLength_digits ticks :
  1 ≤ ticks ≤ maxUint64 →
  10 ^ (countDigits 20 ticks - 1) ≤ ticks < 10 ^ countDigits 20 ticks
  ∧ countDigits 20 ticks = Z.of_nat (String.length (pretty ticks)).
Proof.
  intros Hticks. pose proof uint64_below. split.
  - apply countDigits_spec. lia.
  - symmetry. apply length_pretty_tick. lia.
Qed.

Lemma ticksDigitsLength_digits_witness :
  10 ^ (countDigits 20 1000 - 1) ≤ 1000 < 10 ^ countDigits 20 1000
  ∧ countDigits 20 1000 = Z.of_nat (String.length (pretty 1000)).
Proof.
  apply (ticksDigitsLength_digits 1000). unfold maxUint64. lia.
Defined.

Lemma length_zeros n : String.length (zeros n) = n.
Proof. induction n as [|n IH]; simpl; [done|]. by rewrite IH. Qed.

Lemma parseDigits_zeros n s : parseDigits (zeros n +:+ s) 0 = parseDigits s 0.
Proof.
  induction n as [|n IH]; [done|]. cbn [zeros]. rewrite append_cons.
  cbn [parseDigits]. change (digitValue "0") with (Some 0). cbv iota beta.
  change (maxUint64 <? 0 * 10 + 0) with false. cbv iota. apply IH.
Qed.

Lemma parseDigits_pretty tick :
  0 ≤ tick ≤ maxUint64 → parseDigits (pretty tick) 0 = inr tick.
Proof.
  intros Htick. destruct tick as [|p|p]; [done| |lia].
  rewrite pretty_pos.
  by rewrite (parseDigits_pretty_N_go (N.pos p) "") by (simpl; lia).
Qed.

Lemma length_padZeros_tick ticks tick :
  1 ≤ ticks ≤ maxUint64 → 0 ≤ tick ≤ ticks →
  String.length (padZeros (Z.to_nat (countDigits 20 ticks)) (pretty tick))
  = Z.to_nat (countDigits 20 ticks).
Proof.
  intros Hticks Htick. pose proof uint64_below.
  destruct (countDigits_spec 20 ticks) as (Hd & Hlo & Hhi); [lia|].
  assert (Z.of_nat (String.length (pretty tick)) ≤ countDigits 20 ticks)
    as Hlen.
  { destruct (decide (tick = 0)) as [->|Hpos].
    { change (String.length (pretty 0)) with 1%nat. lia. }
    rewrite length_pretty_tick by lia.
    destruct (countDigits_spec 20 tick) as (Hd' & Hlo' & Hhi'); [lia|].
    destruct (Z.le_gt_cases (countDigits 20 tick) (countDigits 20 ticks))
      as [|Hgt]; [done|].
    assert (10 ^ countDigits 20 ticks ≤ 10 ^ (countDigits 20 tick - 1))
      by (apply Z.pow_le_mono_r; lia).
    lia. }
  unfold padZeros. rewrite length_append, length_zeros. lia.
Qed.

Lemma append_cancel_r (s1 s2 t : string) :
  String.length s1 = String.length s2 → s1 +:+ t = s2 +:+ t → s1 = s2.
Proof.
  revert s2. induction s1 as [|c1 s1 IH]; intros [|c2 s2] Hlen Heq;
    simpl in Hlen; try done.
  rewrite !append_cons in Heq. injection Heq as -> Heq.
  f_equal. apply IH; [lia|done].
Qed.

(** X15. The names of the per-tick files of a run: for a tick count from
    1 to the largest [uint64] and tick indices from 0 to the tick count,
    all names have the same length, and the tick index can be read back
    from the padded digits, so two different ticks never share a file. *)
Theorem tick_file_names directory ticks tick1 tick2 :
  1 ≤ ticks ≤ maxUint64 → 0 ≤ tick1 ≤ ticks → 0 ≤ tick2 ≤ ticks →
  String.length (tickFileName directory (countDigits 20 ticks) tick1)
  = String.length (tickFileName directory (countDigits 20 ticks) tick2)
  ∧ ParseUint (padZeros (Z.to_nat (countDigits 20 ticks)) (pretty tick1))
    = inr tick1
  ∧ (tickFileName directory (countDigits 20 ticks) tick1
     = tickFileName directory (countDigits 20 ticks) tick2 → tick1 = tick2).
Proof.
  intros Hticks H1 H2.
  pose proof (length_padZeros_tick ticks tick1 Hticks H1) as Hlen1.
  pose proof (length_padZeros_tick ticks tick2 Hticks H2) as Hlen2.
  assert (∀ tick, 0 ≤ tick ≤ ticks →
    parseDigits (padZeros (Z.to_nat (countDigits 20 ticks)) (pretty tick)) 0
    = inr tick) as Hparse.
  { intros tick Htick. unfold padZeros.
    rewrite parseDigits_zeros. apply parseDigits_pretty. lia. }
  split; [|split].
  - unfold tickFileName. rewrite !length_append. lia.
  - unfold ParseUint. rewrite <- (Hparse tick1 H1).
    destruct (padZeros _ (pretty tick1)) eqn:Hpad; [|done].
    destruct (countDigits_spec 20 ticks) as (Hd & _ & _);
      [pose proof uint64_below; lia|].
    cbn [String.length] in Hlen1. lia.
  - unfold tickFileName. intros Hname.
    apply (inj (String.app directory)), (inj (String.app "/")) in Hname.
    apply append_cancel_r in Hname; [|lia].
    pose proof (Hparse tick1 H1) as Hp1. rewrite Hname, Hparse in Hp1 by done.
    congruence.
Qed.

Lemma tick_file_names_witness :
  String.length (tickFileName "out" (countDigits 20 100) 7)
  = String.length (tickFileName "out" (countDigits 20 100) 100)
  ∧ ParseUint (padZeros (Z.to_nat (countDigits 20 100)) (pretty 7)) = inr 7
  ∧ (tickFileName "out" (countDigits 20 100) 7
     = tickFileName "out" (countDigits 20 100) 100 → 7 = 100).
Proof.
  apply (tick_file_names "out" 100 7 100).
  - unfold maxUint64. lia.
  - lia.
  - lia.
Defined.

(** ** The files of a run *)




(** ** The map after a tick *)

Lemma tracked_empty c : ¬ tracked (∅ : Organisms) c.
Proof. unfold tracked. rewrite lookup2_empty. by intros [? ?]. Qed.

Lemma aliveAt_empty c : ¬ aliveAt (∅ : Organisms) c.
Proof. unfold aliveAt. by rewrite lookup2_empty. Qed.

(** X17. The map a tick builds holds the live cells and their stubbed
    neighbourhoods and nothing more: a coordinate has an entry exactly when
    it lies in the block of rows and columns [addOrganism] fills around
    some cell that is alive after the tick. *)
Theorem tick_tracks_halo w rule (organisms : Organisms) c :
  tracked (tick w rule organisms) c
  ↔ ∃ a, aliveAt (tick w rule organisms) a ∧ inBlock w a.1 a.2 c.
Proof.
  unfold tick. rewrite tickOver_insertAll, insertAll_tracked.
  setoid_rewrite insertAll_alive. split.
  - intros [H|(a & Ha & Hb)]; [by apply tracked_empty in H|].
    exists a. split; [by right|done].
  - intros (a & [Ha|Ha] & Hb); [by apply aliveAt_empty in Ha|].
    right. by exists a.
Qed.

(** ** Start-up of the configurable program *)

(** X18. What [main] of the configurable program has checked when it
    reaches [seedLife]: help was not asked for, the configuration file (if
    any) was read and decoded, there is at least one tick, both axes have
    their minimum below their maximum, and an output directory that is set
    exists or was created. *)
Theorem setup_accepts flags source stat app :
  Configurable.setup flags source stat = Ok app →
  Configurable.flagShowHelp flags = false
  ∧ source ≠ Configurable.Unreadable
  ∧ source ≠ Configurable.Undecodable
  ∧ 1 ≤ Configurable.appTicks app
  ∧ Configurable.appWorldMinX app < Configurable.appWorldMaxX app
  ∧ Configurable.appWorldMinY app < Configurable.appWorldMaxY app
  ∧ (Configurable.appOutputDirectory app ≠ "" →
     stat = StatIsDir ∨ stat = StatNotExist true).
Proof.
  unfold Configurable.setup, Configurable.parseFlags.
  destruct (Configurable.flagShowHelp flags); [done|]. simpl.
  destruct source as [| | |cf]; simpl; [|done..|].
  all: destruct (Configurable.processConfigurationCli _ _) as [app'| | |];
    simpl; [|done..].
  all: destruct (Configurable.bootstrap app' stat) as [digits| | |] eqn:Hboot;
    simpl; [|done..].
  all: intros [= <-].
  all: destruct (Configurable_bootstrap_bounds _ _ _ Hboot) as [HX HY].
  all: split; [done|]; split; [done|]; split; [done|].
  all: unfold Configurable.bootstrap in Hboot.
  all: destruct (Z.ltb_spec (Configurable.appTicks app') 1); [done|].
  all: split; [lia|]; split; [done|]; split; [done|].
  all: intros Hdir; apply String.eqb_neq in Hdir.
  all: unfold outputDirectorySetup in Hboot; rewrite Hdir in Hboot.
  all: destruct stat as [[|]| | |]; simpl in Hboot; try done; auto.
Qed.

Lemma setup_accepts_witness :
  Configurable.flagShowHelp Configurable.defaultFlags = false
  ∧ Configurable.Decoded sampleFileWorld ≠ Configurable.Unreadable
  ∧ Configurable.Decoded sampleFileWorld ≠ Configurable.Undecodable
  ∧ 1 ≤ Configurable.appTicks sampleFileApp
  ∧ Configurable.appWorldMinX sampleFileApp
    < Configurable.appWorldMaxX sampleFileApp
  ∧ Configurable.appWorldMinY sampleFileApp
    < Configurable.appWorldMaxY sampleFileApp
  ∧ (Configurable.appOutputDirectory sampleFileApp ≠ "" →
     StatIsDir = StatIsDir ∨ StatIsDir = StatNotExist true).
Proof.
  apply (setup_accepts Configurable.defaultFlags
           (Configurable.Decoded sampleFileWorld) StatIsDir sampleFileApp).
  vm_compute. reflexivity.
Defined.

Lemma parseNeighbors_spec neighborStrings parsed result :
  Configurable.parseNeighbors neighborStrings parsed = Ok result →
  ∃ added, result = parsed ++ added
           ∧ length added = length neighborStrings
           ∧ Forall neighborCount added.
Proof.
  revert parsed.
  induction neighborStrings as [|neighborString neighborStrings IH];
    intros parsed; simpl.
  - intros [= <-]. exists []. by rewrite app_nil_r.
  - destruct (Atoi (TrimSpace neighborString)) as [err|neighbor] eqn:Hatoi;
      [done|].
    destruct (Z.ltb_spec neighbor 1); [done|].
    intros (added & -> & Hlen & Hall)%IH.
    exists (neighbor :: added). rewrite <- app_assoc. split; [done|].
    split; [by rewrite <- Hlen|].
    constructor; [|done].
    apply ParseInt_int64 in Hatoi. unfold neighborCount, int64 in *. lia.
Qed.

Lemma nonEmpty_true s : Configurable.nonEmpty s = true ↔ s ≠ "".
Proof.
  unfold Configurable.nonEmpty. rewrite negb_true_iff. apply String.eqb_neq.
Qed.

Lemma nonEmpty_false s : Configurable.nonEmpty s = false ↔ s = "".
Proof.
  unfold Configurable.nonEmpty. rewrite negb_false_iff. apply String.eqb_eq.
Qed.

(** X19. A rule set given on the command line has one entry for each
    comma-separated part of the flag, and every entry is at least 1; a flag
    that is empty leaves the rule set as it was. *)
Theorem rule_sets_positive flags app app' :
  Configurable.processConfigurationCli flags app = Ok app' →
  (Configurable.flagNewLifeSpawn flags ≠ "" →
     Forall neighborCount (Configurable.appNewLifeSpawn app')
     ∧ length (Configurable.appNewLifeSpawn app')
       = length (Split (Configurable.flagNewLifeSpawn flags) ","))
  ∧ (Configurable.flagNewLifeSpawn flags = "" →
     Configurable.appNewLifeSpawn app' = Configurable.appNewLifeSpawn app)
  ∧ (Configurable.flagExistingLifeRemain flags ≠ "" →
     Forall neighborCount (Configurable.appExistingLifeRemain app')
     ∧ length (Configurable.appExistingLifeRemain app')
       = length (Split (Configurable.flagExistingLifeRemain flags) ","))
  ∧ (Configurable.flagExistingLifeRemain flags = "" →
     Configurable.appExistingLifeRemain app'
     = Configurable.appExistingLifeRemain app).
Proof.
  unfold Configurable.processConfigurationCli.
  destruct (if Configurable.nonEmpty _ then parseWorldDimensions _ else _)
    as [[[[x1 x2] y1] y2]| | |]; simpl; [|done..].
  destruct (if Configurable.nonEmpty (Configurable.flagNewLifeSpawn flags)
            then _ else _) as [birth| | |] eqn:Hbirth; simpl; [|done..].
  destruct (if Configurable.nonEmpty (Configurable.flagExistingLifeRemain flags)
            then _ else _) as [survive| | |] eqn:Hsurvive; simpl; [|done..].
  intros [= <-]. simpl.
  repeat split.
  - apply nonEmpty_true in H. rewrite H in Hbirth.
    by destruct (parseNeighbors_spec _ _ _ Hbirth) as (added & -> & _ & ?).
  - apply nonEmpty_true in H. rewrite H in Hbirth.
    by destruct (parseNeighbors_spec _ _ _ Hbirth) as (added & -> & ? & _).
  - intros H. apply nonEmpty_false in H. rewrite H in Hbirth. congruence.
  - apply nonEmpty_true in H. rewrite H in Hsurvive.
    by destruct (parseNeighbors_spec _ _ _ Hsurvive) as (added & -> & _ & ?).
  - apply nonEmpty_true in H. rewrite H in Hsurvive.
    by destruct (parseNeighbors_spec _ _ _ Hsurvive) as (added & -> & ? & _).
  - intros H. apply nonEmpty_false in H. rewrite H in Hsurvive. congruence.
Qed.

Lemma rule_sets_positive_witness :
  (Configurable.flagNewLifeSpawn sampleCliFlags ≠ "" →
     Forall neighborCount (Configurable.appNewLifeSpawn sampleCliApp)
     ∧ length (Configurable.appNewLifeSpawn sampleCliApp)
       = length (Split (Configurable.flagNewLifeSpawn sampleCliFlags) ","))
  ∧ (Configurable.flagNewLifeSpawn sampleCliFlags = "" →
     Configurable.appNewLifeSpawn sampleCliApp
     = Configurable.appNewLifeSpawn Configurable.init)
  ∧ (Configurable.flagExistingLifeRemain sampleCliFlags ≠ "" →
     Forall neighborCount (Configurable.appExistingLifeRemain sampleCliApp)
     ∧ length (Configurable.appExistingLifeRemain sampleCliApp)
       = length (Split (Configurable.flagExistingLifeRemain sampleCliFlags) ","))
  ∧ (Configurable.flagExistingLifeRemain sampleCliFlags = "" →
     Configurable.appExistingLifeRemain sampleCliApp
     = Configurable.appExistingLifeRemain Configurable.init).
Proof.
  apply (rule_sets_positive sampleCliFlags Configurable.init sampleCliApp).
  vm_compute. reflexivity.
Defined.

(** X20. With the world taken from the configuration file and no [-world]
    flag, the run's upper Y bound is the file's X maximum: the world
    [seedLife] and the tick loop use has the file's X bounds, the file's Y
    minimum and the X maximum again, and wraparound is on only when
    [-nowrap] is given and the file does not disable it. *)
Theorem configuration_file_world flags cf stat app :
  Configurable.setup flags (Configurable.Decoded cf) stat = Ok app →
  Configurable.flagWorldDimensions flags = "" →
  Configurable.Minimum (Configurable.X (Configurable.WorldDimensions cf)) ≠ 0
  ∨ Configurable.Maximum (Configurable.X (Configurable.WorldDimensions cf)) ≠ 0
  ∨ Configurable.Minimum (Configurable.Y (Configurable.WorldDimensions cf)) ≠ 0
  ∨ Configurable.Maximum (Configurable.Y (Configurable.WorldDimensions cf)) ≠ 0 →
  Configurable.world app
  = mkWorld
      (Configurable.flagDisableWraparound flags
       && negb (Configurable.DisableWraparound cf))
      (Configurable.Minimum (Configurable.X (Configurable.WorldDimensions cf)))
      (Configurable.Maximum (Configurable.X (Configurable.WorldDimensions cf)))
      (Configurable.Minimum (Configurable.Y (Configurable.WorldDimensions cf)))
      (Configurable.Maximum (Configurable.X (Configurable.WorldDimensions cf))).
Proof.
  intros Hsetup Hflag Hdims.
  assert (negb (Configurable.Minimum (Configurable.X (Configurable.WorldDimensions cf)) =? 0)
          || negb (Configurable.Maximum (Configurable.X (Configurable.WorldDimensions cf)) =? 0)
          || negb (Configurable.Minimum (Configurable.Y (Configurable.WorldDimensions cf)) =? 0)
          || negb (Configurable.Maximum (Configurable.Y (Configurable.WorldDimensions cf)) =? 0)
          = true) as Hnew.
  { rewrite !orb_true_iff, !negb_true_iff, !Z.eqb_neq. tauto. }
  revert Hsetup.
  unfold Configurable.setup, Configurable.parseFlags.
  destruct (Configurable.flagShowHelp flags); [done|]. simpl.
  rewrite Hnew.
  unfold Configurable.processConfigurationCli.
  rewrite Hflag. simpl.
  destruct (if Configurable.nonEmpty (Configurable.flagNewLifeSpawn flags)
            then _ else _) as [birth| | |]; simpl; [|done..].
  destruct (if Configurable.nonEmpty (Configurable.flagExistingLifeRemain flags)
            then _ else _) as [survive| | |]; simpl; [|done..].
  match goal with
  | |- context [Configurable.bootstrap ?a stat] =>
      destruct (Configurable.bootstrap a stat); simpl; [|done..]
  end.
  intros [= <-]. unfold Configurable.world. simpl.
  by destruct (Configurable.flagDisableWraparound flags),
    (Configurable.DisableWraparound cf).
Qed.

Lemma configuration_file_world_witness :
  Configurable.world sampleFileApp = mkWorld false 0 10 7 10.
Proof.
  apply (configuration_file_world Configurable.defaultFlags sampleFileWorld
           StatIsDir sampleFileApp).
  - vm_compute. reflexivity.
  - reflexivity.
  - right. left. simpl. lia.
Defined.

(** ** The two programs *)

Lemma tick_ext w rule1 rule2 organisms :
  (∀ alive neighborsAlive,
     rule1 alive neighborsAlive = rule2 alive neighborsAlive) →
  tick w rule1 organisms = tick w rule2 organisms.
Proof. intros H. unfold tick. by apply tickOver_ext. Qed.

(** X21. On the same world and seed, the tick loop of [main.go] and the
    tick loop of the configurable program with the rule sets [init] gives
    it write the same files and the same final output. *)
Theorem default_rules_agree w directory remaining tick_ organisms files :
  simulate w Basic.rule directory remaining tick_ organisms files
  = simulate w
      (Configurable.rule (Configurable.appNewLifeSpawn Configurable.init)
         (Configurable.appExistingLifeRemain Configurable.init))
      directory remaining tick_ organisms files.
Proof.
  revert tick_ organisms files.
  induction remaining as [|remaining IH]; intros tick_ organisms files;
    [done|].
  cbn [simulate]. rewrite IH. f_equal.
  apply tick_ext, Basic_rule_default.
Qed.

(** ** The output format *)

Lemma append_cancel_l (s t1 t2 : string) : s +:+ t1 = s +:+ t2 → t1 = t2.
Proof.
  induction s as [|a s IH]; [by rewrite !append_nil_l|].
  rewrite !append_cons. intros [= H]. by apply IH.
Qed.

Lemma concat_cons (x : string) l :
  String.concat "" (x :: l) = x +:+ String.concat "" l.
Proof.
  destruct l as [|y l]; [|done].
  cbn [String.concat]. by rewrite append_nil_r.
Qed.

Lemma separator_split sep (s1 s2 t1 t2 : string) :
  freeOf sep s1 = true → freeOf sep s2 = true →
  s1 +:+ String sep t1 = s2 +:+ String sep t2 → s1 = s2 ∧ t1 = t2.
Proof.
  revert s2. induction s1 as [|a s1 IH]; intros [|b s2]; cbn [freeOf];
    rewrite ?andb_true_iff, ?negb_true_iff, ?append_cons, ?append_nil_l.
  - by intros _ _ [= ->].
  - intros _ [Hb _] [= -> _]. by rewrite Ascii.eqb_refl in Hb.
  - intros [Ha _] _ [= -> _]. by rewrite Ascii.eqb_refl in Ha.
  - intros [_ H1] [_ H2] [= -> H]. by destruct (IH _ H1 H2 H) as [-> ->].
Qed.

Lemma formatCoordinate_split (c1 c2 : Z * Z) (r1 r2 : string) :
  formatCoordinate c1.1 c1.2 +:+ r1 = formatCoordinate c2.1 c2.2 +:+ r2 →
  c1 = c2 ∧ r1 = r2.
Proof.
  unfold formatCoordinate, newline. normalize_append.
  intros [HX H]%separator_split;
    [|by apply freeOf_numeric, pretty_numeric..].
  apply separator_split in H as [HY H];
    [|by apply freeOf_numeric, pretty_numeric..].
  apply (inj pretty) in HX, HY.
  destruct c1, c2; simpl in *. by subst.
Qed.

Lemma formatCoordinate_nonempty coordX coordY (r : string) :
  formatCoordinate coordX coordY +:+ r ≠ "".
Proof.
  unfold formatCoordinate. normalize_append.
  destruct (pretty coordX); by rewrite ?append_cons, ?append_nil_l.
Qed.

Lemma coordinate_lines_inj (l1 l2 : list (Z * Z)) :
  String.concat "" ((λ c, formatCoordinate c.1 c.2) <$> l1)
  = String.concat "" ((λ c, formatCoordinate c.1 c.2) <$> l2) →
  l1 = l2.
Proof.
  revert l2. induction l1 as [|c1 l1 IH]; intros [|c2 l2];
    rewrite ?fmap_cons, ?concat_cons; [done|..].
  - intros H. symmetry in H. by apply formatCoordinate_nonempty in H.
  - intros H. by apply formatCoordinate_nonempty in H.
  - intros [-> H]%formatCoordinate_split. f_equal. by apply IH.
Qed.

(** X22. The output text determines the generation and nothing else of the
    map: two maps give the same output exactly when they have the same
    live cells. *)
Theorem output_determines_alive (organisms1 organisms2 : Organisms) :
  outputOrganisms organisms1 = outputOrganisms organisms2
  ↔ ∀ c, aliveAt organisms1 c ↔ aliveAt organisms2 c.
Proof.
  split; [|apply outputOrganisms_alive].
  unfold outputOrganisms. intros H%append_cancel_l%coordinate_lines_inj c.
  by rewrite <- !elem_of_outputCoordinates, H.
Qed.
